(** * YNAB CSV import: a shallow embedding of the parser and its properties

    The development follows the TypeScript module that parses YNAB exports
    (tokenizer, currency normaliser, format detection, the two row
    aggregators, the account classifier and the name-similarity score).

    - A JavaScript string is the list of its UTF-16 code units.
    - A JavaScript number is an IEEE 754 binary64 value ([spec_float] with
      [prec = 53], [emax = 1024]), with the arithmetic of [SpecFloat].
    - A [Map] is an association list in insertion order.
    - A thrown [Error] is the left summand of a result.
    - [toLowerCase] is computed on ASCII text; on other text it is a
      parameter, the Unicode case conversion.

    Beside the parser it covers the import dialog that reconciles the
    parsed accounts with the existing ones, and the undo and redo hook.
    React state is a value there, and a callback is the function from the
    state before the call to the state after it. *)

From Stdlib Require Import String Ascii.
From Stdlib Require Import List ZArith NArith Lia Bool Permutation.
From Stdlib Require Import SpecFloat.
Import ListNotations.

Set Implicit Arguments.

(** ** JavaScript strings *)

Definition jsstring := list N.

(** An ASCII literal of the source, as code units. *)
Definition str (s : string) : jsstring :=
  map N_of_ascii (list_ascii_of_string s).

Definition jsstring_eqb (a b : jsstring) : bool :=
  if list_eq_dec N.eq_dec a b then true else false.

Definition LF : N := 10.
Definition CR : N := 13.
Definition QUOTE : N := 34.
Definition COMMA : N := 44.
Definition DOT : N := 46.
Definition SEMICOLON : N := 59.

(** WhiteSpace and LineTerminator code points of ECMAScript: what [trim]
    strips and what the regular-expression class [\s] matches. *)
Definition is_space (c : N) : bool :=
  ((9 <=? c) && (c <=? 13) || (c =? 32) || (c =? 160) || (c =? 5760)
   || (8192 <=? c) && (c <=? 8202) || (c =? 8232) || (c =? 8233)
   || (c =? 8239) || (c =? 8287) || (c =? 12288) || (c =? 65279))%N.

Fixpoint trimStart (s : jsstring) : jsstring :=
  match s with
  | c :: s' => if is_space c then trimStart s' else s
  | [] => []
  end.

Definition trimEnd (s : jsstring) : jsstring := rev (trimStart (rev s)).

Definition trim (s : jsstring) : jsstring := trimEnd (trimStart s).

Definition is_empty (s : jsstring) : bool :=
  match s with [] => true | _ => false end.

(** ** Tokenizer: [parseCSV] *)

Module CSV.

Record state := mkState {
  lines : list (list jsstring);
  currentLine : list jsstring;
  currentField : jsstring;
  inQuotes : bool
}.

Definition init : state := mkState [] [] [] false.

(** [currentLine.push(currentField.trim()); if (currentLine.some(f =>
    f.length > 0)) lines.push(currentLine)], the row emission shared by the
    line-break branch and the end of input. *)
Definition pushLine (ls : list (list jsstring)) (line : list jsstring)
    (field : jsstring) : list (list jsstring) :=
  let line' := line ++ [trim field] in
  if existsb (fun f => negb (is_empty f)) line' then ls ++ [line'] else ls.

(** One iteration of the [for] loop on [char = text[i]] and
    [nextChar = text[i + 1]]; the boolean is the extra [i++]. *)
Definition step (st : state) (char : N) (nextChar : option N) : state * bool :=
  let '(mkState ls line field q) := st in
  if q then
    if (char =? QUOTE)%N && (match nextChar with Some n => (n =? QUOTE)%N | None => false end)
    then (mkState ls line (field ++ [QUOTE]) true, true)
    else if (char =? QUOTE)%N then (mkState ls line field false, false)
    else (mkState ls line (field ++ [char]) true, false)
  else
    if (char =? QUOTE)%N then (mkState ls line field true, false)
    else if (char =? COMMA)%N || (char =? SEMICOLON)%N
    then (mkState ls (line ++ [trim field]) [] false, false)
    else if (char =? LF)%N
            || (char =? CR)%N && (match nextChar with Some n => (n =? LF)%N | None => false end)
    then (mkState (pushLine ls line field) [] [] false, (char =? CR)%N)
    else if negb (char =? CR)%N then (mkState ls line (field ++ [char]) false, false)
    else (st, false).

Fixpoint loop (st : state) (text : jsstring) : state :=
  match text with
  | [] => st
  | char :: rest =>
      let '(st', skip) := step st char (hd_error rest) in
      if skip then
        match rest with
        | _ :: rest' => loop st' rest'
        | [] => st'
        end
      else loop st' rest
  end.

Definition finish (st : state) : list (list jsstring) :=
  pushLine (lines st) (currentLine st) (currentField st).

End CSV.

Definition parseCSV (text : jsstring) : list (list jsstring) :=
  CSV.finish (CSV.loop CSV.init text).

(** Writing a field the way a CSV producer quotes it: wrapped in double
    quotes, every quote of the content doubled. *)
Definition quoteField (content : jsstring) : jsstring :=
  QUOTE :: flat_map (fun c => if (c =? QUOTE)%N then [QUOTE; QUOTE] else [c]) content
        ++ [QUOTE].

(** ** Numbers

    A JavaScript number is a binary64 float; [SpecFloat] gives its
    arithmetic (round to nearest, ties to even) on [spec_float]. *)

Definition number := spec_float.

Definition prec : Z := 53.
Definition emax : Z := 1024.

Definition num_add : number -> number -> number := SFadd prec emax.
Definition num_sub : number -> number -> number := SFsub prec emax.
Definition num_mul : number -> number -> number := SFmul prec emax.
Definition num_div : number -> number -> number := SFdiv prec emax.

Definition num_zero : number := S754_zero false.

Definition isNaN (x : number) : bool :=
  match x with S754_nan => true | _ => false end.

(** ToBoolean on a number: [0], [-0] and [NaN] are falsy. *)
Definition num_truthy (x : number) : bool :=
  match x with S754_zero _ | S754_nan => false | _ => true end.

(** [x || 0] *)
Definition num_or_zero (x : number) : number :=
  if num_truthy x then x else num_zero.

(** The number nearest to [(-1)^neg * m * 10^e] for [0 <= m]: the value of
    a decimal numeral, in source text and in [parseFloat] alike.  A
    non-negative exponent gives an integer, rounded by [binary_normalize];
    a negative one a quotient of integers, rounded once from the quotient
    and the position of the remainder. *)
Definition round_decimal (neg : bool) (m e : Z) : number :=
  match m with
  | Zpos p =>
      if (0 <=? e)%Z
      then binary_normalize prec emax (cond_Zopp neg (m * 10 ^ e)) 0 neg
      else let '(q, e', l) := SFdiv_core_binary prec emax m 0 (10 ^ (- e)) 0 in
           binary_round_aux prec emax neg q e' l
  | _ => S754_zero neg
  end.

Definition num_of_nat (n : nat) : number := round_decimal false (Z.of_nat n) 0.

(** *** [parseFloat] *)

Definition is_digit (c : N) : bool := ((48 <=? c) && (c <=? 57))%N.

Fixpoint span_digits (s : jsstring) : jsstring * jsstring :=
  match s with
  | c :: s' =>
      if is_digit c then let '(d, r) := span_digits s' in (c :: d, r) else ([], s)
  | [] => ([], [])
  end.

Definition digits_value (ds : jsstring) : Z :=
  fold_left (fun acc d => (10 * acc + (Z.of_N d - 48))%Z) ds 0%Z.

Fixpoint starts_with (p s : jsstring) : bool :=
  match p, s with
  | [], _ => true
  | a :: p', b :: s' => (a =? b)%N && starts_with p' s'
  | _ :: _, [] => false
  end.

(** Optional sign of StrDecimalLiteral and of SignedInteger. *)
Definition take_sign (s : jsstring) : bool * jsstring :=
  match s with
  | c :: r => if (c =? 45)%N then (true, r) else if (c =? 43)%N then (false, r) else (false, s)
  | [] => (false, [])
  end.

(** ExponentPart, when a complete one follows; [0] otherwise (the longest
    prefix that is a StrDecimalLiteral then stops before the [e]). *)
Definition exponent_part (s : jsstring) : Z :=
  match s with
  | c :: r =>
      if (c =? 101)%N || (c =? 69)%N then
        let '(eneg, r') := take_sign r in
        let '(ed, _) := span_digits r' in
        if is_empty ed then 0%Z else cond_Zopp eneg (digits_value ed)
      else 0%Z
  | [] => 0%Z
  end.

(** [parseFloat(s)]: leading white space skipped, then the longest prefix
    that is a StrDecimalLiteral, [NaN] when there is none.  The numeral is
    rounded from its exact value, as the engines in use do. *)
Definition parseFloat (s : jsstring) : number :=
  let '(neg, s1) := take_sign (trimStart s) in
  if starts_with (str "Infinity") s1 then S754_infinity neg
  else
    let '(ip, r1) := span_digits s1 in
    let '(fp, r2) :=
      match r1 with
      | c :: r => if (c =? DOT)%N then span_digits r else ([], r1)
      | [] => ([], r1)
      end in
    if is_empty ip && is_empty fp then S754_nan
    else round_decimal neg (digits_value (ip ++ fp))
                       (exponent_part r2 - Z.of_nat (length fp)).

(** ** Value normaliser: [parseCurrencyValue] *)

Definition includes_char (c : N) (s : jsstring) : bool :=
  existsb (N.eqb c) s.

(** [s.lastIndexOf(c)] for a one-character [c]: [-1] when absent. *)
Definition lastIndexOf (c : N) (s : jsstring) : Z :=
  snd (fold_left (fun '(i, found) x => ((i + 1)%Z, if (x =? c)%N then i else found))
                 s (0%Z, (-1)%Z)).

(** [s.replace(/c/g, '')] *)
Definition remove_all (c : N) (s : jsstring) : jsstring :=
  filter (fun x => negb (x =? c)%N) s.

(** [s.replace(c, d)] with a string pattern: the first occurrence only. *)
Fixpoint replace_first (c d : N) (s : jsstring) : jsstring :=
  match s with
  | x :: s' => if (x =? c)%N then d :: s' else x :: replace_first c d s'
  | [] => []
  end.

(** [s.split(c)] for a one-character separator. *)
Fixpoint split (c : N) (s : jsstring) : list jsstring :=
  match s with
  | x :: s' =>
      if (x =? c)%N then [] :: split c s'
      else match split c s' with
           | p :: ps => (x :: p) :: ps
           | [] => [[x]]
           end
  | [] => [[]]
  end.

(** The class [[€$£₱\s]]. *)
Definition is_currency_or_space (c : N) : bool :=
  ((c =? 8364) || (c =? 36) || (c =? 163) || (c =? 8369))%N || is_space c.

Definition clean (value : jsstring) : jsstring :=
  filter (fun c => negb (is_currency_or_space c)) value.

(** The separator analysis between the symbol stripping and [parseFloat]. *)
Definition normalizeSeparators (cleaned : jsstring) : jsstring :=
  if includes_char COMMA cleaned && includes_char DOT cleaned then
    let lastComma := lastIndexOf COMMA cleaned in
    let lastDot := lastIndexOf DOT cleaned in
    if (lastDot <? lastComma)%Z
    then replace_first COMMA DOT (remove_all DOT cleaned)
    else remove_all COMMA cleaned
  else if includes_char COMMA cleaned && negb (includes_char DOT cleaned) then
    let parts := split COMMA cleaned in
    if (length (last parts []) =? 2)%nat
    then replace_first COMMA DOT cleaned
    else remove_all COMMA cleaned
  else cleaned.

(** The argument is a cell [row[idx]], which is [undefined] ([None]) when the
    row is shorter than the index. *)
Definition parseCurrencyValue (value : option jsstring) : number :=
  match value with
  | None => num_zero
  | Some v =>
      if is_empty v || is_empty (trim v) then num_zero
      else
        let num := parseFloat (normalizeSeparators (clean v)) in
        if isNaN num then num_zero else num
  end.

(** ** String helpers shared by the rest of the module *)

(** [a < b] on strings: code units compared lexicographically. *)
Fixpoint str_ltb (a b : jsstring) : bool :=
  match a, b with
  | _, [] => false
  | [], _ :: _ => true
  | x :: a', y :: b' => (x <? y)%N || (x =? y)%N && str_ltb a' b'
  end.

(** [s.includes(sub)] *)
Fixpoint includes (s sub : jsstring) : bool :=
  starts_with sub s || match s with _ :: s' => includes s' sub | [] => false end.

(** [row[idx]]: [undefined] for a negative index or one past the end. *)
Definition cell (A : Type) (row : list A) (idx : Z) : option A :=
  if (idx <? 0)%Z then None else nth_error row (Z.to_nat idx).

(** [xs.findIndex(p)], [-1] when no element satisfies [p]. *)
Fixpoint findIndex (A : Type) (p : A -> bool) (xs : list A) : Z :=
  match xs with
  | x :: xs' =>
      if p x then 0%Z
      else let i := findIndex p xs' in if (i <? 0)%Z then (-1)%Z else (i + 1)%Z
  | [] => (-1)%Z
  end.

(** [xs.indexOf(s)] on an array of strings. *)
Definition indexOf (s : jsstring) (xs : list jsstring) : Z :=
  findIndex (jsstring_eqb s) xs.

(** ** [Map] with string keys: entries in insertion order *)

Module JsMap.
Section Ops.
Variable V : Type.

Definition t := list (jsstring * V).

Fixpoint get (k : jsstring) (m : t) : option V :=
  match m with
  | (k', v) :: m' => if jsstring_eqb k k' then Some v else get k m'
  | [] => None
  end.

(** [m.set(k, v)]: an existing key keeps its position. *)
Fixpoint set (k : jsstring) (v : V) (m : t) : t :=
  match m with
  | (k', v') :: m' => if jsstring_eqb k k' then (k', v) :: m' else (k', v') :: set k v m'
  | [] => [(k, v)]
  end.
End Ops.
End JsMap.

(** ** Regular expressions of the classifier

    The patterns use literal text, alternation, [\s*] and one optional
    character; none carries a flag, so they match code units. *)

Inductive regex :=
| Lit (s : jsstring)
| SpaceStar
| OptChar (c : N)
| Seq (r1 r2 : regex)
| Alt (r1 r2 : regex).

Fixpoint strip_prefix (p s : jsstring) : option jsstring :=
  match p, s with
  | [], _ => Some s
  | a :: p', b :: s' => if (a =? b)%N then strip_prefix p' s' else None
  | _ :: _, [] => None
  end.

Fixpoint after_spaces (k : jsstring -> bool) (s : jsstring) : bool :=
  match s with
  | c :: s' => is_space c && after_spaces k s' || k s
  | [] => k []
  end.

(** A match of [r] starting at the head of [s], continued by [k] on the rest. *)
Fixpoint match_at (r : regex) (s : jsstring) (k : jsstring -> bool) : bool :=
  match r with
  | Lit p => match strip_prefix p s with Some s' => k s' | None => false end
  | SpaceStar => after_spaces k s
  | OptChar c =>
      match s with x :: s' => (x =? c)%N && k s' | [] => false end || k s
  | Seq a b => match_at a s (fun s' => match_at b s' k)
  | Alt a b => match_at a s k || match_at b s k
  end.

(** [r.test(s)]: a match at some position of [s]. *)
Fixpoint test (r : regex) (s : jsstring) : bool :=
  match_at r s (fun _ => true)
  || match s with _ :: s' => test r s' | [] => false end.

Definition word (w : string) : regex := Lit (str w).

Definition words (w1 w2 : string) : regex :=
  Seq (word w1) (Seq SpaceStar (word w2)).

Fixpoint alts (r : regex) (rs : list regex) : regex :=
  match rs with
  | [] => r
  | r' :: rs' => Alt r (alts r' rs')
  end.

(** [/credit|visa|mastercard|amex|card|loan|mortgage|debt|owe/] *)
Definition re_liability : regex :=
  alts (word "credit") [word "visa"; word "mastercard"; word "amex"; word "card";
                        word "loan"; word "mortgage"; word "debt"; word "owe"].

(** [/mortgage|home\s*loan|car\s*loan|student\s*loan|auto\s*loan/] *)
Definition re_long_term : regex :=
  alts (word "mortgage") [words "home" "loan"; words "car" "loan";
                          words "student" "loan"; words "auto" "loan"].

(** [/401k|401\(k\)|ira|roth|pension|retirement|super|sss|pag-?ibig/] *)
Definition re_retirement : regex :=
  alts (word "401k") [word "401(k)"; word "ira"; word "roth"; word "pension";
                      word "retirement"; word "super"; word "sss";
                      Seq (word "pag") (Seq (OptChar 45) (word "ibig"))].

(** [/invest|brokerage|stock|etf|fund|portfolio|trading/] *)
Definition re_investment : regex :=
  alts (word "invest") [word "brokerage"; word "stock"; word "etf"; word "fund";
                        word "portfolio"; word "trading"].

(** [/property|real\s*estate|house|home|condo|apartment|land/] *)
Definition re_property : regex :=
  alts (word "property") [words "real" "estate"; word "house"; word "home";
                          word "condo"; word "apartment"; word "land"].

(** [/check|saving|cash|wallet|emergency|petty|current\s*account/] *)
Definition re_liquid : regex :=
  alts (word "check") [word "saving"; word "cash"; word "wallet"; word "emergency";
                       word "petty"; words "current" "account"].

(** ** Types of the parser's interface *)

(** Modelled from the spec: the union types [AccountCategory] and
    [AccessType] of [@/types/finance], which the module imports. *)
Inductive AccountCategory :=
  current_asset | non_current_asset | current_liability | non_current_liability.

Inductive AccessType := liquid | illiquid | retirement.

(** [ynabType] is declared ['Asset' | 'Liability'] and optional; at run time
    it holds whatever string the cast [row[typeIdx] as ...] lets through. *)
Record YNABParsedAccount := mkAccount {
  name : jsstring;
  balance : number;
  ynabType : option jsstring;
  suggestedCategory : AccountCategory;
  suggestedAccessType : AccessType
}.

Inductive Format := register | networth.

Record YNABParseResult (Date : Type) := mkResult {
  format : Format;
  accounts : list YNABParsedAccount;
  parseDate : Date
}.

Inductive error :=
| EmptyCSV
| UnrecognizedFormat
| InvalidNetWorthReport
| InvalidRegister
| NoAccountsFound.

Definition error_message (e : error) : string :=
  match e with
  | EmptyCSV => "Empty CSV file"
  | UnrecognizedFormat =>
      "Unrecognized YNAB CSV format. Please export from YNAB as either a Register or Net Worth report."
  | InvalidNetWorthReport => "Invalid Net Worth report: missing Account or Balance columns"
  | InvalidRegister => "Invalid Register format: missing Account, Inflow, or Outflow columns"
  | NoAccountsFound => "No accounts found in the CSV file"
  end.

Definition result (A : Type) := sum error A.

Definition opt_is (o : option jsstring) (s : string) : bool :=
  match o with Some x => jsstring_eqb x (str s) | None => false end.

(** ** Undo and redo history: [useUndoRedo]

    The hook keeps three pieces of React state, [state], [past] and
    [future]; each of its callbacks is the function from the three values
    before the call to the three values after it, for a call that is made
    on its own and rendered before the next one. *)

Module UndoRedo.
Section Hook.
Variable T : Type.

(** [JSON.stringify], which gives [undefined] on some values. *)
Variable stringify : T -> option jsstring.

Record history := mkHistory {
  state : T;
  past : list T;
  future : list T
}.

(** [JSON.stringify(a) !== JSON.stringify(b)] *)
Definition differs (a b : T) : bool :=
  match stringify a, stringify b with
  | Some x, Some y => negb (jsstring_eqb x y)
  | None, None => false
  | _, _ => true
  end.

(** [arr.slice(start)] for an integer [start]: a negative one counts from
    the end. *)
Definition slice (start : Z) (arr : list T) : list T :=
  let len := Z.of_nat (length arr) in
  let from := if (start <? 0)%Z then Z.max (len + start) 0 else Z.min start len in
  skipn (Z.to_nat from) arr.

(** The argument of [setState]: a value or an updater. *)
Inductive update :=
| Value (v : T)
| Updater (f : T -> T).

Definition setState (maxHistory : Z) (newState : update) (h : history) : history :=
  let currentState := state h in
  let resolvedState :=
    match newState with
    | Updater f => f currentState
    | Value v => v
    end in
  if differs resolvedState currentState then
    let newPast := past h ++ [currentState] in
    mkHistory resolvedState
              (if (maxHistory <? Z.of_nat (length newPast))%Z
               then slice (- maxHistory) newPast else newPast)
              []
  else mkHistory resolvedState (past h) (future h).

Definition undo (h : history) : history :=
  match past h with
  | [] => h
  | _ :: _ =>
      let previousState := last (past h) (state h) in
      mkHistory previousState (removelast (past h)) (state h :: future h)
  end.

Definition redo (h : history) : history :=
  match future h with
  | [] => h
  | nextState :: newFuture => mkHistory nextState (past h ++ [state h]) newFuture
  end.

Definition clearHistory (h : history) : history := mkHistory (state h) [] [].

Definition canUndo (h : history) : bool := (0 <? length (past h))%nat.
Definition canRedo (h : history) : bool := (0 <? length (future h))%nat.

(** The effect that follows the [initialState] argument of the hook. *)
Definition sync (initialState : T) (h : history) : history :=
  if differs (state h) initialState
  then mkHistory initialState (past h) (future h) else h.

(** The states in the order they were visited, the current one between
    the undone and the redoable ones. *)
Definition timeline (h : history) : list T := past h ++ state h :: future h.

(** A call of the hook's interface; [Sync] stands for the effect that
    follows a new [initialState]. *)
Inductive call :=
| Undo
| Redo
| ClearHistory
| SetState (newState : update)
| Sync (initialState : T).

(** The values of the render that follows an event in which the one call
    [c] is made and nothing else is queued: the updaters of the call then
    run on the rendered values [h]. *)
Definition commit (maxHistory : Z) (c : call) (h : history) : history :=
  match c with
  | Undo => undo h
  | Redo => redo h
  | ClearHistory => clearHistory h
  | SetState newState => setState maxHistory newState h
  | Sync initialState => sync initialState h
  end.

(** Events one after the other, one call each, each rendered before the
    next one begins.  Calls made together in one event are no such
    sequence: React queues their updaters side by side, and the setters
    that the updaters of this hook call from within themselves are queued
    in turn, so that a later call of the same event does not work on the
    outcome of an earlier one.  Such batches are not described here. *)
Definition events (maxHistory : Z) (cs : list call) (h : history) : history :=
  fold_left (fun h' c => commit maxHistory c h') cs h.

End Hook.
End UndoRedo.

(** ** The parser

    [toLowerCase] is the identity outside [A]-[Z] on a string of ASCII code
    units; on any other string it follows the Unicode case tables, which
    the development takes as given. *)

Section Parser.

Variable toLowerCaseUnicode : jsstring -> jsstring.

Definition lower_ascii (c : N) : N :=
  if ((65 <=? c) && (c <=? 90))%N then (c + 32)%N else c.

Definition toLowerCase (s : jsstring) : jsstring :=
  if forallb (fun c => (c <? 128)%N) s then map lower_ascii s
  else toLowerCaseUnicode s.

(** *** Format detection *)

Definition detectYNABFormat (headers : list jsstring) : option Format :=
  let headerSet := map (fun h => trim (toLowerCase h)) headers in
  let has s := existsb (jsstring_eqb (str s)) headerSet in
  if has "month"%string && has "account type"%string then Some networth
  else if has "inflow"%string && has "outflow"%string && has "account"%string
  then Some register
  else None.

(** *** Account classifier *)

Definition suggestAccountType (name : jsstring) (ynabType : option jsstring)
    : AccountCategory * AccessType :=
  let lower := toLowerCase name in
  if opt_is ynabType "Liability" || test re_liability lower then
    if test re_long_term lower then (non_current_liability, illiquid)
    else (current_liability, liquid)
  else if test re_retirement lower then (non_current_asset, retirement)
  else if test re_investment lower then (non_current_asset, liquid)
  else if test re_property lower then (non_current_asset, illiquid)
  else if test re_liquid lower then (current_asset, liquid)
  else if opt_is ynabType "Asset" then (current_asset, liquid)
  else (current_asset, liquid).

(** *** Row aggregators *)

Definition normalizedHeaders (rows : list (list jsstring)) : list jsstring :=
  map (fun h => trim (toLowerCase h)) (hd [] rows).

(** [!accountName || accountName.trim() === ''] *)
Definition blankName (accountName : option jsstring) : bool :=
  match accountName with
  | None => true
  | Some a => is_empty a || is_empty (trim a)
  end.

(** The first loop of [parseNetWorthReport]. *)
Definition mostRecentMonthOf (monthIdx : Z) (data : list (list jsstring)) : jsstring :=
  fold_left
    (fun mostRecentMonth row =>
       match cell row monthIdx with
       | Some month =>
           if negb (is_empty month) && str_ltb mostRecentMonth month
           then month else mostRecentMonth
       | None => mostRecentMonth
       end)
    data [].

(** Negation of the [continue] test [month !== mostRecentMonth], where
    [month] is [row[monthIdx]] under a month column and [mostRecentMonth]
    itself without one. *)
Definition monthSelected (monthIdx : Z) (mostRecentMonth : jsstring)
    (row : list jsstring) : bool :=
  if (0 <=? monthIdx)%Z then
    match cell row monthIdx with
    | Some month => jsstring_eqb month mostRecentMonth
    | None => false
    end
  else true.

Definition netWorthEntry : Type := number * option jsstring.

(** Body of the second loop of [parseNetWorthReport]. *)
Definition netWorthStep (accountIdx typeIdx balanceIdx monthIdx : Z)
    (mostRecentMonth : jsstring) (accountMap : JsMap.t netWorthEntry)
    (row : list jsstring) : JsMap.t netWorthEntry :=
  if negb (monthSelected monthIdx mostRecentMonth row) then accountMap
  else
    match cell row accountIdx with
    | Some accountName =>
        if blankName (Some accountName) then accountMap
        else
          let balance := parseCurrencyValue (cell row balanceIdx) in
          let ynabType := if (0 <=? typeIdx)%Z then cell row typeIdx else None in
          JsMap.set accountName (balance, ynabType) accountMap
    | None => accountMap
    end.

Definition netWorthAccount (e : jsstring * netWorthEntry) : YNABParsedAccount :=
  let '(name, (balance, type)) := e in
  let suggested := suggestAccountType name type in
  mkAccount name balance type (fst suggested) (snd suggested).

Definition is_balance_header (h : jsstring) : bool :=
  jsstring_eqb h (str "balance") || includes h (str "balance").

Definition parseNetWorthReport (rows : list (list jsstring))
    : result (list YNABParsedAccount) :=
  if (length rows <? 2)%nat then inr []
  else
    let headers := normalizedHeaders rows in
    let accountIdx := indexOf (str "account") headers in
    let typeIdx := indexOf (str "account type") headers in
    let balanceIdx := findIndex is_balance_header headers in
    let monthIdx := indexOf (str "month") headers in
    if (accountIdx =? -1)%Z || (balanceIdx =? -1)%Z then inl InvalidNetWorthReport
    else
      let mostRecentMonth := mostRecentMonthOf monthIdx (tl rows) in
      let accountMap :=
        fold_left (netWorthStep accountIdx typeIdx balanceIdx monthIdx mostRecentMonth)
                  (tl rows) [] in
      inr (map netWorthAccount accountMap).

(** Body of the loop of [parseRegister]. *)
Definition registerStep (accountIdx inflowIdx outflowIdx : Z)
    (accountBalances : JsMap.t number) (row : list jsstring) : JsMap.t number :=
  match cell row accountIdx with
  | Some accountName =>
      if blankName (Some accountName) then accountBalances
      else
        let inflow := parseCurrencyValue (cell row inflowIdx) in
        let outflow := parseCurrencyValue (cell row outflowIdx) in
        let netAmount := num_sub inflow outflow in
        let currentBalance :=
          match JsMap.get accountName accountBalances with
          | Some b => num_or_zero b
          | None => num_zero
          end in
        JsMap.set accountName (num_add currentBalance netAmount) accountBalances
  | None => accountBalances
  end.

Definition registerAccount (e : jsstring * number) : YNABParsedAccount :=
  let '(name, balance) := e in
  let suggested := suggestAccountType name None in
  mkAccount name balance None (fst suggested) (snd suggested).

Definition parseRegister (rows : list (list jsstring))
    : result (list YNABParsedAccount) :=
  if (length rows <? 2)%nat then inr []
  else
    let headers := normalizedHeaders rows in
    let accountIdx := indexOf (str "account") headers in
    let inflowIdx := indexOf (str "inflow") headers in
    let outflowIdx := indexOf (str "outflow") headers in
    if (accountIdx =? -1)%Z || (inflowIdx =? -1)%Z || (outflowIdx =? -1)%Z
    then inl InvalidRegister
    else
      inr (map registerAccount
               (fold_left (registerStep accountIdx inflowIdx outflowIdx) (tl rows) [])).

(** *** Main entry point; [now] is the value of [new Date()]. *)

Definition parseYNABCSV (Date : Type) (now : Date) (csvText : jsstring)
    : result (YNABParseResult Date) :=
  let rows := parseCSV csvText in
  if (length rows =? 0)%nat then inl EmptyCSV
  else
    match detectYNABFormat (hd [] rows) with
    | None => inl UnrecognizedFormat
    | Some format =>
        match (match format with
               | networth => parseNetWorthReport rows
               | register => parseRegister rows
               end) with
        | inl e => inl e
        | inr accounts =>
            if (length accounts =? 0)%nat then inl NoAccountsFound
            else inr (mkResult format accounts now)
        end
    end.

(** *** Similarity score *)

(** [arr[i] = v] on an array: in range it replaces, at the length it
    appends, beyond it the gap is filled (with holes in the source, with
    [d] here; the matrix below is only written in range or at the length).
    The cells of the matrix are counts bounded by the lengths of the two
    strings, which a number holds exactly: they are kept in [nat]. *)
Definition arr_set (A : Type) (d : A) (arr : list A) (i : nat) (v : A) : list A :=
  if (i <? length arr)%nat then firstn i arr ++ v :: skipn (S i) arr
  else arr ++ repeat d (i - length arr) ++ [v].

Definition mat_get (matrix : list (list nat)) (i j : nat) : nat :=
  nth j (nth i matrix []) 0.

(** [matrix[i][j] = v] *)
Definition mat_set (matrix : list (list nat)) (i j v : nat) : list (list nat) :=
  arr_set [] matrix i (arr_set 0 (nth i matrix []) j v).

(** Body of the inner loop of the edit-distance table. *)
Definition levCell (aLower bLower : jsstring) (i : nat)
    (matrix : list (list nat)) (j : nat) : list (list nat) :=
  if (nth (i - 1) bLower 0 =? nth (j - 1) aLower 0)%N
  then mat_set matrix i j (mat_get matrix (i - 1) (j - 1))
  else mat_set matrix i j
         (Nat.min (Nat.min (mat_get matrix (i - 1) (j - 1) + 1)
                           (mat_get matrix i (j - 1) + 1))
                  (mat_get matrix (i - 1) j + 1)).

(** The three loops that fill the table. *)
Definition levMatrix (aLower bLower : jsstring) : list (list nat) :=
  let m0 := fold_left (fun m i => arr_set [] m i [i]) (seq 0 (S (length bLower))) [] in
  let m1 := fold_left (fun m j => mat_set m 0 j j) (seq 0 (S (length aLower))) m0 in
  fold_left
    (fun m i => fold_left (levCell aLower bLower i) (seq 1 (length aLower)) m)
    (seq 1 (length bLower)) m1.

Definition stringSimilarity (a b : jsstring) : number :=
  let aLower := trim (toLowerCase a) in
  let bLower := trim (toLowerCase b) in
  if jsstring_eqb aLower bLower then round_decimal false 1 0
  else if (length aLower =? 0)%nat || (length bLower =? 0)%nat then num_zero
  else if includes aLower bLower || includes bLower aLower then
    let ratio := num_div (num_of_nat (Nat.min (length aLower) (length bLower)))
                         (num_of_nat (Nat.max (length aLower) (length bLower))) in
    num_add (round_decimal false 7 (-1)) (num_mul (round_decimal false 3 (-1)) ratio)
  else
    let distance := mat_get (levMatrix aLower bLower) (length bLower) (length aLower) in
    let maxLength := Nat.max (length aLower) (length bLower) in
    num_sub (round_decimal false 1 0) (num_div (num_of_nat distance) (num_of_nat maxLength)).

(** ** Reconciler: the mappings of [YNABImportDialog]

    The dialog holds a list of mappings in React state; [initialMappings]
    is its first value, [updateMapping] and [handleSelectMatch] give the
    next value from the current one, [summary] is recomputed from it. *)

(** [Currency], a union of string literals: a string at run time. *)
Definition Currency : Type := jsstring.

(** An existing account, with the fields the dialog reads: [id], [name],
    [category], [accessType] and [currency]. *)
Record Account := mkExistingAccount {
  accountId : jsstring;
  accountName : jsstring;
  accountCategory : AccountCategory;
  accountAccessType : AccessType;
  accountCurrency : Currency
}.

Inductive MatchType := Exact | Fuzzy | New.

(** An optional field that is absent or [undefined] is [None]. *)
Record AccountMapping := mkMapping {
  ynabAccount : YNABParsedAccount;
  matchType : MatchType;
  matchedAccount : option Account;
  fuzzyMatches : option (list (Account * number));
  selectedMatchId : option jsstring;
  include : bool;
  category : AccountCategory;
  accessType : AccessType;
  currency : Currency
}.

Definition FUZZY_THRESHOLD : number := round_decimal false 6 (-1).

(** [x >= y] on numbers: false when either is NaN. *)
Definition num_geb (x y : number) : bool :=
  match SFcompare x y with
  | Some Gt | Some Eq => true
  | _ => false
  end.

(** [v > 0], what makes [sort] put the second argument of the comparator
    before the first. *)
Definition num_positive (v : number) : bool :=
  match SFcompare v num_zero with
  | Some Gt => true
  | _ => false
  end.

(** [arr.sort(comparefn)].  The sort is stable, which fixes its result on a
    consistent comparator: every element stands behind exactly those that
    the comparator puts before it and those equal to it that came first. *)
Fixpoint insertSorted (A : Type) (comparefn : A -> A -> number) (x : A)
    (sorted : list A) : list A :=
  match sorted with
  | [] => [x]
  | y :: rest =>
      if num_positive (comparefn x y) then y :: insertSorted comparefn x rest
      else x :: sorted
  end.

Definition sort (A : Type) (comparefn : A -> A -> number) (arr : list A) : list A :=
  fold_right (insertSorted comparefn) [] arr.

(** The body of the [map] in [initialMappings]. *)
Definition initialMapping (existingAccounts : list Account) (defaultCurrency : Currency)
    (ynabAccount : YNABParsedAccount) : AccountMapping :=
  match find (fun acc => jsstring_eqb (trim (toLowerCase (accountName acc)))
                                      (trim (toLowerCase (name ynabAccount))))
             existingAccounts with
  | Some exactMatch =>
      mkMapping ynabAccount Exact (Some exactMatch) None (Some (accountId exactMatch)) true
                (accountCategory exactMatch) (accountAccessType exactMatch)
                (accountCurrency exactMatch)
  | None =>
      let fuzzyMatches :=
        sort (fun a b => num_sub (snd b) (snd a))
             (filter (fun m => num_geb (snd m) FUZZY_THRESHOLD)
                     (map (fun acc => (acc, stringSimilarity (name ynabAccount)
                                                             (accountName acc)))
                          existingAccounts)) in
      if (0 <? length fuzzyMatches)%nat then
        mkMapping ynabAccount Fuzzy None (Some fuzzyMatches) None true
                  (suggestedCategory ynabAccount) (suggestedAccessType ynabAccount)
                  defaultCurrency
      else
        mkMapping ynabAccount New None None None true
                  (suggestedCategory ynabAccount) (suggestedAccessType ynabAccount)
                  defaultCurrency
  end.

Definition initialMappings (parsedAccounts : list YNABParsedAccount)
    (existingAccounts : list Account) (defaultCurrency : Currency) : list AccountMapping :=
  map (initialMapping existingAccounts defaultCurrency) parsedAccounts.

(** [prev.map((m, i) => (i === index ? { ...m, ...updates } : m))]; the
    partial object [updates] is given by what the spread makes of a
    mapping, [m => { ...m, ...updates }]. *)
Fixpoint updateMapping (index : nat) (updates : AccountMapping -> AccountMapping)
    (prev : list AccountMapping) : list AccountMapping :=
  match prev, index with
  | [], _ => []
  | m :: rest, 0 => updates m :: rest
  | m :: rest, S i => m :: updateMapping i updates rest
  end.

(** [{ include: !!checked }], the update of the check box. *)
Definition setInclude (checked : bool) (m : AccountMapping) : AccountMapping :=
  mkMapping (ynabAccount m) (matchType m) (matchedAccount m) (fuzzyMatches m)
            (selectedMatchId m) checked (category m) (accessType m) (currency m).

(** ToBoolean on a string. *)
Definition str_truthy (s : jsstring) : bool := negb (is_empty s).

(** The mappings after [handleSelectMatch(index, accountId)], the second
    argument written [selectedId] here; [None] is the
    TypeError of reading a field of [mappings[index]] when there is no such
    mapping.  The category and the access type of an account are non-empty
    strings, so [||] keeps them; its currency is kept unless it is empty. *)
Definition handleSelectMatch (existingAccounts : list Account) (index : nat)
    (selectedId : jsstring) (mappings : list AccountMapping)
    : option (list AccountMapping) :=
  let mapping := nth_error mappings index in
  if jsstring_eqb selectedId (str "new") then
    Some (updateMapping index
            (fun m => mkMapping (ynabAccount m) New None (fuzzyMatches m) None
                                (include m) (category m) (accessType m) (currency m))
            mappings)
  else
    let matchedAccount :=
      find (fun a => jsstring_eqb (accountId a) selectedId) existingAccounts in
    match matchedAccount, mapping with
    | Some a, _ =>
        let withCurrency c :=
          Some (updateMapping index
                  (fun m => mkMapping (ynabAccount m) (matchType m) matchedAccount
                                      (fuzzyMatches m) (Some selectedId) (include m)
                                      (accountCategory a) (accountAccessType a) c)
                  mappings) in
        if str_truthy (accountCurrency a) then withCurrency (accountCurrency a)
        else match mapping with
             | Some mp => withCurrency (currency mp)
             | None => None
             end
    | None, Some mp =>
        Some (updateMapping index
                (fun m => mkMapping (ynabAccount m) (matchType m) None (fuzzyMatches m)
                                    (Some selectedId) (include m)
                                    (category mp) (accessType mp) (currency mp))
                mappings)
    | None, None => None
    end.

(** The string a category is at run time. *)
Definition categoryName (c : AccountCategory) : jsstring :=
  match c with
  | current_asset => str "current_asset"
  | non_current_asset => str "non_current_asset"
  | current_liability => str "current_liability"
  | non_current_liability => str "non_current_liability"
  end.

Record Summary := mkSummary {
  total : nat;
  exact : nat;
  fuzzyConfirmed : nat;
  fuzzyUnconfirmed : nat;
  newAccounts : nat;
  totalAssets : number;
  totalLiabilities : number;
  canImport : bool
}.

Definition matchType_is (t : MatchType) (m : AccountMapping) : bool :=
  match matchType m, t with
  | Exact, Exact | Fuzzy, Fuzzy | New, New => true
  | _, _ => false
  end.

(** ToBoolean of [m.selectedMatchId]. *)
Definition hasSelection (m : AccountMapping) : bool :=
  match selectedMatchId m with
  | Some s => str_truthy s
  | None => false
  end.

Definition summary (mappings : list AccountMapping) : Summary :=
  let included := filter include mappings in
  let exact := length (filter (matchType_is Exact) included) in
  let fuzzyConfirmed :=
    length (filter (fun m => matchType_is Fuzzy m && hasSelection m) included) in
  let fuzzyUnconfirmed :=
    length (filter (fun m => matchType_is Fuzzy m && negb (hasSelection m)) included) in
  let newAccounts := length (filter (matchType_is New) included) in
  let totalAssets :=
    fold_left (fun sum m => num_add sum (balance (ynabAccount m)))
              (filter (fun m => includes (categoryName (category m)) (str "asset")) included)
              num_zero in
  let totalLiabilities :=
    fold_left (fun sum m => num_add sum (balance (ynabAccount m)))
              (filter (fun m => includes (categoryName (category m)) (str "liability"))
                      included)
              num_zero in
  mkSummary (length included) exact fuzzyConfirmed fuzzyUnconfirmed newAccounts
            totalAssets totalLiabilities
            ((fuzzyUnconfirmed =? 0)%nat && (0 <? length included)%nat).

(** The argument [handleImport] passes to [onImport]. *)
Definition handleImport (mappings : list AccountMapping) : list AccountMapping :=
  filter include mappings.

(** * Vocabulary of the properties *)

(** ** Folding rows into a map *)

(** Both aggregators scan the data rows with a step that either leaves the
    map alone or sets one key to a value computed from the key's current
    value.  [upd row = Some (k, f)] describes such a step. *)
Definition map_step (R V : Type) (upd : R -> option (jsstring * (option V -> V)))
    (m : JsMap.t V) (r : R) : JsMap.t V :=
  match upd r with
  | Some (k, f) => JsMap.set k (f (JsMap.get k m)) m
  | None => m
  end.

(** What the scan does to the value under one key. *)
Definition key_step (R V : Type) (upd : R -> option (jsstring * (option V -> V)))
    (k : jsstring) (acc : option V) (r : R) : option V :=
  match upd r with
  | Some (k', f) => if jsstring_eqb k k' then Some (f acc) else acc
  | None => acc
  end.

(** ** Tokenizer *)

(** Rows already emitted are never touched again. *)
Definition add_lines (L : list (list jsstring)) (st : CSV.state) : CSV.state :=
  CSV.mkState (L ++ CSV.lines st) (CSV.currentLine st) (CSV.currentField st)
              (CSV.inQuotes st).

(** Effect of a row break on the scanner. *)
Definition break (st : CSV.state) : CSV.state :=
  CSV.mkState (CSV.pushLine (CSV.lines st) (CSV.currentLine st) (CSV.currentField st))
              [] [] false.

(** ** Aggregators *)

(** The column indices both aggregators compute from the header row. *)
Definition accountIdxOf (rows : list (list jsstring)) : Z :=
  indexOf (str "account") (normalizedHeaders rows).
Definition typeIdxOf (rows : list (list jsstring)) : Z :=
  indexOf (str "account type") (normalizedHeaders rows).
Definition balanceIdxOf (rows : list (list jsstring)) : Z :=
  findIndex is_balance_header (normalizedHeaders rows).
Definition monthIdxOf (rows : list (list jsstring)) : Z :=
  indexOf (str "month") (normalizedHeaders rows).
Definition inflowIdxOf (rows : list (list jsstring)) : Z :=
  indexOf (str "inflow") (normalizedHeaders rows).
Definition outflowIdxOf (rows : list (list jsstring)) : Z :=
  indexOf (str "outflow") (normalizedHeaders rows).

(** [row] has a month cell, and no month cell of [data] is greater. *)
Definition latestMonthRow (monthIdx : Z) (data : list (list jsstring))
    (row : list jsstring) : Prop :=
  exists month, cell row monthIdx = Some month /\
    forall row' month', In row' data -> cell row' monthIdx = Some month' ->
                        str_ltb month month' = false.

(** The rows the report keeps: those of the latest month under a month
    column, all of them without one. *)
Definition includedRow (monthIdx : Z) (data : list (list jsstring))
    (row : list jsstring) : Prop :=
  if (0 <=? monthIdx)%Z then latestMonthRow monthIdx data row else True.

(** What a data row writes into the account map of [parseNetWorthReport]. *)
Definition netWorthContribution (accountIdx typeIdx balanceIdx monthIdx : Z)
    (mostRecentMonth : jsstring) (row : list jsstring)
    : option (jsstring * netWorthEntry) :=
  if monthSelected monthIdx mostRecentMonth row then
    match cell row accountIdx with
    | Some accountName =>
        if blankName (Some accountName) then None
        else Some (accountName,
                   (parseCurrencyValue (cell row balanceIdx),
                    if (0 <=? typeIdx)%Z then cell row typeIdx else None))
    | None => None
    end
  else None.

(** [inflow - outflow] of a row. *)
Definition registerNet (inflowIdx outflowIdx : Z) (row : list jsstring) : number :=
  num_sub (parseCurrencyValue (cell row inflowIdx))
          (parseCurrencyValue (cell row outflowIdx)).

(** The data rows whose account cell is exactly [accountName]. *)
Definition rowsOfAccount (accountIdx : Z) (accountName : jsstring)
    (data : list (list jsstring)) : list (list jsstring) :=
  filter (fun row => match cell row accountIdx with
                     | Some a => jsstring_eqb a accountName
                     | None => false
                     end) data.

(** The running total the register keeps: [(total || 0) + net] per row. *)
Definition ledgerTotal (nets : list number) : number :=
  fold_left (fun total net => num_add (num_or_zero total) net) nets num_zero.

(** The sum in row order, starting from 0. *)
Definition sumInOrder (nets : list number) : number :=
  fold_left num_add nets num_zero.

(** What a data row does to the balances of [parseRegister]. *)
Definition registerUpdate (accountIdx inflowIdx outflowIdx : Z) (row : list jsstring)
    : option (jsstring * (option number -> number)) :=
  match cell row accountIdx with
  | Some accountName =>
      if blankName (Some accountName) then None
      else Some (accountName,
                 fun current =>
                   num_add (match current with
                            | Some b => num_or_zero b
                            | None => num_zero
                            end)
                           (registerNet inflowIdx outflowIdx row))
  | None => None
  end.

(** ** Edit distance *)

(** The recurrence the table implements: [levRec a b i j] is the distance
    between the first [i] characters of [b] and the first [j] of [a]. *)
Fixpoint levRec (a b : jsstring) (i j : nat) {struct i} : nat :=
  match i with
  | 0 => j
  | S i' =>
      (fix row (j : nat) : nat :=
         match j with
         | 0 => S i'
         | S j' =>
             if (nth i' b 0 =? nth j' a 0)%N then levRec a b i' j'
             else Nat.min (Nat.min (levRec a b i' j' + 1) (row j' + 1))
                          (levRec a b i' (S j') + 1)
         end) j
  end.

(** The first [n] cells of row [i]. *)
Definition rowUpTo (a b : jsstring) (i n : nat) : list nat :=
  map (levRec a b i) (seq 0 n).

(** The table in which row [i] holds its first [filled i] cells. *)
Definition tableau (a b : jsstring) (filled : nat -> nat) : list (list nat) :=
  map (fun i => rowUpTo a b i (filled i)) (seq 0 (S (length b))).

(** One more cell in row [i]. *)
Definition bump (filled : nat -> nat) (i : nat) : nat -> nat :=
  fun k => if (k =? i)%nat then S (filled i) else filled k.

(** Rows before [i] are complete, row [i] holds [j] cells, the rows after
    it only their first cell. *)
Definition filledAt (a : jsstring) (i j : nat) : nat -> nat :=
  fun k => if (k <? i)%nat then S (length a) else if (k =? i)%nat then j else 1%nat.

(** ** Value normaliser and trimmed fields *)

(** [isNaN(num) ? 0 : num] *)
Definition orZeroIfNaN (num : number) : number :=
  if isNaN num then num_zero else num.

(** No white space at the head. *)
Definition cleanHead (s : jsstring) : Prop :=
  match s with c :: _ => is_space c = false | [] => True end.

(** Every field is its own trimmed form. *)
Definition trimmedRows (ls : list (list jsstring)) : Prop :=
  Forall (Forall (fun f => trim f = f)) ls.

Definition trimmedState (st : CSV.state) : Prop :=
  trimmedRows (CSV.lines st) /\ Forall (fun f => trim f = f) (CSV.currentLine st).

(** ** Main entry point *)

(** The aggregator of a format. *)
Definition aggregate (fmt : Format) (rows : list (list jsstring))
    : result (list YNABParsedAccount) :=
  match fmt with
  | networth => parseNetWorthReport rows
  | register => parseRegister rows
  end.

(** The columns an aggregator looks up are not all in the header. *)
Definition missingColumns (fmt : Format) (rows : list (list jsstring)) : bool :=
  match fmt with
  | networth => (accountIdxOf rows =? -1)%Z || (balanceIdxOf rows =? -1)%Z
  | register =>
      (accountIdxOf rows =? -1)%Z || (inflowIdxOf rows =? -1)%Z
      || (outflowIdxOf rows =? -1)%Z
  end.

(** The error an aggregator throws on missing columns. *)
Definition missingColumnsError (fmt : Format) : error :=
  match fmt with
  | networth => InvalidNetWorthReport
  | register => InvalidRegister
  end.

(** ** Example documents *)

(** The examples are ASCII text, on which [toLowerCase] never consults the
    Unicode tables; they are run with the identity in their place. *)
Definition noUnicode : jsstring -> jsstring := fun s => s.

(** Two months of one account, the latest month twice. *)
Definition netWorthExample : list (list jsstring) :=
  [ [str "Month"; str "Account"; str "Account Type"; str "Balance"];
    [str "2024-01"; str "Savings"; str "Asset"; str "10"];
    [str "2024-02"; str "Savings"; str "Asset"; str "20"];
    [str "2024-02"; str "Savings"; str "Asset"; str "30"] ].

(** Two transactions on one account. *)
Definition registerExample : jsstring :=
  str "Account,Inflow,Outflow" ++ [LF] ++ str "Checking,100,0" ++ [LF]
  ++ str "Checking,0,40".

(** The register of the counterexample: the first row of account A has an
    infinite inflow and an infinite outflow, so its net amount is NaN. *)
Definition registerNaN : jsstring :=
  str "Account,Inflow,Outflow" ++ [LF] ++ str "A,Infinity,Infinity" ++ [LF]
  ++ str "A,5,0".

(** ** Tokenizer on text without quotes *)

(** The pieces of [s] between the characters that satisfy [p]. *)
Fixpoint splitBy (p : N -> bool) (s : jsstring) : list jsstring :=
  match s with
  | x :: s' =>
      if p x then [] :: splitBy p s'
      else match splitBy p s' with
           | f :: fs => (x :: f) :: fs
           | [] => [[x]]
           end
  | [] => [[]]
  end.

Definition is_delimiter (c : N) : bool := (c =? COMMA)%N || (c =? SEMICOLON)%N.

(** The trimmed fields of one line. *)
Definition fieldsOfLine (line : jsstring) : list jsstring :=
  map trim (splitBy is_delimiter line).

(** [row.some(f => f.length > 0)] *)
Definition hasContent (row : list jsstring) : bool :=
  existsb (fun f => negb (is_empty f)) row.

(** The rows of a text read line by line: carriage returns removed, lines
    cut at line feeds, fields at commas and semicolons, rows without
    content left out. *)
Definition plainRows (text : jsstring) : list (list jsstring) :=
  filter hasContent (map fieldsOfLine (splitBy (N.eqb LF) (remove_all CR text))).

(** Only white space and field delimiters. *)
Definition blankText (s : jsstring) : bool :=
  forallb (fun c => is_space c || is_delimiter c) s.

(** ** Signed amounts *)

(** The text of an optional minus sign. *)
Definition minusSign (neg : bool) : jsstring := if neg then [45%N] else [].

(** A digit or the grouping character [sep]. *)
Definition digitOrSep (sep c : N) : bool := is_digit c || (c =? sep)%N.

(** ** Order of the accounts, cues of the classifier *)

(** The elements of [ks] in the order of their first occurrence. *)
Fixpoint firstOccurrences (ks : list jsstring) : list jsstring :=
  match ks with
  | [] => []
  | k :: ks' => k :: filter (fun k' => negb (jsstring_eqb k' k)) (firstOccurrences ks')
  end.

(** The account cells of the rows, those that are missing or blank left out. *)
Definition accountNames (accountIdx : Z) (data : list (list jsstring)) : list jsstring :=
  flat_map (fun row => match cell row accountIdx with
                       | Some a => if blankName (Some a) then [] else [a]
                       | None => []
                       end) data.

(** The alternatives of the liability pattern. *)
Definition liabilityCues : list string :=
  ["credit"; "visa"; "mastercard"; "amex"; "card"; "loan"; "mortgage"; "debt"; "owe"]%string.

Definition is_liability (c : AccountCategory) : bool :=
  match c with
  | current_liability | non_current_liability => true
  | _ => false
  end.

(** ** Reconciler *)

(** The names agree up to case and surrounding white space. *)
Definition sameName (acc : Account) (y : YNABParsedAccount) : bool :=
  jsstring_eqb (trim (toLowerCase (accountName acc))) (trim (toLowerCase (name y))).

(** The pair the dialog lists for an existing account. *)
Definition scored (y : YNABParsedAccount) (acc : Account) : Account * number :=
  (acc, stringSimilarity (name y) (accountName acc)).

(** The similarity of the names reaches the threshold. *)
Definition candidate (y : YNABParsedAccount) (acc : Account) : bool :=
  num_geb (stringSimilarity (name y) (accountName acc)) FUZZY_THRESHOLD.

(** An included mapping that still awaits its confirmation. *)
Definition unconfirmed (m : AccountMapping) : bool :=
  include m && matchType_is Fuzzy m && negb (hasSelection m).

(** 1 for true, 0 for false. *)
Definition count (b : bool) : nat := if b then 1 else 0.

(** ** Example accounts *)

(** An existing account, and a parsed one whose name is a letter short. *)
Definition chaseChecking : Account :=
  mkExistingAccount (str "acc-1") (str "Chase Checking") current_asset liquid (str "USD").

Definition parsedTypo : YNABParsedAccount :=
  mkAccount (str "Chase Checkng") (round_decimal false 100 0) None current_asset liquid.

(** [JSON.stringify] of a string, up to the quotes around it. *)
Definition stringifyText : jsstring -> option jsstring := fun s => Some s.

(** ** Writing a table with every field quoted *)

(** The parts with [sep] between them. *)
Fixpoint joinWith (sep : N) (parts : list jsstring) : jsstring :=
  match parts with
  | [] => []
  | [p] => p
  | p :: ps => p ++ sep :: joinWith sep ps
  end.

(** The quoted fields of a row with commas between them, the rows of a
    table with line feeds between them. *)
Definition quotedRow (fields : list jsstring) : jsstring :=
  joinWith COMMA (map quoteField fields).

Definition quotedTable (rows : list (list jsstring)) : jsstring :=
  joinWith LF (map quotedRow rows).

(** ** Short rows *)

(** A register whose data row stops before the outflow column, the same
    row with the outflow written as 0, and a row without an account name. *)
Definition registerHeader : list jsstring := [str "Account"; str "Inflow"; str "Outflow"].
Definition shortRow : list jsstring := [str "Cash"; str "7"].
Definition paddedRow : list jsstring := [str "Cash"; str "7"; str "0"].
Definition namelessRow : list jsstring := [[]; str "5"].

(** * Properties *)

(** ** Tokenizer *)

Lemma length_induction (A : Type) (P : list A -> Prop) :
  (forall l, (forall l', (length l' < length l)%nat -> P l') -> P l) ->
  forall l, P l.
Proof.
  intros H l.
  enough (G : forall n l', (length l' < n)%nat -> P l') by (apply H; intros; eapply G; eauto).
  induction n as [|n IH]; intros l' Hl; [lia|].
  apply H. intros l'' Hl''. apply IH. lia.
Qed.

Lemma loop_quoted_content (content : jsstring) (ls : list (list jsstring))
    (line : list jsstring) (field : jsstring) :
  CSV.loop (CSV.mkState ls line field true)
    (flat_map (fun c => if (c =? QUOTE)%N then [QUOTE; QUOTE] else [c]) content ++ [QUOTE])
  = CSV.mkState ls line (field ++ content) false.
Proof.
  revert field. induction content as [|c content IH]; intros field.
  - simpl. now rewrite app_nil_r.
  - cbn [flat_map]. destruct (N.eqb_spec c QUOTE) as [->|Hc].
    + simpl. rewrite IH. now rewrite <- app_assoc.
    + cbn [app CSV.loop CSV.step].
      apply N.eqb_neq in Hc. rewrite Hc. simpl.
      rewrite IH. now rewrite <- app_assoc.
Qed.

Lemma parseCSV_quoteField (content : jsstring) :
  parseCSV (quoteField content)
  = if is_empty (trim content) then [] else [[trim content]].
Proof.
  unfold parseCSV, quoteField.
  change (CSV.loop CSV.init (QUOTE :: ?t)) with (CSV.loop (CSV.mkState [] [] [] true) t).
  rewrite loop_quoted_content. unfold CSV.finish, CSV.pushLine. simpl.
  now destruct (trim content).
Qed.

Lemma pushLine_app L ls line field :
  CSV.pushLine (L ++ ls) line field = L ++ CSV.pushLine ls line field.
Proof.
  unfold CSV.pushLine.
  destruct (existsb _ _); [now rewrite app_assoc | reflexivity].
Qed.

Lemma step_add_lines L st c nx :
  CSV.step (add_lines L st) c nx
  = (add_lines L (fst (CSV.step st c nx)), snd (CSV.step st c nx)).
Proof.
  destruct st as [ls line field q]. unfold add_lines, CSV.step. simpl.
  destruct q.
  - destruct (c =? QUOTE)%N; simpl; [destruct nx as [n|]; [destruct (n =? QUOTE)%N|]|];
      reflexivity.
  - destruct (c =? QUOTE)%N; simpl; [reflexivity|].
    destruct ((c =? COMMA)%N || (c =? SEMICOLON)%N); simpl; [reflexivity|].
    destruct ((c =? LF)%N || _); simpl; [now rewrite pushLine_app|].
    destruct (c =? CR)%N; reflexivity.
Qed.

Lemma loop_add_lines L text : forall st,
  CSV.loop (add_lines L st) text = add_lines L (CSV.loop st text).
Proof.
  induction text as [text IH] using length_induction.
  intros st. destruct text as [|c rest]; [reflexivity|].
  cbn [CSV.loop]. rewrite step_add_lines.
  destruct (CSV.step st c (hd_error rest)) as [st' skip]. cbn [fst snd].
  destruct skip.
  - destruct rest as [|c2 rest']; [reflexivity|]. apply IH. simpl. lia.
  - apply IH. simpl. lia.
Qed.

Lemma finish_add_lines L st :
  CSV.finish (add_lines L st) = L ++ CSV.finish st.
Proof. unfold CSV.finish, add_lines. simpl. apply pushLine_app. Qed.

Lemma loop_single st c : CSV.loop st [c] = fst (CSV.step st c None).
Proof. simpl. now destruct (CSV.step st c None) as [st' []]. Qed.

(** Appending [t] after [s1] continues from the state reached on [s1],
    provided the look-ahead of the last character of [s1] into [t] is
    harmless whenever that character leaves the scanner outside quotes. *)
Lemma loop_app_unquoted (t : jsstring) :
  (forall st c, CSV.inQuotes (fst (CSV.step st c None)) = false ->
                CSV.loop st (c :: t) = CSV.loop (fst (CSV.step st c None)) t) ->
  forall s1 st, CSV.inQuotes (CSV.loop st s1) = false ->
                CSV.loop st (s1 ++ t) = CSV.loop (CSV.loop st s1) t.
Proof.
  intros Hlast s1.
  induction s1 as [s1 IH] using length_induction. intros st Hq.
  destruct s1 as [|c [|c2 r]]; [reflexivity | |].
  - rewrite loop_single in *. now apply Hlast.
  - revert Hq. cbn [app CSV.loop hd_error].
    destruct (CSV.step st c (Some c2)) as [st' []]; intros Hq.
    + apply IH; [simpl; lia | exact Hq].
    + apply (IH (c2 :: r)); [simpl; lia | exact Hq].
Qed.

Lemma loop_LF st t :
  CSV.inQuotes st = false -> CSV.loop st (LF :: t) = CSV.loop (break st) t.
Proof. destruct st as [ls line field q]; simpl; now intros ->. Qed.

Lemma loop_CR st t :
  CSV.inQuotes st = false -> hd_error t <> Some LF ->
  CSV.loop st (CR :: t) = CSV.loop st t.
Proof.
  destruct st as [ls line field q]; cbn [CSV.inQuotes]; intros -> Ht.
  cbn [CSV.loop].
  replace (CSV.step _ CR (hd_error t)) with (CSV.mkState ls line field false, false);
    [reflexivity|].
  unfold CSV.step. destruct (hd_error t) as [n|]; [|reflexivity].
  destruct (N.eqb_spec n LF) as [->|]; [now elim Ht | reflexivity].
Qed.

Lemma last_char_then_LF t st c :
  CSV.inQuotes (fst (CSV.step st c None)) = false ->
  CSV.loop st (c :: LF :: t) = CSV.loop (fst (CSV.step st c None)) (LF :: t).
Proof.
  destruct st as [ls line field q]. cbn [CSV.loop hd_error].
  unfold CSV.step. destruct q.
  - destruct (N.eqb_spec c QUOTE) as [->|]; simpl; [reflexivity | discriminate].
  - destruct (N.eqb_spec c QUOTE) as [->|]; [simpl; discriminate|].
    destruct (N.eqb_spec c COMMA) as [->|]; [reflexivity|].
    destruct (N.eqb_spec c SEMICOLON) as [->|]; [reflexivity|].
    destruct (N.eqb_spec c LF) as [->|]; [reflexivity|].
    destruct (N.eqb_spec c CR) as [->|]; reflexivity.
Qed.

Lemma last_char_then_CR t st c :
  CSV.inQuotes (fst (CSV.step st c None)) = false ->
  CSV.loop st (c :: CR :: t) = CSV.loop (fst (CSV.step st c None)) (CR :: t).
Proof.
  destruct st as [ls line field q]. cbn [CSV.loop hd_error].
  unfold CSV.step. destruct q.
  - destruct (N.eqb_spec c QUOTE) as [->|]; simpl; [reflexivity | discriminate].
  - destruct (N.eqb_spec c QUOTE) as [->|]; [simpl; discriminate|].
    destruct (N.eqb_spec c COMMA) as [->|]; [reflexivity|].
    destruct (N.eqb_spec c SEMICOLON) as [->|]; [reflexivity|].
    destruct (N.eqb_spec c LF) as [->|]; [reflexivity|].
    destruct (N.eqb_spec c CR) as [->|]; reflexivity.
Qed.

Lemma loop_break_init st t :
  CSV.finish (CSV.loop (break st) t) = CSV.finish st ++ parseCSV t.
Proof.
  unfold parseCSV.
  replace (break st) with (add_lines (CSV.finish st) CSV.init).
  - now rewrite loop_add_lines, finish_add_lines.
  - unfold add_lines, break. simpl. now rewrite app_nil_r.
Qed.

Lemma parseCSV_LF s1 s2 :
  CSV.inQuotes (CSV.loop CSV.init s1) = false ->
  parseCSV (s1 ++ LF :: s2) = parseCSV s1 ++ parseCSV s2.
Proof.
  intros Hq. unfold parseCSV at 1.
  rewrite (loop_app_unquoted _ (last_char_then_LF s2)) by exact Hq.
  rewrite loop_LF by exact Hq. apply loop_break_init.
Qed.

Lemma loop_CR_inside s1 s2 st :
  CSV.inQuotes (CSV.loop st s1) = false -> hd_error s2 <> Some LF ->
  CSV.loop st (s1 ++ CR :: s2) = CSV.loop (CSV.loop st s1) s2.
Proof.
  intros Hq Hs2.
  rewrite (loop_app_unquoted _ (last_char_then_CR s2)) by exact Hq.
  now apply loop_CR.
Qed.

Lemma parseCSV_CRLF s1 s2 :
  CSV.inQuotes (CSV.loop CSV.init s1) = false ->
  parseCSV (s1 ++ CR :: LF :: s2) = parseCSV s1 ++ parseCSV s2.
Proof.
  intros Hq.
  assert (E : CSV.loop CSV.init (s1 ++ [CR]) = CSV.loop CSV.init s1).
  { rewrite loop_CR_inside; [reflexivity | exact Hq | discriminate]. }
  change (s1 ++ CR :: LF :: s2) with (s1 ++ [CR] ++ LF :: s2).
  rewrite app_assoc, parseCSV_LF by now rewrite E.
  unfold parseCSV. now rewrite E.
Qed.

(** Without a quote or a line feed at the head of [t] no look-ahead
    crosses the seam, so scanning splits there. *)
Lemma step_lookahead st c nx :
  nx <> Some QUOTE -> nx <> Some LF ->
  CSV.step st c nx = (fst (CSV.step st c None), false).
Proof.
  intros H1 H2. destruct st as [ls line field q]. unfold CSV.step.
  assert (Q : match nx with Some n => (n =? QUOTE)%N | None => false end = false).
  { destruct nx as [n|]; [|reflexivity]. apply N.eqb_neq. congruence. }
  assert (L : match nx with Some n => (n =? LF)%N | None => false end = false).
  { destruct nx as [n|]; [|reflexivity]. apply N.eqb_neq. congruence. }
  rewrite Q, L. rewrite !andb_false_r.
  destruct q.
  - destruct (c =? QUOTE)%N; reflexivity.
  - destruct (c =? QUOTE)%N; [reflexivity|].
    destruct ((c =? COMMA)%N || (c =? SEMICOLON)%N); [reflexivity|].
    rewrite !orb_false_r.
    destruct (N.eqb_spec c LF) as [->|]; [reflexivity|].
    destruct (c =? CR)%N; reflexivity.
Qed.

Lemma loop_app s1 s2 st :
  hd_error s2 <> Some QUOTE -> hd_error s2 <> Some LF ->
  CSV.loop st (s1 ++ s2) = CSV.loop (CSV.loop st s1) s2.
Proof.
  intros H1 H2. revert st.
  induction s1 as [s1 IH] using length_induction. intros st.
  destruct s1 as [|c [|c2 r]]; [reflexivity | |].
  - rewrite loop_single. cbn [app CSV.loop].
    now rewrite step_lookahead.
  - cbn [app CSV.loop hd_error].
    destruct (CSV.step st c (Some c2)) as [st' []].
    + apply IH. simpl; lia.
    + apply (IH (c2 :: r)). simpl; lia.
Qed.

Lemma parseCSV_bare_CR s1 s2 :
  CSV.inQuotes (CSV.loop CSV.init s1) = false ->
  hd_error s2 <> Some LF -> hd_error s2 <> Some QUOTE ->
  parseCSV (s1 ++ CR :: s2) = parseCSV (s1 ++ s2).
Proof.
  intros Hq HL HQ. unfold parseCSV.
  now rewrite loop_CR_inside, loop_app.
Qed.

(** ** Strings and maps *)

Lemma jsstring_eqb_spec (a b : jsstring) : reflect (a = b) (jsstring_eqb a b).
Proof.
  unfold jsstring_eqb. destruct (list_eq_dec N.eq_dec a b); now constructor.
Qed.

Lemma jsstring_eqb_refl (a : jsstring) : jsstring_eqb a a = true.
Proof. now destruct (jsstring_eqb_spec a a). Qed.

Lemma str_ltb_irrefl (a : jsstring) : str_ltb a a = false.
Proof.
  induction a as [|x a IH]; [reflexivity|]. simpl.
  now rewrite N.ltb_irrefl, N.eqb_refl, IH.
Qed.

Lemma str_ltb_nil_r (a : jsstring) : str_ltb a [] = false.
Proof. now destruct a. Qed.

Lemma str_ltb_trans (a b c : jsstring) :
  str_ltb a b = true -> str_ltb b c = true -> str_ltb a c = true.
Proof.
  revert b c. induction a as [|x a IH]; intros [|y b] [|z c]; simpl; try congruence.
  intros H1 H2.
  destruct (N.ltb_spec x y), (N.ltb_spec y z), (N.eqb_spec x y), (N.eqb_spec y z);
    simpl in *; try congruence; subst; try lia.
  - destruct (N.ltb_spec x z); [reflexivity | lia].
  - destruct (N.ltb_spec x z); [reflexivity | lia].
  - destruct (N.ltb_spec y z); [reflexivity | lia].
  - rewrite N.eqb_refl, (IH _ _ H1 H2). apply orb_true_r.
Qed.

Lemma str_ltb_total (a b : jsstring) :
  str_ltb a b = false -> str_ltb b a = false -> a = b.
Proof.
  revert b. induction a as [|x a IH]; intros [|y b]; simpl; try congruence.
  destruct (N.ltb_spec x y), (N.ltb_spec y x), (N.eqb_spec x y), (N.eqb_spec y x);
    simpl; try congruence; try lia.
  intros H1 H2. subst. f_equal. now apply IH.
Qed.

Section MapFacts.
Variable V : Type.
Implicit Types (m : JsMap.t V) (k : jsstring) (v : V).

Lemma map_get_set_same k v m : JsMap.get k (JsMap.set k v m) = Some v.
Proof.
  induction m as [|[k' v'] m IH]; simpl.
  - now rewrite jsstring_eqb_refl.
  - destruct (jsstring_eqb_spec k k'); simpl.
    + subst. now rewrite jsstring_eqb_refl.
    + destruct (jsstring_eqb_spec k k'); [contradiction | exact IH].
Qed.

Lemma map_get_set_other k k' v m :
  k <> k' -> JsMap.get k' (JsMap.set k v m) = JsMap.get k' m.
Proof.
  intros Hk. induction m as [|[k0 v0] m IH]; simpl.
  - destruct (jsstring_eqb_spec k' k); [congruence | reflexivity].
  - destruct (jsstring_eqb_spec k k0); simpl.
    + subst. destruct (jsstring_eqb_spec k' k0); [congruence | reflexivity].
    + destruct (jsstring_eqb_spec k' k0); [reflexivity | exact IH].
Qed.

Lemma map_keys_set k v m k' :
  In k' (map fst (JsMap.set k v m)) <-> k' = k \/ In k' (map fst m).
Proof.
  induction m as [|[k0 v0] m IH]; simpl.
  - intuition.
  - destruct (jsstring_eqb_spec k k0); simpl.
    + subst. intuition.
    + rewrite IH. intuition.
Qed.

Lemma map_NoDup_keys_set k v m :
  NoDup (map fst m) -> NoDup (map fst (JsMap.set k v m)).
Proof.
  induction m as [|[k0 v0] m IH]; simpl; intros Hnd.
  - constructor; [intros [] | constructor].
  - inversion Hnd as [|? ? Hnotin Hnd']; subst.
    destruct (jsstring_eqb_spec k k0); simpl.
    + now constructor.
    + constructor; [|now apply IH].
      rewrite map_keys_set. intros [E|Hin]; [congruence | contradiction].
Qed.

Lemma map_get_In k v m : JsMap.get k m = Some v -> In (k, v) m.
Proof.
  induction m as [|[k0 v0] m IH]; simpl; [discriminate|].
  destruct (jsstring_eqb_spec k k0).
  - intros [= ->]. subst. now left.
  - intros H. right. now apply IH.
Qed.

Lemma map_In_get k v m : NoDup (map fst m) -> In (k, v) m -> JsMap.get k m = Some v.
Proof.
  induction m as [|[k0 v0] m IH]; simpl; intros Hnd Hin; [contradiction|].
  inversion Hnd as [|? ? Hnotin Hnd']; subst.
  destruct Hin as [[= -> ->]|Hin].
  - now rewrite jsstring_eqb_refl.
  - destruct (jsstring_eqb_spec k k0) as [->|]; [|now apply IH].
    elim Hnotin. change k0 with (fst (k0, v)). now apply in_map.
Qed.

Lemma map_get_None_keys k m : JsMap.get k m = None <-> ~ In k (map fst m).
Proof.
  induction m as [|[k0 v0] m IH]; simpl; [intuition|].
  destruct (jsstring_eqb_spec k k0).
  - subst. split; [discriminate | intros H; elim H; now left].
  - rewrite IH. intuition.
Qed.
End MapFacts.

(** ** Folding rows into a map *)

Section MapFold.
Variables (R V : Type).
Variable upd : R -> option (jsstring * (option V -> V)).

Lemma fold_get k data : forall m,
  JsMap.get k (fold_left (map_step upd) data m) = fold_left (key_step upd k) data (JsMap.get k m).
Proof.
  induction data as [|r data IH]; intros m; [reflexivity|].
  simpl. rewrite IH. f_equal. unfold map_step, key_step.
  destruct (upd r) as [[k' f]|]; [|reflexivity].
  destruct (jsstring_eqb_spec k k') as [->|Hk].
  - apply map_get_set_same.
  - apply map_get_set_other. congruence.
Qed.

Lemma fold_NoDup data : forall m,
  NoDup (map fst m) -> NoDup (map fst (fold_left (map_step upd) data m)).
Proof.
  induction data as [|r data IH]; intros m Hnd; [exact Hnd|].
  simpl. apply IH. unfold map_step.
  destruct (upd r) as [[k f]|]; [now apply map_NoDup_keys_set | exact Hnd].
Qed.

Lemma fold_keys k data : forall m,
  In k (map fst (fold_left (map_step upd) data m)) <->
  In k (map fst m) \/ exists r f, In r data /\ upd r = Some (k, f).
Proof.
  induction data as [|r data IH]; intros m; simpl.
  - split; [now left | intros [H|(r & f & [] & _)]; exact H].
  - rewrite IH. unfold map_step at 1.
    destruct (upd r) as [[k' f']|] eqn:E.
    + rewrite map_keys_set. split.
      * intros [[->|H]|(r0 & f & Hin & Hr0)]; eauto 6.
      * intros [H|(r0 & f & [<-|Hin] & Hr0)]; eauto 6.
        rewrite E in Hr0. injection Hr0 as -> _. now left; left.
    + split.
      * intros [H|(r0 & f & Hin & Hr0)]; eauto 6.
      * intros [H|(r0 & f & [<-|Hin] & Hr0)]; eauto 6. congruence.
Qed.
End MapFold.

(** A step that overwrites: the value under a key comes from the last row
    that sets the key. *)
Lemma fold_overwrite_last (R V : Type) (contrib : R -> option (jsstring * V))
    (k : jsstring) (v : V) (data : list R) (acc : option V) :
  fold_left (key_step (fun r => match contrib r with
                                | Some (k', v') => Some (k', fun _ => v')
                                | None => None
                                end) k) data acc = Some v ->
  (exists pre r post, data = pre ++ r :: post /\ contrib r = Some (k, v) /\
                      forall r' v', In r' post -> contrib r' <> Some (k, v'))
  \/ (acc = Some v /\ forall r' v', In r' data -> contrib r' <> Some (k, v')).
Proof.
  induction data as [|r data IH] using rev_ind.
  - simpl. intros ->. right. split; [reflexivity | intros ? ? []].
  - rewrite fold_left_app. simpl. unfold key_step at 1.
    destruct (contrib r) as [[k' v']|] eqn:E.
    + destruct (jsstring_eqb_spec k k') as [->|Hk].
      * intros [= ->]. left. exists data, r, []. repeat split; [exact E | intros ? ? []].
      * intros H. destruct (IH H) as [(pre & r0 & post & -> & Hr0 & Hpost)|[Hacc Hnone]].
        -- left. exists pre, r0, (post ++ [r]). rewrite <- app_assoc. repeat split; auto.
           intros r' w Hin. apply in_app_or in Hin as [Hin|[<-|[]]]; [now apply Hpost|].
           rewrite E. congruence.
        -- right. split; [exact Hacc|]. intros r' w Hin.
           apply in_app_or in Hin as [Hin|[<-|[]]]; [now apply Hnone|].
           rewrite E. congruence.
    + intros H. destruct (IH H) as [(pre & r0 & post & -> & Hr0 & Hpost)|[Hacc Hnone]].
      * left. exists pre, r0, (post ++ [r]). rewrite <- app_assoc. repeat split; auto.
        intros r' w Hin. apply in_app_or in Hin as [Hin|[<-|[]]]; [now apply Hpost|].
        rewrite E. congruence.
      * right. split; [exact Hacc|]. intros r' w Hin.
        apply in_app_or in Hin as [Hin|[<-|[]]]; [now apply Hnone|].
        rewrite E. congruence.
Qed.

(** ** Net-worth aggregator *)

Lemma str_le_trans (a b c : jsstring) :
  str_ltb b a = false -> str_ltb c b = false -> str_ltb c a = false.
Proof.
  intros Hab Hbc. destruct (str_ltb c a) eqn:Hca; [|reflexivity].
  destruct (str_ltb a b) eqn:Hab'.
  - now rewrite (str_ltb_trans _ _ _ Hca Hab') in Hbc.
  - rewrite (str_ltb_total _ _ Hab' Hab) in Hca. congruence.
Qed.

Lemma mostRecentMonth_fold (monthIdx : Z) (data : list (list jsstring)) :
  forall a,
    let f := fun mostRecentMonth row =>
               match cell row monthIdx with
               | Some month =>
                   if negb (is_empty month) && str_ltb mostRecentMonth month
                   then month else mostRecentMonth
               | None => mostRecentMonth
               end in
    let r := fold_left f data a in
    (r = a \/ exists row, In row data /\ cell row monthIdx = Some r)
    /\ str_ltb r a = false
    /\ forall row month, In row data -> cell row monthIdx = Some month ->
                         str_ltb r month = false.
Proof.
  induction data as [|row data IH]; intros a f r.
  - subst r. simpl. split; [now left|]. split; [apply str_ltb_irrefl | intros ? ? []].
  - subst r. cbn [fold_left]. set (a' := f a row).
    destruct (IH a') as (H1 & H2 & H3). fold f in H1, H2, H3.
    set (r := fold_left f data a') in *.
    assert (Ha' : (a' = a \/ cell row monthIdx = Some a') /\ str_ltb a' a = false
                  /\ forall month, cell row monthIdx = Some month ->
                                   str_ltb a' month = false).
    { subst a' f. cbv beta. destruct (cell row monthIdx) as [month|].
      - destruct month as [|c month].
        + simpl. split; [now left|]. split; [apply str_ltb_irrefl|].
          intros ? [= <-]. apply str_ltb_nil_r.
        + cbn [is_empty negb andb]. destruct (str_ltb a (c :: month)) eqn:E.
          * split; [now right|]. split.
            -- destruct (str_ltb (c :: month) a) eqn:E'; [|reflexivity].
               pose proof (str_ltb_trans _ _ _ E E') as T.
               now rewrite str_ltb_irrefl in T.
            -- intros ? [= <-]. apply str_ltb_irrefl.
          * split; [now left|]. split; [apply str_ltb_irrefl|].
            now intros ? [= <-].
      - split; [now left|]. split; [apply str_ltb_irrefl | discriminate]. }
    destruct Ha' as (A1 & A2 & A3).
    split; [|split].
    + destruct H1 as [H1|(row' & Hin & Hrow')].
      * destruct A1 as [A1|A1].
        -- left. congruence.
        -- right. exists row. split; [now left | congruence].
      * right. exists row'. split; [now right | exact Hrow'].
    + exact (str_le_trans _ _ _ A2 H2).
    + intros row' month [<-|Hin] Hc.
      * exact (str_le_trans _ _ _ (A3 _ Hc) H2).
      * exact (H3 _ _ Hin Hc).
Qed.

Lemma monthSelected_spec (monthIdx : Z) (data : list (list jsstring))
    (row : list jsstring) :
  In row data ->
  (monthSelected monthIdx (mostRecentMonthOf monthIdx data) row = true
   <-> includedRow monthIdx data row).
Proof.
  intros Hin. unfold monthSelected, includedRow.
  destruct (0 <=? monthIdx)%Z; [|tauto].
  destruct (mostRecentMonth_fold monthIdx data []) as (H1 & _ & H3).
  cbv zeta in H1, H3. fold (mostRecentMonthOf monthIdx data) in H1, H3.
  set (r := mostRecentMonthOf monthIdx data) in *.
  unfold latestMonthRow. split.
  - destruct (cell row monthIdx) as [month|]; [|discriminate].
    destruct (jsstring_eqb_spec month r) as [->|]; [|discriminate].
    intros _. exists r. split; [reflexivity | exact H3].
  - intros (month & Hc & Hmax). rewrite Hc.
    destruct (jsstring_eqb_spec month r) as [|Hne]; [reflexivity|].
    elim Hne. apply str_ltb_total.
    + destruct H1 as [->|(row' & Hin' & Hrow')]; [apply str_ltb_nil_r|].
      exact (Hmax _ _ Hin' Hrow').
    + exact (H3 _ _ Hin Hc).
Qed.

Lemma fold_left_ext_eq (A B : Type) (f g : A -> B -> A) (l : list B) (a : A) :
  (forall x y, f x y = g x y) -> fold_left f l a = fold_left g l a.
Proof.
  intros E. revert a. induction l as [|y l IH]; intros a; [reflexivity|].
  simpl. now rewrite E, IH.
Qed.

Arguments blankName : simpl never.

Lemma short_rows_no_data (rows : list (list jsstring)) :
  (length rows <? 2)%nat = true -> tl rows = [].
Proof.
  destruct rows as [|h [|r rows]]; simpl; try reflexivity.
  intros H. apply Nat.ltb_lt in H. simpl in H. lia.
Qed.

Lemma netWorthStep_map_step accountIdx typeIdx balanceIdx monthIdx mostRecentMonth m row :
  netWorthStep accountIdx typeIdx balanceIdx monthIdx mostRecentMonth m row
  = map_step (fun r => match netWorthContribution accountIdx typeIdx balanceIdx
                                                  monthIdx mostRecentMonth r with
                       | Some (k, v) => Some (k, fun _ => v)
                       | None => None
                       end) m row.
Proof.
  unfold netWorthStep, map_step, netWorthContribution.
  destruct (monthSelected monthIdx mostRecentMonth row); [|reflexivity].
  destruct (cell row accountIdx) as [a|]; [|reflexivity].
  now destruct (blankName (Some a)).
Qed.

Lemma names_netWorthAccount (m : JsMap.t netWorthEntry) :
  map name (map netWorthAccount m) = map fst m.
Proof.
  rewrite map_map. apply map_ext. now intros [k [b t]].
Qed.

(** The account map of the net-worth report, characterised row by row. *)
Lemma netWorth_accounts (rows : list (list jsstring)) (accs : list YNABParsedAccount) :
  parseNetWorthReport rows = inr accs ->
  let data := tl rows in
  let included := includedRow (monthIdxOf rows) data in
  NoDup (map name accs)
  /\ (forall n, In n (map name accs) <->
                exists row, In row data /\ included row
                            /\ cell row (accountIdxOf rows) = Some n
                            /\ blankName (Some n) = false)
  /\ (forall acc, In acc accs ->
        exists pre row post,
          data = pre ++ row :: post
          /\ included row
          /\ cell row (accountIdxOf rows) = Some (name acc)
          /\ balance acc = parseCurrencyValue (cell row (balanceIdxOf rows))
          /\ ynabType acc = (if (0 <=? typeIdxOf rows)%Z
                             then cell row (typeIdxOf rows) else None)
          /\ forall row', In row' post -> included row' ->
                          cell row' (accountIdxOf rows) <> Some (name acc)).
Proof.
  unfold parseNetWorthReport.
  fold (accountIdxOf rows) (typeIdxOf rows) (balanceIdxOf rows) (monthIdxOf rows).
  destruct (length rows <? 2)%nat eqn:Hlen.
  { intros [= <-]. rewrite (short_rows_no_data _ Hlen). simpl.
    split; [constructor|]. split; [|intros ? []].
    intros n. split; [intros [] | intros (? & [] & _)]. }
  destruct ((accountIdxOf rows =? -1)%Z || (balanceIdxOf rows =? -1)%Z); [discriminate|].
  intros [= <-].
  set (data := tl rows). set (included := includedRow (monthIdxOf rows) data).
  set (ai := accountIdxOf rows) in *. set (ti := typeIdxOf rows) in *.
  set (bi := balanceIdxOf rows) in *. set (mi := monthIdxOf rows) in *.
  set (mrm := mostRecentMonthOf mi data).
  set (contrib := netWorthContribution ai ti bi mi mrm).
  set (upd := fun r => match contrib r with
                       | Some (k, v) => Some (k, fun _ : option netWorthEntry => v)
                       | None => None
                       end).
  rewrite (fold_left_ext_eq _ (map_step upd) data []
             (netWorthStep_map_step ai ti bi mi mrm)).
  set (M := fold_left (map_step upd) data []).
  assert (Hnd : NoDup (map fst M)) by (apply fold_NoDup; constructor).
  assert (Hsel : forall row, In row data ->
                   (monthSelected mi mrm row = true <-> included row))
    by (intros row Hin; now apply monthSelected_spec).
  assert (Hcontrib : forall row k v, In row data ->
            (contrib row = Some (k, v) <->
             included row /\ cell row ai = Some k /\ blankName (Some k) = false
             /\ v = (parseCurrencyValue (cell row bi),
                     if (0 <=? ti)%Z then cell row ti else None))).
  { intros row k v Hin. subst contrib. unfold netWorthContribution.
    rewrite <- (Hsel row Hin).
    destruct (monthSelected mi mrm row); [|split; [discriminate | now intros [? _]]].
    destruct (cell row ai) as [a|]; [|split; [discriminate | now intros (_ & ? & _)]].
    destruct (blankName (Some a)) eqn:Hb.
    - split; [discriminate | intros (_ & [= ->] & Hb' & _); congruence].
    - split.
      + intros [= -> <-]. auto.
      + intros (_ & [= ->] & _ & ->). reflexivity. }
  rewrite names_netWorthAccount. split; [exact Hnd|]. split.
  - intros n. unfold M. rewrite fold_keys. simpl. split.
    + intros [[]|(row & f & Hin & Hupd)]. exists row. split; [exact Hin|].
      subst upd. cbv beta in Hupd.
      destruct (contrib row) as [[k v]|] eqn:E; [|discriminate].
      injection Hupd as -> _. apply (Hcontrib _ _ _ Hin) in E. tauto.
    + intros (row & Hin & Hinc & Hc & Hb). right.
      exists row, (fun _ => (parseCurrencyValue (cell row bi),
                             if (0 <=? ti)%Z then cell row ti else None)).
      split; [exact Hin|]. subst upd. cbv beta.
      now rewrite (proj2 (Hcontrib row n _ Hin) (conj Hinc (conj Hc (conj Hb eq_refl)))).
  - intros acc Hacc. apply in_map_iff in Hacc as ([k [b t]] & <- & Hin).
    apply map_In_get in Hin; [|exact Hnd]. unfold M in Hin. rewrite fold_get in Hin.
    apply fold_overwrite_last in Hin as [(pre & row & post & Hdata & Hrow & Hpost)|[[=] _]].
    assert (Hrin : In row data) by (rewrite Hdata; apply in_elt).
    apply (Hcontrib _ _ _ Hrin) in Hrow as (Hinc & Hc & Hb & [= -> ->]).
    exists pre, row, post. simpl. repeat split; auto.
    intros row' Hin' Hinc' Hc'.
    assert (Hrin' : In row' data)
      by (rewrite Hdata; apply in_or_app; right; now right).
    eapply Hpost; [exact Hin'|].
    apply (Hcontrib _ _ _ Hrin'). repeat split; eauto.
Qed.

Lemma parseNetWorthReport_ok (rows : list (list jsstring)) :
  accountIdxOf rows <> (-1)%Z -> balanceIdxOf rows <> (-1)%Z ->
  exists accs, parseNetWorthReport rows = inr accs.
Proof.
  intros Ha Hb. unfold parseNetWorthReport.
  fold (accountIdxOf rows) (balanceIdxOf rows).
  destruct (length rows <? 2)%nat; [now eexists|].
  apply Z.eqb_neq in Ha, Hb. rewrite Ha, Hb. now eexists.
Qed.

(** ** Register aggregator *)

Lemma registerStep_map_step accountIdx inflowIdx outflowIdx m row :
  registerStep accountIdx inflowIdx outflowIdx m row
  = map_step (registerUpdate accountIdx inflowIdx outflowIdx) m row.
Proof.
  unfold registerStep, map_step, registerUpdate.
  destruct (cell row accountIdx) as [a|]; [|reflexivity].
  now destruct (blankName (Some a)).
Qed.

Lemma register_key_fold accountIdx inflowIdx outflowIdx k data :
  blankName (Some k) = false ->
  forall acc,
    fold_left (key_step (registerUpdate accountIdx inflowIdx outflowIdx) k) data acc
    = fold_left (fun acc net =>
                   Some (num_add (match acc with
                                  | Some b => num_or_zero b
                                  | None => num_zero
                                  end) net))
                (map (registerNet inflowIdx outflowIdx) (rowsOfAccount accountIdx k data))
                acc.
Proof.
  intros Hk. induction data as [|row data IH]; intros acc; [reflexivity|].
  cbn [fold_left rowsOfAccount filter]. rewrite IH.
  unfold key_step, registerUpdate.
  destruct (cell row accountIdx) as [a|]; [|reflexivity].
  destruct (jsstring_eqb_spec a k) as [->|Hne].
  - rewrite Hk, jsstring_eqb_refl. reflexivity.
  - destruct (blankName (Some a)); [reflexivity|].
    destruct (jsstring_eqb_spec k a); [congruence | reflexivity].
Qed.

Lemma ledger_fold_Some (nets : list number) : forall b,
  fold_left (fun acc net =>
               Some (num_add (match acc with
                              | Some b => num_or_zero b
                              | None => num_zero
                              end) net)) nets (Some b)
  = Some (fold_left (fun total net => num_add (num_or_zero total) net) nets b).
Proof.
  induction nets as [|x nets IH]; intros b; [reflexivity|]. simpl. now rewrite IH.
Qed.

Lemma ledger_fold_None (nets : list number) (v : number) :
  fold_left (fun acc net =>
               Some (num_add (match acc with
                              | Some b => num_or_zero b
                              | None => num_zero
                              end) net)) nets None = Some v ->
  v = ledgerTotal nets.
Proof.
  destruct nets as [|x nets]; [discriminate|].
  cbn [fold_left]. rewrite ledger_fold_Some. intros [= <-]. reflexivity.
Qed.

Lemma ledgerTotal_sum (nets : list number) :
  (forall p q, nets = p ++ q -> num_or_zero (sumInOrder p) = sumInOrder p) ->
  ledgerTotal nets = sumInOrder nets.
Proof.
  unfold ledgerTotal, sumInOrder. generalize num_zero as acc.
  induction nets as [|x nets IH]; intros acc H; [reflexivity|].
  cbn [fold_left]. pose proof (H [] _ eq_refl) as E. cbn [fold_left] in E.
  rewrite E. apply IH.
  intros p q ->. exact (H (x :: p) q eq_refl).
Qed.

Lemma names_registerAccount (m : JsMap.t number) :
  map name (map registerAccount m) = map fst m.
Proof. rewrite map_map. apply map_ext. now intros [k b]. Qed.

Lemma register_accounts (rows : list (list jsstring)) (accs : list YNABParsedAccount) :
  parseRegister rows = inr accs ->
  let data := tl rows in
  NoDup (map name accs)
  /\ (forall n, In n (map name accs) <->
                exists row, In row data /\ cell row (accountIdxOf rows) = Some n
                            /\ blankName (Some n) = false)
  /\ (forall acc, In acc accs ->
        balance acc
        = ledgerTotal (map (registerNet (inflowIdxOf rows) (outflowIdxOf rows))
                           (rowsOfAccount (accountIdxOf rows) (name acc) data))
        /\ ynabType acc = None).
Proof.
  unfold parseRegister.
  fold (accountIdxOf rows) (inflowIdxOf rows) (outflowIdxOf rows).
  destruct (length rows <? 2)%nat eqn:Hlen.
  { intros [= <-]. rewrite (short_rows_no_data _ Hlen). simpl.
    split; [constructor|]. split; [|intros ? []].
    intros n. split; [intros [] | intros (? & [] & _)]. }
  destruct ((accountIdxOf rows =? -1)%Z || (inflowIdxOf rows =? -1)%Z
            || (outflowIdxOf rows =? -1)%Z); [discriminate|].
  intros [= <-]. set (data := tl rows).
  set (ai := accountIdxOf rows). set (ii := inflowIdxOf rows).
  set (oi := outflowIdxOf rows).
  rewrite (fold_left_ext_eq _ (map_step (registerUpdate ai ii oi)) data []
             (registerStep_map_step ai ii oi)).
  set (M := fold_left (map_step (registerUpdate ai ii oi)) data []).
  assert (Hnd : NoDup (map fst M)) by (apply fold_NoDup; constructor).
  rewrite names_registerAccount. split; [exact Hnd|]. split.
  - intros n. unfold M. rewrite fold_keys. simpl. split.
    + intros [[]|(row & f & Hin & Hupd)]. exists row. split; [exact Hin|].
      unfold registerUpdate in Hupd.
      destruct (cell row ai) as [a|]; [|discriminate].
      destruct (blankName (Some a)) eqn:Hb; [discriminate|].
      injection Hupd as -> _. auto.
    + intros (row & Hin & Hc & Hb). right. unfold registerUpdate.
      exists row. rewrite Hc, Hb. eauto.
  - intros acc Hacc. apply in_map_iff in Hacc as ([k b] & <- & Hin).
    assert (Hk : blankName (Some k) = false).
    { assert (Hkeys : In k (map fst M))
        by (change k with (fst (k, b)); now apply in_map).
      unfold M in Hkeys. rewrite fold_keys in Hkeys.
      destruct Hkeys as [[]|(row & f & _ & Hupd)].
      unfold registerUpdate in Hupd.
      destruct (cell row ai) as [a|]; [|discriminate].
      destruct (blankName (Some a)) eqn:Hb; [discriminate|].
      now injection Hupd as -> _. }
    apply map_In_get in Hin; [|exact Hnd]. unfold M in Hin.
    rewrite fold_get, (@register_key_fold ai ii oi k data Hk) in Hin.
    simpl in Hin. apply ledger_fold_None in Hin. simpl. auto.
Qed.

Lemma parseRegister_ok (rows : list (list jsstring)) :
  accountIdxOf rows <> (-1)%Z -> inflowIdxOf rows <> (-1)%Z ->
  outflowIdxOf rows <> (-1)%Z ->
  exists accs, parseRegister rows = inr accs.
Proof.
  intros Ha Hi Ho. unfold parseRegister.
  fold (accountIdxOf rows) (inflowIdxOf rows) (outflowIdxOf rows).
  destruct (length rows <? 2)%nat; [now eexists|].
  apply Z.eqb_neq in Ha, Hi, Ho. rewrite Ha, Hi, Ho. now eexists.
Qed.

(** ** Edit distance *)

Lemma levRec_0_r a b i : levRec a b i 0 = i.
Proof. now destruct i. Qed.

Lemma levRec_S_S a b i j :
  levRec a b (S i) (S j)
  = if (nth i b 0 =? nth j a 0)%N then levRec a b i j
    else Nat.min (Nat.min (levRec a b i j + 1) (levRec a b (S i) j + 1))
                 (levRec a b i (S j) + 1).
Proof. reflexivity. Qed.

Lemma levRec_sym a b : forall i j, levRec a b i j = levRec b a j i.
Proof.
  induction i as [|i IHi]; intros j.
  - now rewrite levRec_0_r.
  - induction j as [|j IHj]; [reflexivity|].
    rewrite !levRec_S_S, IHj, !IHi, (N.eqb_sym (nth i b 0%N)).
    destruct (nth j a 0 =? nth i b 0)%N; [reflexivity | lia].
Qed.

Lemma nth_tableau a b filled k :
  (k <= length b)%nat -> nth k (tableau a b filled) [] = rowUpTo a b k (filled k).
Proof.
  intros Hk. unfold tableau.
  rewrite (nth_indep _ [] (rowUpTo a b 0 (filled 0)))
    by (rewrite length_map, length_seq; lia).
  rewrite (map_nth (fun i => rowUpTo a b i (filled i))), seq_nth by lia.
  reflexivity.
Qed.

Lemma mat_get_tableau a b filled i j :
  (i <= length b)%nat -> (j < filled i)%nat ->
  mat_get (tableau a b filled) i j = levRec a b i j.
Proof.
  intros Hi Hj. unfold mat_get. rewrite nth_tableau by exact Hi. unfold rowUpTo.
  rewrite (nth_indep _ 0%nat (levRec a b i 0))
    by (rewrite length_map, length_seq; lia).
  rewrite map_nth, seq_nth by lia. reflexivity.
Qed.

Lemma tableau_ext a b f g :
  (forall k, (k <= length b)%nat -> f k = g k) -> tableau a b f = tableau a b g.
Proof.
  intros E. apply map_ext_in. intros k Hk. apply in_seq in Hk.
  rewrite E by lia. reflexivity.
Qed.

Lemma arr_set_replace (A : Type) (d : A) (f : nat -> A) (n i : nat) (v : A) :
  (i < n)%nat ->
  arr_set d (map f (seq 0 n)) i v
  = map (fun k => if (k =? i)%nat then v else f k) (seq 0 n).
Proof.
  intros Hi. unfold arr_set. rewrite length_map, length_seq.
  destruct (Nat.ltb_spec i n) as [_|]; [|lia].
  apply (nth_ext _ _ d d).
  - rewrite length_app. cbn [length].
    rewrite length_firstn, length_skipn, !length_map, !length_seq. lia.
  - intros k Hk.
    assert (Hkn : (k < n)%nat).
    { rewrite length_app in Hk. cbn [length] in Hk.
      rewrite length_firstn, length_skipn, !length_map, !length_seq in Hk. lia. }
    rewrite (nth_indep (map (fun k0 => if (k0 =? i)%nat then v else f k0) (seq 0 n)) d
                       ((fun k0 => if (k0 =? i)%nat then v else f k0) 0%nat))
      by (rewrite length_map, length_seq; lia).
    rewrite (map_nth (fun k0 => if (k0 =? i)%nat then v else f k0)), seq_nth by lia.
    cbn [Nat.add].
    assert (Hlen : length (firstn i (map f (seq 0 n))) = i)
      by (rewrite length_firstn, length_map, length_seq; lia).
    destruct (Nat.eqb_spec k i) as [->|Hne].
    + rewrite <- Hlen at 1. apply nth_middle.
    + destruct (Nat.lt_ge_cases k i) as [Hlt|Hge].
      * rewrite app_nth1 by lia. rewrite nth_firstn.
        destruct (Nat.ltb_spec k i); [|lia].
        rewrite (nth_indep _ d (f 0%nat)) by (rewrite length_map, length_seq; lia).
        now rewrite map_nth, seq_nth by lia.
      * rewrite app_nth2 by lia. rewrite Hlen.
        destruct (k - i)%nat as [|e] eqn:Hki; [lia|]. cbn [nth].
        rewrite nth_skipn. replace (S i + e)%nat with k by lia.
        rewrite (nth_indep _ d (f 0%nat)) by (rewrite length_map, length_seq; lia).
        now rewrite map_nth, seq_nth by lia.
Qed.

Lemma arr_set_append (A : Type) (d : A) (l : list A) (v : A) :
  arr_set d l (length l) v = l ++ [v].
Proof.
  unfold arr_set. destruct (Nat.ltb_spec (length l) (length l)); [lia|].
  now rewrite Nat.sub_diag.
Qed.

(** Writing the next cell of row [i] with the value of the recurrence. *)
Lemma mat_set_next a b filled i :
  (i <= length b)%nat ->
  mat_set (tableau a b filled) i (filled i) (levRec a b i (filled i))
  = tableau a b (bump filled i).
Proof.
  intros Hi. unfold mat_set. rewrite nth_tableau by exact Hi.
  replace (arr_set 0%nat (rowUpTo a b i (filled i)) (filled i) (levRec a b i (filled i)))
    with (rowUpTo a b i (S (filled i))).
  - unfold tableau. rewrite arr_set_replace by lia.
    apply map_ext. intros k. unfold bump.
    destruct (Nat.eqb_spec k i) as [->|]; reflexivity.
  - assert (L : length (rowUpTo a b i (filled i)) = filled i)
      by (unfold rowUpTo; now rewrite length_map, length_seq).
    rewrite <- L at 3. rewrite arr_set_append.
    unfold rowUpTo. now rewrite seq_S, map_app.
Qed.

(** Rewriting a cell already filled with the same value changes nothing. *)
Lemma mat_set_same a b filled i j :
  (i <= length b)%nat -> (j < filled i)%nat ->
  mat_set (tableau a b filled) i j (levRec a b i j) = tableau a b filled.
Proof.
  intros Hi Hj. unfold mat_set. rewrite nth_tableau by exact Hi.
  unfold rowUpTo at 1. rewrite arr_set_replace by exact Hj.
  replace (map (fun k => if (k =? j)%nat then levRec a b i j else levRec a b i k)
               (seq 0 (filled i)))
    with (rowUpTo a b i (filled i)).
  - unfold tableau. rewrite arr_set_replace by lia.
    apply map_ext. intros k. destruct (Nat.eqb_spec k i) as [->|]; reflexivity.
  - apply map_ext. intros k. destruct (Nat.eqb_spec k j) as [->|]; reflexivity.
Qed.

Lemma fold_arr_set_rows (A : Type) (d : A) (g : nat -> A) (n : nat) :
  fold_left (fun m i => arr_set d m i (g i)) (seq 0 n) [] = map g (seq 0 n).
Proof.
  induction n as [|n IH]; [reflexivity|].
  rewrite seq_S, fold_left_app, IH, map_app. cbn [fold_left map Nat.add].
  replace n with (length (map g (seq 0 n))) at 2 by (now rewrite length_map, length_seq).
  apply arr_set_append.
Qed.

Lemma first_row_loop a b (k : nat) :
  fold_left (fun m j => mat_set m 0 j j) (seq 1 k) (tableau a b (fun _ => 1%nat))
  = tableau a b (fun i => if (i =? 0)%nat then S k else 1%nat).
Proof.
  induction k as [|k IH].
  - apply tableau_ext. intros i _. now destruct i.
  - rewrite seq_S, fold_left_app, IH. cbn [fold_left Nat.add].
    set (f := fun i => if (i =? 0)%nat then S k else 1%nat).
    change (S k) with (f 0%nat) at 1 2.
    replace (f 0%nat) with (levRec a b 0 (f 0%nat)) at 2 by reflexivity.
    rewrite mat_set_next by lia.
    apply tableau_ext. intros i _. unfold bump, f. now destruct i.
Qed.

Lemma inner_loop a b (i : nat) :
  (1 <= i <= length b)%nat ->
  forall k, (k <= length a)%nat ->
    fold_left (levCell a b i) (seq 1 k) (tableau a b (filledAt a i 1))
    = tableau a b (filledAt a i (S k)).
Proof.
  intros Hi. induction k as [|k IH]; intros Hk; [reflexivity|].
  rewrite seq_S, fold_left_app, IH by lia. cbn [fold_left Nat.add].
  destruct i as [|i']; [lia|].
  set (f := filledAt a (S i') (S k)).
  assert (Ffull : f i' = S (length a)).
  { unfold f, filledAt. destruct (Nat.ltb_spec i' (S i')); [reflexivity | lia]. }
  assert (Fcur : f (S i') = S k).
  { unfold f, filledAt. destruct (Nat.ltb_spec (S i') (S i')); [lia|].
    now rewrite Nat.eqb_refl. }
  unfold levCell. replace (S i' - 1)%nat with i' by lia.
  replace (S k - 1)%nat with k by lia.
  rewrite !mat_get_tableau by lia.
  assert (Hnext : mat_set (tableau a b f) (S i') (S k) (levRec a b (S i') (S k))
                  = tableau a b (filledAt a (S i') (S (S k)))).
  { rewrite <- Fcur. rewrite mat_set_next by lia.
    apply tableau_ext. intros j _. unfold bump, f, filledAt.
    destruct (Nat.eqb_spec j (S i')) as [->|]; [|reflexivity].
    destruct (Nat.ltb_spec (S i') (S i')); [lia|]. now rewrite Nat.eqb_refl. }
  rewrite levRec_S_S in Hnext.
  destruct (nth i' b 0 =? nth k a 0)%N; exact Hnext.
Qed.

Lemma outer_loop a b (n : nat) :
  (n <= length b)%nat ->
  fold_left (fun m i => fold_left (levCell a b i) (seq 1 (length a)) m) (seq 1 n)
            (tableau a b (filledAt a 0 (S (length a))))
  = tableau a b (filledAt a n (S (length a))).
Proof.
  induction n as [|n IH]; intros Hn; [reflexivity|].
  rewrite seq_S, fold_left_app, IH by lia. cbn [fold_left Nat.add].
  rewrite (tableau_ext a b (filledAt a n (S (length a))) (filledAt a (S n) 1)).
  - apply inner_loop; lia.
  - intros k _. unfold filledAt.
    destruct (Nat.ltb_spec k n), (Nat.ltb_spec k (S n)), (Nat.eqb_spec k n),
             (Nat.eqb_spec k (S n)); try reflexivity; lia.
Qed.

Lemma levMatrix_tableau a b :
  levMatrix a b = tableau a b (filledAt a (length b) (S (length a))).
Proof.
  unfold levMatrix.
  rewrite (fold_arr_set_rows [] (fun i => [i])).
  replace (map (fun i => [i]) (seq 0 (S (length b))))
    with (tableau a b (fun _ => 1%nat))
    by (apply map_ext; intros i; unfold rowUpTo; simpl; now rewrite levRec_0_r).
  change (seq 0 (S (length a))) with (0%nat :: seq 1 (length a)). cbn [fold_left].
  change (mat_set (tableau a b (fun _ => 1%nat)) 0 0 0)
    with (mat_set (tableau a b (fun _ => 1%nat)) 0 0 (levRec a b 0 0)).
  rewrite mat_set_same, first_row_loop by lia.
  rewrite (tableau_ext a b _ (filledAt a 0 (S (length a)))).
  - now apply outer_loop.
  - intros k _. unfold filledAt. now destruct k.
Qed.

(** The table computes the recurrence. *)
Lemma levMatrix_distance a b :
  mat_get (levMatrix a b) (length b) (length a) = levRec a b (length b) (length a).
Proof.
  rewrite levMatrix_tableau. apply mat_get_tableau; [lia|].
  unfold filledAt. destruct (Nat.ltb_spec (length b) (length b)); [lia|].
  rewrite Nat.eqb_refl. lia.
Qed.

Lemma jsstring_eqb_sym (a b : jsstring) : jsstring_eqb a b = jsstring_eqb b a.
Proof.
  destruct (jsstring_eqb_spec a b), (jsstring_eqb_spec b a); congruence.
Qed.

Lemma stringSimilarity_sym (a b : jsstring) :
  stringSimilarity a b = stringSimilarity b a.
Proof.
  unfold stringSimilarity.
  set (aLower := trim (toLowerCase a)). set (bLower := trim (toLowerCase b)).
  rewrite (jsstring_eqb_sym bLower aLower).
  rewrite (orb_comm (length bLower =? 0)%nat).
  rewrite (orb_comm (includes bLower aLower)).
  rewrite (Nat.min_comm (length bLower)), (Nat.max_comm (length bLower)).
  now rewrite !levMatrix_distance, levRec_sym.
Qed.

(** ** Value normaliser *)

Lemma trimStart_head (s : jsstring) (c : N) (r : jsstring) :
  trimStart s = c :: r -> is_space c = false.
Proof.
  induction s as [|x s IH]; simpl; [discriminate|].
  destruct (is_space x) eqn:E; [exact IH | now intros [= <- _]].
Qed.

Lemma trimStart_nil (s : jsstring) :
  trimStart s = [] -> forallb is_space s = true.
Proof.
  induction s as [|x s IH]; simpl; [reflexivity|].
  destruct (is_space x); [exact IH | discriminate].
Qed.

Lemma trim_nil (s : jsstring) : trim s = [] -> forallb is_space s = true.
Proof.
  unfold trim, trimEnd. intros H.
  assert (H' : trimStart (rev (trimStart s)) = []).
  { rewrite <- (rev_involutive (trimStart _)). now rewrite H. }
  apply trimStart_nil in H'.
  destruct (trimStart s) as [|c r] eqn:E; [now apply trimStart_nil|].
  apply trimStart_head in E. rewrite forallb_forall in H'.
  rewrite (H' c) in E; [discriminate|]. rewrite <- in_rev. now left.
Qed.

Lemma includes_char_In (c : N) (s : jsstring) :
  includes_char c s = true <-> In c s.
Proof.
  unfold includes_char. rewrite existsb_exists. split.
  - intros (x & Hin & E). apply N.eqb_eq in E. now subst.
  - intros Hin. exists c. split; [exact Hin | apply N.eqb_refl].
Qed.

(** A value that still shows a comma after cleaning is not blank. *)
Lemma comma_not_blank (v : jsstring) :
  includes_char COMMA (clean v) = true -> is_empty v || is_empty (trim v) = false.
Proof.
  rewrite includes_char_In. unfold clean. rewrite filter_In. intros [Hin _].
  destruct v as [|x v]; [destruct Hin|]. simpl.
  destruct (trim (x :: v)) eqn:E; [|reflexivity].
  apply trim_nil in E. rewrite forallb_forall in E. now apply E in Hin.
Qed.

Lemma split_no_sep (c : N) (s : jsstring) :
  includes_char c s = false -> split c s = [s].
Proof.
  induction s as [|x s IH]; [reflexivity|]. simpl.
  rewrite (N.eqb_sym c x). destruct (x =? c)%N; [discriminate|].
  intros H. now rewrite IH.
Qed.

(** The last part of [split] is the text after the last separator. *)
Lemma last_split (c : N) (pre post : jsstring) :
  includes_char c post = false -> last (split c (pre ++ c :: post)) [] = post.
Proof.
  intros Hpost.
  enough (H : exists f fs, split c (pre ++ c :: post) = (f :: fs) ++ [post]).
  { destruct H as (f & fs & ->). apply last_last. }
  induction pre as [|x pre (f & fs & IH)]; simpl.
  - rewrite N.eqb_refl, split_no_sep by exact Hpost. now exists [], [].
  - rewrite IH. destruct (x =? c)%N.
    + now exists [], (f :: fs).
    + now exists (x :: f), fs.
Qed.

Lemma replace_first_single (c d : N) (pre post : jsstring) :
  includes_char c pre = false ->
  replace_first c d (pre ++ c :: post) = pre ++ d :: post.
Proof.
  induction pre as [|x pre IH]; simpl.
  - now rewrite N.eqb_refl.
  - rewrite (N.eqb_sym c x). destruct (x =? c)%N; [discriminate|].
    intros H. now rewrite IH.
Qed.

Lemma remove_all_single (c : N) (pre post : jsstring) :
  includes_char c pre = false -> includes_char c post = false ->
  remove_all c (pre ++ c :: post) = pre ++ post.
Proof.
  intros Hpre Hpost. unfold remove_all. rewrite filter_app. simpl.
  rewrite N.eqb_refl. simpl. f_equal.
  - apply forallb_filter_id. apply forallb_forall. intros x Hx.
    destruct (N.eqb_spec x c) as [->|]; [|reflexivity].
    apply includes_char_In in Hx. congruence.
  - apply forallb_filter_id. apply forallb_forall. intros x Hx.
    destruct (N.eqb_spec x c) as [->|]; [|reflexivity].
    apply includes_char_In in Hx. congruence.
Qed.

Lemma parseCurrencyValue_commas (v pre post : jsstring) :
  clean v = pre ++ COMMA :: post ->
  includes_char COMMA post = false ->
  includes_char DOT (clean v) = false ->
  parseCurrencyValue (Some v)
  = orZeroIfNaN (parseFloat (if (length post =? 2)%nat
                             then replace_first COMMA DOT (clean v)
                             else remove_all COMMA (clean v))).
Proof.
  intros Hv Hpost Hdot.
  assert (Hc : includes_char COMMA (clean v) = true).
  { apply includes_char_In. rewrite Hv. apply in_elt. }
  unfold parseCurrencyValue. rewrite (comma_not_blank _ Hc).
  unfold normalizeSeparators. rewrite Hc, Hdot. cbn [andb negb].
  assert (E : last (split COMMA (clean v)) [] = post)
    by (rewrite Hv; now apply last_split).
  cbv zeta. rewrite E. reflexivity.
Qed.

(** *** Rounding a decimal numeral never gives NaN *)

Lemma shr_1_nonneg (mrs : shr_record) : (0 <= shr_m mrs)%Z -> (0 <= shr_m (shr_1 mrs))%Z.
Proof.
  destruct mrs as [m r t]. simpl.
  destruct m as [|p|p]; [| |lia]; intros _; [simpl; lia|].
  destruct p; simpl; lia.
Qed.

Lemma iter_pos_invariant (A : Type) (P : A -> Prop) (f : A -> A) :
  (forall x, P x -> P (f x)) -> forall n x, P x -> P (iter_pos f n x).
Proof.
  intros Hf. induction n as [n IH|n IH|]; intros x Hx; simpl; auto.
Qed.

Lemma shr_fexp_nonneg (m e : Z) (l : location) :
  (0 <= m)%Z -> (0 <= shr_m (fst (shr_fexp prec emax m e l)))%Z.
Proof.
  intros Hm. unfold shr_fexp, shr.
  assert (H0 : (0 <= shr_m (shr_record_of_loc m l))%Z)
    by (destruct l as [|[ | | ]]; exact Hm).
  destruct (fexp prec emax (Zdigits2 m + e) - e)%Z as [|n|n]; try exact H0.
  cbn [fst]. apply (iter_pos_invariant (fun mrs => (0 <= shr_m mrs)%Z)); [|exact H0].
  exact shr_1_nonneg.
Qed.

Lemma binary_round_aux_not_nan (sx : bool) (mx ex : Z) (lx : location) :
  (0 <= mx)%Z -> isNaN (binary_round_aux prec emax sx mx ex lx) = false.
Proof.
  intros Hm. unfold binary_round_aux.
  pose proof (shr_fexp_nonneg ex lx Hm) as H1.
  destruct (shr_fexp prec emax mx ex lx) as [mrs' e']. cbn [fst] in H1.
  assert (H2 : (0 <= round_nearest_even (shr_m mrs') (loc_of_shr_record mrs'))%Z).
  { unfold round_nearest_even.
    destruct (loc_of_shr_record mrs') as [|[ | | ]]; try exact H1; try lia.
    destruct (Z.even (shr_m mrs')); lia. }
  pose proof (shr_fexp_nonneg e' loc_Exact H2) as H3.
  destruct (shr_fexp prec emax _ e' loc_Exact) as [mrs'' e'']. cbn [fst] in H3.
  destruct (shr_m mrs'') as [|p|p]; [reflexivity | | lia].
  now destruct (e'' <=? emax - prec)%Z.
Qed.

Lemma binary_round_not_nan (sx : bool) (mx : positive) (ex : Z) :
  isNaN (binary_round prec emax sx mx ex) = false.
Proof.
  unfold binary_round. destruct (shl_align mx ex _) as [mz ez].
  apply binary_round_aux_not_nan. lia.
Qed.

Lemma round_decimal_not_nan (neg : bool) (m e : Z) : isNaN (round_decimal neg m e) = false.
Proof.
  unfold round_decimal. destruct m as [|p|p]; try reflexivity.
  destruct (0 <=? e)%Z.
  - unfold binary_normalize.
    destruct (cond_Zopp neg (Z.pos p * 10 ^ e)); [reflexivity | |];
      apply binary_round_not_nan.
  - destruct (SFdiv_core_binary prec emax (Z.pos p) 0 (10 ^ (- e)) 0) as [[q e'] l] eqn:E.
    apply binary_round_aux_not_nan.
    unfold SFdiv_core_binary in E.
    set (m' := match (0 - 0 - _)%Z with Z.pos _ => _ | 0%Z => Z.pos p | Z.neg _ => 0%Z end) in E.
    assert (Hm' : (0 <= m')%Z).
    { subst m'. destruct (0 - 0 - _)%Z; try lia. apply Z.shiftl_nonneg. lia. }
    destruct (Z.div_eucl m' (10 ^ (- e))) as [q0 r0] eqn:D. injection E as <- _ _.
    destruct (Z.eq_dec (10 ^ (- e)) 0) as [Z0|NZ].
    + rewrite Z0 in D. destruct m'; simpl in D; injection D as <- _; lia.
    + assert (Hpos : (0 < 10 ^ (- e))%Z).
      { pose proof (Z.pow_nonneg 10 (- e)). lia. }
      pose proof (Z_div_mod m' (10 ^ (- e)) ltac:(lia)) as DM. rewrite D in DM.
      destruct DM as [Eq Hr]. nia.
Qed.

Lemma orZeroIfNaN_round_decimal (neg : bool) (m e : Z) :
  orZeroIfNaN (round_decimal neg m e) = round_decimal neg m e.
Proof. unfold orZeroIfNaN. now rewrite round_decimal_not_nan. Qed.

(** *** Well-formed amounts: digits around one comma *)

Lemma digit_kept (c : N) : is_digit c = true -> negb (is_currency_or_space c) = true.
Proof.
  unfold is_digit, is_currency_or_space, is_space. intros H.
  apply andb_true_iff in H as [H1 H2]. apply N.leb_le in H1, H2.
  repeat match goal with
         | |- context [(?a =? ?b)%N] => destruct (N.eqb_spec a b); [lia|]
         | |- context [(?a <=? ?b)%N] => destruct (N.leb_spec a b); try lia
         end; reflexivity.
Qed.

Lemma digit_not (c x : N) : is_digit c = true -> is_digit x = false -> (c =? x)%N = false.
Proof. intros Hc Hx. destruct (N.eqb_spec c x); [congruence | reflexivity]. Qed.

Lemma clean_digits_comma (ds post : jsstring) :
  forallb is_digit (ds ++ post) = true ->
  clean (ds ++ COMMA :: post) = ds ++ COMMA :: post.
Proof.
  intros H. unfold clean. apply forallb_filter_id.
  rewrite forallb_app in *. apply andb_true_iff in H as [H1 H2].
  cbn [forallb]. rewrite !andb_true_iff. split; [|split; [reflexivity|]].
  - rewrite forallb_forall in *. intros x Hx. now apply digit_kept, H1.
  - rewrite forallb_forall in *. intros x Hx. now apply digit_kept, H2.
Qed.

Lemma digits_no_char (c : N) (ds : jsstring) :
  is_digit c = false -> forallb is_digit ds = true -> includes_char c ds = false.
Proof.
  intros Hc Hds. destruct (includes_char c ds) eqn:E; [|reflexivity].
  apply includes_char_In in E. rewrite forallb_forall in Hds.
  apply Hds in E. congruence.
Qed.

Lemma span_digits_app (ds r : jsstring) :
  forallb is_digit ds = true ->
  match r with c :: _ => is_digit c = false | [] => True end ->
  span_digits (ds ++ r) = (ds, r).
Proof.
  intros Hds Hr. induction ds as [|d ds IH]; simpl.
  - destruct r as [|c r]; [reflexivity | simpl; now rewrite Hr].
  - simpl in Hds. apply andb_true_iff in Hds as [Hd Hds].
    now rewrite Hd, (IH Hds).
Qed.

(** The start of [parseFloat] on a text whose first character is a digit. *)
Lemma parseFloat_starts_with_digit (d : N) (rest : jsstring) :
  is_digit d = true ->
  trimStart (d :: rest) = d :: rest
  /\ take_sign (d :: rest) = (false, d :: rest)
  /\ starts_with (str "Infinity") (d :: rest) = false.
Proof.
  intros Hd. split; [|split].
  - pose proof (digit_kept d Hd) as K. unfold is_currency_or_space in K.
    apply negb_true_iff, orb_false_iff in K. simpl. now rewrite (proj2 K).
  - unfold take_sign.
    destruct (N.eqb_spec d 45); [subst; discriminate Hd|].
    destruct (N.eqb_spec d 43); [subst; discriminate Hd | reflexivity].
  - change (str "Infinity") with (73%N :: str "nfinity"). cbn [starts_with].
    destruct (N.eqb_spec 73 d); [subst; discriminate Hd | reflexivity].
Qed.

(** [parseFloat] on digits, a point, and digits. *)
Lemma parseFloat_decimal (ip fp : jsstring) :
  ip <> [] -> forallb is_digit ip = true -> forallb is_digit fp = true ->
  parseFloat (ip ++ DOT :: fp)
  = round_decimal false (digits_value (ip ++ fp)) (- Z.of_nat (length fp)).
Proof.
  intros Hne Hip Hfp. unfold parseFloat.
  destruct ip as [|d ip]; [congruence|]. cbn [app].
  pose proof Hip as Hd. cbn [forallb] in Hd. apply andb_true_iff in Hd as [Hd _].
  destruct (@parseFloat_starts_with_digit d (ip ++ DOT :: fp) Hd) as (E1 & E2 & E3).
  rewrite E1, E2, E3.
  change (d :: ip ++ DOT :: fp) with ((d :: ip) ++ DOT :: fp).
  rewrite (span_digits_app (d :: ip) (DOT :: fp) Hip) by reflexivity.
  rewrite N.eqb_refl.
  assert (Efp : span_digits fp = (fp, [])).
  { rewrite <- (app_nil_r fp) at 1. exact (span_digits_app fp [] Hfp I). }
  rewrite Efp. cbn [is_empty andb exponent_part]. now rewrite Z.sub_0_l.
Qed.

(** [parseFloat] on digits alone. *)
Lemma parseFloat_integer (ip : jsstring) :
  ip <> [] -> forallb is_digit ip = true ->
  parseFloat ip = round_decimal false (digits_value ip) 0.
Proof.
  intros Hne Hip. unfold parseFloat.
  destruct ip as [|d ip]; [congruence|].
  pose proof Hip as Hd. cbn [forallb] in Hd. apply andb_true_iff in Hd as [Hd _].
  destruct (@parseFloat_starts_with_digit d ip Hd) as (E1 & E2 & E3).
  rewrite E1, E2, E3.
  assert (Eip : span_digits (d :: ip) = (d :: ip, [])).
  { rewrite <- (app_nil_r (d :: ip)) at 1. exact (span_digits_app (d :: ip) [] Hip I). }
  rewrite Eip. cbn [is_empty andb exponent_part length]. now rewrite app_nil_r.
Qed.

Lemma parseCurrencyValue_digits_comma (ds post : jsstring) :
  ds <> [] -> forallb is_digit (ds ++ post) = true ->
  parseCurrencyValue (Some (ds ++ COMMA :: post))
  = if (length post =? 2)%nat
    then round_decimal false (digits_value (ds ++ post)) (-2)
    else round_decimal false (digits_value (ds ++ post)) 0.
Proof.
  intros Hne Hd. pose proof Hd as Hd'. rewrite forallb_app in Hd'.
  apply andb_true_iff in Hd' as [Hds Hpost].
  etransitivity; [apply (parseCurrencyValue_commas (ds ++ COMMA :: post) ds post)|].
  - now apply clean_digits_comma.
  - apply digits_no_char; [reflexivity | exact Hpost].
  - rewrite clean_digits_comma by exact Hd.
    unfold includes_char. rewrite existsb_app. cbn [existsb].
    change (existsb (N.eqb DOT) ds) with (includes_char DOT ds).
    change (existsb (N.eqb DOT) post) with (includes_char DOT post).
    now rewrite !digits_no_char.
  - rewrite clean_digits_comma by exact Hd.
    rewrite replace_first_single, remove_all_single
      by (apply digits_no_char; [reflexivity | assumption]).
    destruct (Nat.eqb_spec (length post) 2) as [E|_].
    + rewrite parseFloat_decimal by assumption.
      now rewrite E, orZeroIfNaN_round_decimal.
    + rewrite parseFloat_integer; [apply orZeroIfNaN_round_decimal | | exact Hd].
      destruct ds; [congruence | discriminate].
Qed.

(** A text that starts with neither white space, a digit, a sign, a point
    nor the letter I is no number. *)
Lemma parseFloat_not_numeric (c : N) (rest : jsstring) :
  is_space c = false -> is_digit c = false ->
  c <> 43%N -> c <> 45%N -> c <> DOT -> c <> 73%N ->
  parseFloat (c :: rest) = S754_nan.
Proof.
  intros Hsp Hd Hplus Hminus Hdot HI. unfold parseFloat.
  cbn [trimStart]. rewrite Hsp. unfold take_sign.
  apply N.eqb_neq in Hplus, Hminus, Hdot. rewrite Hplus, Hminus.
  change (str "Infinity") with (73%N :: str "nfinity"). cbn [starts_with].
  destruct (N.eqb_spec 73 c) as [E|_]; [congruence|]. cbn [andb].
  cbn [span_digits]. rewrite Hd, Hdot. reflexivity.
Qed.

(** 1.23 as a number: the double next to 123/100, half an ulp at most
    away from it. *)
Example literal_1_23 :
  round_decimal false 123 (-2) = S754_finite false 5539427541665710 (-52)
  /\ (2 * Z.abs (5539427541665710 * 100 - 123 * 2 ^ 52) <= 100)%Z.
Proof. split; [reflexivity | vm_compute; discriminate]. Qed.

(** ** Fields of the tokenizer are trimmed *)

Lemma cleanHead_trimStart (s : jsstring) : cleanHead (trimStart s).
Proof.
  destruct (trimStart s) as [|c r] eqn:E; [exact I|].
  exact (trimStart_head _ E).
Qed.

Lemma trimStart_id (s : jsstring) : cleanHead s -> trimStart s = s.
Proof. destruct s as [|c s]; simpl; [reflexivity | now intros ->]. Qed.

Lemma trimStart_decomp (s : jsstring) :
  exists ws, s = ws ++ trimStart s /\ forallb is_space ws = true.
Proof.
  induction s as [|c s (ws & E & Hws)]; [now exists []|]. simpl.
  destruct (is_space c) eqn:Hc.
  - exists (c :: ws). simpl. rewrite Hc, Hws. split; [now f_equal | reflexivity].
  - now exists [].
Qed.

Lemma cleanHead_app (s t : jsstring) : s <> [] -> cleanHead (s ++ t) -> cleanHead s.
Proof. destruct s; [congruence | trivial]. Qed.

Lemma cleanHead_app_l (s t : jsstring) : s <> [] -> cleanHead s -> cleanHead (s ++ t).
Proof. destruct s; [congruence | trivial]. Qed.

Lemma trim_idempotent (s : jsstring) : trim (trim s) = trim s.
Proof.
  unfold trim, trimEnd.
  set (u := trimStart s). set (w := trimStart (rev u)).
  assert (Hu : cleanHead u) by apply cleanHead_trimStart.
  assert (Hw : cleanHead w) by apply cleanHead_trimStart.
  assert (Hrw : cleanHead (rev w)).
  { destruct (trimStart_decomp (rev u)) as (ws & E & _). fold w in E.
    apply (f_equal (@rev N)) in E. rewrite rev_involutive, rev_app_distr in E.
    destruct w as [|c w'] eqn:Ew; [exact I|].
    rewrite E in Hu. apply cleanHead_app in Hu; [exact Hu|].
    simpl. now destruct (rev w'). }
  rewrite (trimStart_id _ Hrw), rev_involutive. now rewrite (trimStart_id _ Hw).
Qed.

Lemma pushLine_trimmed ls line field :
  trimmedRows ls -> Forall (fun f => trim f = f) line ->
  trimmedRows (CSV.pushLine ls line field).
Proof.
  intros Hls Hline. unfold CSV.pushLine.
  destruct (existsb _ _); [|exact Hls].
  apply Forall_app. split; [exact Hls|]. constructor; [|constructor].
  apply Forall_app. split; [exact Hline|].
  constructor; [apply trim_idempotent | constructor].
Qed.

Lemma step_trimmed st c nx : trimmedState st -> trimmedState (fst (CSV.step st c nx)).
Proof.
  destruct st as [ls line field q]. intros [Hls Hline]. simpl in Hls, Hline.
  unfold CSV.step. destruct q.
  - destruct ((c =? QUOTE)%N && _); [now split|].
    destruct (c =? QUOTE)%N; now split.
  - destruct (c =? QUOTE)%N; [now split|].
    destruct ((c =? COMMA)%N || (c =? SEMICOLON)%N).
    + split; [exact Hls|]. simpl. apply Forall_app. split; [exact Hline|].
      constructor; [apply trim_idempotent | constructor].
    + destruct ((c =? LF)%N || _).
      * split; simpl; [now apply pushLine_trimmed | constructor].
      * destruct (negb (c =? CR)%N); now split.
Qed.

Lemma loop_trimmed text : forall st, trimmedState st -> trimmedState (CSV.loop st text).
Proof.
  induction text as [text IH] using length_induction. intros st Hst.
  destruct text as [|c rest]; [exact Hst|]. cbn [CSV.loop].
  pose proof (step_trimmed c (hd_error rest) Hst) as Hstep.
  destruct (CSV.step st c (hd_error rest)) as [st' skip]. cbn [fst] in Hstep.
  destruct skip.
  - destruct rest as [|c2 rest']; [exact Hstep|]. apply IH; [simpl; lia | exact Hstep].
  - apply IH; [simpl; lia | exact Hstep].
Qed.

Lemma parseCSV_trimmed (text : jsstring) : trimmedRows (parseCSV text).
Proof.
  unfold parseCSV, CSV.finish.
  destruct (loop_trimmed text (st := CSV.init)) as [H1 H2].
  - split; constructor.
  - now apply pushLine_trimmed.
Qed.

Lemma parseCSV_cell_trimmed (text : jsstring) (row : list jsstring) (idx : Z)
    (f : jsstring) :
  In row (parseCSV text) -> cell row idx = Some f -> trim f = f.
Proof.
  intros Hrow Hcell. pose proof (parseCSV_trimmed text) as H.
  unfold trimmedRows in H. rewrite Forall_forall in H. specialize (H _ Hrow).
  rewrite Forall_forall in H. apply H. unfold cell in Hcell.
  destruct (idx <? 0)%Z; [discriminate|]. now apply nth_error_In in Hcell.
Qed.

(** Rows of the tokenizer hold at least one non-empty field. *)
Lemma parseCSV_rows_nonempty (text : jsstring) (row : list jsstring) :
  In row (parseCSV text) -> existsb (fun f => negb (is_empty f)) row = true.
Proof.
  enough (G : forall t st,
             Forall (fun r => existsb (fun f => negb (is_empty f)) r = true) (CSV.lines st) ->
             Forall (fun r => existsb (fun f => negb (is_empty f)) r = true)
                    (CSV.finish (CSV.loop st t))).
  { intros Hin. specialize (G text CSV.init (Forall_nil _)).
    rewrite Forall_forall in G. now apply G. }
  assert (P : forall ls line field,
             Forall (fun r => existsb (fun f => negb (is_empty f)) r = true) ls ->
             Forall (fun r => existsb (fun f => negb (is_empty f)) r = true)
                    (CSV.pushLine ls line field)).
  { intros ls line field Hls. unfold CSV.pushLine.
    destruct (existsb _ (line ++ _)) eqn:E; [|exact Hls].
    apply Forall_app. split; [exact Hls | now constructor]. }
  induction t as [t IH] using length_induction. intros st Hst.
  destruct t as [|c rest]; [now apply P|]. cbn [CSV.loop].
  assert (Hstep : Forall (fun r => existsb (fun f => negb (is_empty f)) r = true)
                         (CSV.lines (fst (CSV.step st c (hd_error rest))))).
  { destruct st as [ls line field q]. simpl in Hst. unfold CSV.step. destruct q.
    - destruct ((c =? QUOTE)%N && _); [exact Hst|]. now destruct (c =? QUOTE)%N.
    - destruct (c =? QUOTE)%N; [exact Hst|].
      destruct ((c =? COMMA)%N || (c =? SEMICOLON)%N); [exact Hst|].
      destruct ((c =? LF)%N || _); [now apply P|].
      now destruct (negb (c =? CR)%N). }
  destruct (CSV.step st c (hd_error rest)) as [st' skip]. cbn [fst] in Hstep.
  destruct skip.
  - destruct rest as [|c2 rest']; [now apply P|]. apply IH; [simpl; lia | exact Hstep].
  - apply IH; [simpl; lia | exact Hstep].
Qed.

(** ** Column lookup *)

Lemma findIndex_spec (A : Type) (p : A -> bool) (xs : list A) :
  (-1 <= findIndex p xs)%Z
  /\ (findIndex p xs = (-1)%Z <-> existsb p xs = false).
Proof.
  induction xs as [|x xs [IH1 IH2]]; simpl; [split; [lia | tauto]|].
  destruct (p x); simpl; [split; [lia | split; [lia | discriminate]]|].
  destruct (Z.ltb_spec (findIndex p xs) 0).
  - split; [lia|]. rewrite <- IH2. split; [lia | reflexivity].
  - split; [lia|]. rewrite <- IH2. split; lia.
Qed.

Lemma indexOf_present (s : jsstring) (xs : list jsstring) :
  existsb (jsstring_eqb s) xs = true -> indexOf s xs <> (-1)%Z.
Proof.
  intros H E. apply (findIndex_spec (jsstring_eqb s) xs) in E. congruence.
Qed.

Lemma cell_short (A : Type) (row : list A) (idx : Z) :
  (Z.of_nat (length row) <= idx)%Z -> cell row idx = None.
Proof.
  intros H. unfold cell. destruct (Z.ltb_spec idx 0); [reflexivity|].
  apply nth_error_None. lia.
Qed.

(** ** Main entry point *)

Lemma aggregate_cases (fmt : Format) (rows : list (list jsstring)) :
  aggregate fmt rows
  = if (2 <=? length rows)%nat && missingColumns fmt rows
    then inl (missingColumnsError fmt)
    else inr (match aggregate fmt rows with inr accs => accs | inl _ => [] end).
Proof.
  assert (L : (2 <=? length rows)%nat = negb (length rows <? 2)%nat).
  { destruct (Nat.leb_spec 2 (length rows)), (Nat.ltb_spec (length rows) 2);
      simpl; try reflexivity; lia. }
  rewrite L. destruct fmt; unfold aggregate, missingColumns.
  - unfold parseRegister.
    fold (accountIdxOf rows) (inflowIdxOf rows) (outflowIdxOf rows).
    destruct (length rows <? 2)%nat; [reflexivity|]. simpl.
    now destruct ((accountIdxOf rows =? -1)%Z || (inflowIdxOf rows =? -1)%Z
                  || (outflowIdxOf rows =? -1)%Z).
  - unfold parseNetWorthReport.
    fold (accountIdxOf rows) (typeIdxOf rows) (balanceIdxOf rows) (monthIdxOf rows).
    destruct (length rows <? 2)%nat; [reflexivity|]. simpl.
    now destruct ((accountIdxOf rows =? -1)%Z || (balanceIdxOf rows =? -1)%Z).
Qed.

(** The register format is only detected on a header that has the three
    columns [parseRegister] looks up. *)
Lemma register_columns_present (rows : list (list jsstring)) :
  detectYNABFormat (hd [] rows) = Some register -> missingColumns register rows = false.
Proof.
  unfold detectYNABFormat. fold (normalizedHeaders rows).
  destruct (existsb (jsstring_eqb (str "month")) _ && _); [discriminate|].
  destruct (existsb (jsstring_eqb (str "inflow")) (normalizedHeaders rows)) eqn:Hi;
    [|discriminate].
  destruct (existsb (jsstring_eqb (str "outflow")) (normalizedHeaders rows)) eqn:Ho;
    [|discriminate].
  destruct (existsb (jsstring_eqb (str "account")) (normalizedHeaders rows)) eqn:Ha;
    [|discriminate].
  intros _. unfold missingColumns, accountIdxOf, inflowIdxOf, outflowIdxOf.
  apply indexOf_present in Hi, Ho, Ha. apply Z.eqb_neq in Hi, Ho, Ha.
  now rewrite Hi, Ho, Ha.
Qed.

(** [parseYNABCSV] as a cascade of its failure tests. *)
Lemma parseYNABCSV_cascade (Date : Type) (now : Date) (csvText : jsstring) :
  parseYNABCSV now csvText
  = let rows := parseCSV csvText in
    match rows with
    | [] => inl EmptyCSV
    | _ :: _ =>
        match detectYNABFormat (hd [] rows) with
        | None => inl UnrecognizedFormat
        | Some fmt =>
            if (2 <=? length rows)%nat && missingColumns fmt rows
            then inl (missingColumnsError fmt)
            else match aggregate fmt rows with
                 | inr (acc :: accs) => inr (mkResult fmt (acc :: accs) now)
                 | _ => inl NoAccountsFound
                 end
        end
    end.
Proof.
  unfold parseYNABCSV. cbv zeta.
  destruct (parseCSV csvText) as [|h rows'] eqn:Hrows; [reflexivity|].
  change (length (h :: rows') =? 0)%nat with false. cbv iota.
  set (rows := h :: rows').
  destruct (detectYNABFormat (hd [] rows)) as [fmt|]; [|reflexivity].
  change (match fmt with
          | register => parseRegister rows
          | networth => parseNetWorthReport rows
          end) with (aggregate fmt rows).
  pose proof (aggregate_cases fmt rows) as E.
  destruct ((2 <=? length rows)%nat && missingColumns fmt rows).
  - now rewrite E.
  - destruct (aggregate fmt rows) as [e|[|acc accs]]; [discriminate | reflexivity..].
Qed.

(** * Main theorems *)

(** C1. For a net-worth document whose header has the account and balance
    columns, [parseNetWorthReport] returns one account per distinct
    non-blank account name found among the included rows; under a month
    column the included rows are exactly those whose month cell is the
    greatest month cell of all data rows (code units compared
    lexicographically), without one every data row is included; and each
    account takes its balance and source type from the last included row
    bearing its name. *)
Theorem parseNetWorthReport_latest_month_last_row (rows : list (list jsstring)) :
  accountIdxOf rows <> (-1)%Z -> balanceIdxOf rows <> (-1)%Z ->
  let data := tl rows in
  let monthIdx := monthIdxOf rows in
  ((0 <= monthIdx)%Z ->
   forall row, includedRow monthIdx data row <->
               exists month, cell row monthIdx = Some month /\
                 forall row' month', In row' data -> cell row' monthIdx = Some month' ->
                                     str_ltb month month' = false)
  /\ ((monthIdx < 0)%Z -> forall row, includedRow monthIdx data row)
  /\ exists accs,
       parseNetWorthReport rows = inr accs
       /\ NoDup (map name accs)
       /\ (forall n, In n (map name accs) <->
                     exists row, In row data /\ includedRow monthIdx data row
                                 /\ cell row (accountIdxOf rows) = Some n
                                 /\ blankName (Some n) = false)
       /\ (forall acc, In acc accs ->
             exists pre row post,
               data = pre ++ row :: post
               /\ includedRow monthIdx data row
               /\ cell row (accountIdxOf rows) = Some (name acc)
               /\ balance acc = parseCurrencyValue (cell row (balanceIdxOf rows))
               /\ ynabType acc = (if (0 <=? typeIdxOf rows)%Z
                                  then cell row (typeIdxOf rows) else None)
               /\ forall row', In row' post -> includedRow monthIdx data row' ->
                               cell row' (accountIdxOf rows) <> Some (name acc)).
Proof.
  intros Ha Hb data monthIdx. split; [|split].
  - intros Hm row. unfold includedRow.
    destruct (Z.leb_spec 0 monthIdx); [reflexivity | lia].
  - intros Hm row. unfold includedRow.
    destruct (Z.leb_spec 0 monthIdx); [lia | exact I].
  - destruct (parseNetWorthReport_ok rows Ha Hb) as [accs Haccs].
    exists accs. split; [exact Haccs|]. exact (netWorth_accounts rows Haccs).
Qed.

(** What [parseRegister] does hold to, for a tokenized register document
    whose header has the account, inflow and outflow columns: one account
    per distinct non-blank account cell, compared exactly (the cells are
    trimmed by the tokenizer, case is kept); its balance is the running
    total, in row order from 0, of inflow - outflow over the rows bearing
    that name, a running total that is falsy counting as 0 when the next
    row is added; this is the sum in row order whenever no partial sum is
    NaN or negative zero. *)
Theorem parseRegister_ledger_totals (csvText : jsstring) :
  let rows := parseCSV csvText in
  accountIdxOf rows <> (-1)%Z -> inflowIdxOf rows <> (-1)%Z ->
  outflowIdxOf rows <> (-1)%Z ->
  exists accs,
    parseRegister rows = inr accs
    /\ NoDup (map name accs)
    /\ (forall n, In n (map name accs) <->
                  exists row, In row (tl rows) /\ cell row (accountIdxOf rows) = Some n
                              /\ blankName (Some n) = false)
    /\ (forall acc, In acc accs ->
          let nets := map (registerNet (inflowIdxOf rows) (outflowIdxOf rows))
                          (rowsOfAccount (accountIdxOf rows) (name acc) (tl rows)) in
          trim (name acc) = name acc
          /\ balance acc = ledgerTotal nets
          /\ ((forall p q, nets = p ++ q -> num_or_zero (sumInOrder p) = sumInOrder p) ->
              balance acc = sumInOrder nets)).
Proof.
  intros rows Ha Hi Ho.
  destruct (parseRegister_ok rows Ha Hi Ho) as [accs Haccs].
  exists accs. split; [exact Haccs|].
  destruct (register_accounts rows Haccs) as (Hnd & Hnames & Hbal).
  split; [exact Hnd|]. split; [exact Hnames|].
  intros acc Hacc nets. destruct (Hbal acc Hacc) as [Hb _]. fold nets in Hb.
  split; [|split].
  - assert (Hn : In (name acc) (map name accs)) by now apply in_map.
    apply Hnames in Hn. destruct Hn as (row & Hrow & Hcell & _).
    apply (parseCSV_cell_trimmed csvText row (accountIdxOf rows)); [|exact Hcell].
    fold rows. destruct rows; [destruct Hrow | now right].
  - exact Hb.
  - intros Hsum. rewrite Hb. now apply ledgerTotal_sum.
Qed.

(** C3. When the cleaned value has a comma and no dot, and [post] is the
    text after its last comma: with exactly two characters in [post] the
    number is read from the cleaned text with its (first) comma turned
    into a decimal point, otherwise from the cleaned text with every comma
    removed; with a single comma these texts are [pre.post] and [prepost].
    On digits [ds], a comma and digits [post] the result is the number
    written [ds.post] when [post] has two digits and the number written
    [dspost] otherwise; "1,23" gives 1.23 and "1,234" gives 1234. *)
Theorem parseCurrencyValue_comma_only :
  (forall v pre post,
      clean v = pre ++ COMMA :: post ->
      includes_char COMMA post = false ->
      includes_char DOT (clean v) = false ->
      parseCurrencyValue (Some v)
      = orZeroIfNaN (parseFloat (if (length post =? 2)%nat
                                 then replace_first COMMA DOT (clean v)
                                 else remove_all COMMA (clean v)))
      /\ (includes_char COMMA pre = false ->
          parseCurrencyValue (Some v)
          = orZeroIfNaN (parseFloat (if (length post =? 2)%nat
                                     then pre ++ DOT :: post
                                     else pre ++ post))))
  /\ (forall ds post,
        ds <> [] -> forallb is_digit (ds ++ post) = true ->
        parseCurrencyValue (Some (ds ++ COMMA :: post))
        = if (length post =? 2)%nat
          then round_decimal false (digits_value (ds ++ post)) (-2)
          else round_decimal false (digits_value (ds ++ post)) 0)
  /\ parseCurrencyValue (Some (str "1,23")) = round_decimal false 123 (-2)
  /\ parseCurrencyValue (Some (str "1,234")) = round_decimal false 1234 0.
Proof.
  split; [|split; [exact parseCurrencyValue_digits_comma | now vm_compute]].
  intros v pre post Hv Hpost Hdot.
  pose proof (parseCurrencyValue_commas v pre post Hv Hpost Hdot) as E.
  split; [exact E|]. intros Hpre. rewrite E, Hv.
  now rewrite replace_first_single, remove_all_single.
Qed.

(** C5. The similarity score is symmetric. *)
Theorem stringSimilarity_symmetric (a b : jsstring) :
  stringSimilarity a b = stringSimilarity b a.
Proof. apply stringSimilarity_sym. Qed.

(** C6. [suggestAccountType] depends on the name only through its
    lower-cased form, and its rules are tried in order, the first that
    matches deciding: the liability cue (then the long-term pattern),
    retirement, investment, property, liquid, and the default; with the
    four examples of the specification. *)
Theorem suggestAccountType_first_match :
  (forall n1 n2 ty, toLowerCase n1 = toLowerCase n2 ->
                    suggestAccountType n1 ty = suggestAccountType n2 ty)
  /\ (forall name ty,
        let lower := toLowerCase name in
        let liability := opt_is ty "Liability" || test re_liability lower in
        (liability = true -> test re_long_term lower = true ->
         suggestAccountType name ty = (non_current_liability, illiquid))
        /\ (liability = true -> test re_long_term lower = false ->
            suggestAccountType name ty = (current_liability, liquid))
        /\ (liability = false -> test re_retirement lower = true ->
            suggestAccountType name ty = (non_current_asset, retirement))
        /\ (liability = false -> test re_retirement lower = false ->
            test re_investment lower = true ->
            suggestAccountType name ty = (non_current_asset, liquid))
        /\ (liability = false -> test re_retirement lower = false ->
            test re_investment lower = false -> test re_property lower = true ->
            suggestAccountType name ty = (non_current_asset, illiquid))
        /\ (liability = false -> test re_retirement lower = false ->
            test re_investment lower = false -> test re_property lower = false ->
            suggestAccountType name ty = (current_asset, liquid)))
  /\ suggestAccountType (str "Visa Platinum Card") None = (current_liability, liquid)
  /\ suggestAccountType (str "Home Mortgage") None = (non_current_liability, illiquid)
  /\ suggestAccountType (str "401k Retirement") None = (non_current_asset, retirement)
  /\ suggestAccountType (str "IRA Loan") None = (current_liability, liquid)
  /\ (forall name,
        test re_liability (toLowerCase name) = false ->
        test re_retirement (toLowerCase name) = false ->
        test re_investment (toLowerCase name) = false ->
        test re_property (toLowerCase name) = false ->
        test re_liquid (toLowerCase name) = false ->
        suggestAccountType name None = (current_asset, liquid)).
Proof.
  split; [|split; [|repeat split; try (vm_compute; reflexivity)]].
  - intros n1 n2 ty E. unfold suggestAccountType. now rewrite E.
  - intros name ty lower liability. unfold suggestAccountType.
    fold lower. fold liability.
    repeat split; intros; repeat match goal with H : _ = _ |- _ => rewrite H end;
      try reflexivity.
    now destruct (test re_liquid lower), (opt_is ty "Asset").
  - intros name H1 H2 H3 H4 H5. unfold suggestAccountType.
    now rewrite H1, H2, H3, H4, H5.
Qed.

(** C4, amended. Quoting a field content (quotes doubled) and parsing it
    back yields the content with its leading and trailing white space
    trimmed, as the single field of a single row, and no row when the
    content is all white space; hence exactly the content when it is not
    empty and neither begins nor ends with white space. *)
Theorem parseCSV_quoted_field_trimmed :
  (forall content,
      parseCSV (quoteField content)
      = if is_empty (trim content) then [] else [[trim content]])
  /\ (forall content,
        content <> [] -> trim content = content ->
        parseCSV (quoteField content) = [[content]]).
Proof.
  split.
  - apply parseCSV_quoteField.
  - intros content Hne Htrim. rewrite parseCSV_quoteField, Htrim.
    now destruct content.
Qed.

Ltac cascade_pick :=
  first [ solve [auto; congruence]
        | solve [eexists; reflexivity]
        | solve [eexists; split; [reflexivity | auto; congruence]]
        | left; cascade_pick
        | right; cascade_pick ].

Ltac cascade_case :=
  repeat match goal with
         | |- _ /\ _ => split
         | |- _ <-> _ => split
         | |- ~ _ => intro
         | |- _ <> _ => intro
         | |- forall _, _ => intro
         end;
  repeat match goal with
         | H : exists _, _ |- _ => destruct H
         | H : _ /\ _ |- _ => destruct H
         | H : _ \/ _ |- _ => destruct H
         | H : inl _ = inl (missingColumnsError ?f) |- _ =>
             is_var f; destruct f; simpl in H
         | H : Some _ = Some _ |- _ => injection H as H; subst
         | H : inr _ = inr _ |- _ => injection H as H; subst
         end;
  simpl in *;
  try match goal with
      | H : _ = format _ |- _ => rewrite <- H in *; simpl in *
      end;
  try discriminate; try congruence; try contradiction; try cascade_pick;
  try match goal with
      | r : YNABParseResult _ |- _ => destruct r; simpl in *; congruence
      end.

(** C7. [parseYNABCSV] fails exactly when the tokenizer yields no row, or
    the header matches no format, or there is a data row and the columns of
    the detected format are missing, or the aggregator returns no account;
    the tests come in that order, each failure has its own error, and every
    other document gives a result with a non-empty account list.  The
    register format never fails on missing columns: its detection needs
    them. *)
Theorem parseYNABCSV_failure_conditions (Date : Type) (now : Date) (csvText : jsstring) :
  let rows := parseCSV csvText in
  let fmt := detectYNABFormat (hd [] rows) in
  let structural f := (2 <= length rows)%nat /\ missingColumns f rows = true in
  ((exists e, parseYNABCSV now csvText = inl e) <->
   rows = [] \/ fmt = None \/ (exists f, fmt = Some f /\ structural f)
   \/ (exists f, fmt = Some f /\ aggregate f rows = inr []))
  /\ (parseYNABCSV now csvText = inl EmptyCSV <-> rows = [])
  /\ (parseYNABCSV now csvText = inl UnrecognizedFormat <-> rows <> [] /\ fmt = None)
  /\ (forall f, parseYNABCSV now csvText = inl (missingColumnsError f) <->
                rows <> [] /\ fmt = Some f /\ structural f)
  /\ (parseYNABCSV now csvText = inl NoAccountsFound <->
      rows <> [] /\ exists f, fmt = Some f /\ aggregate f rows = inr [])
  /\ (forall res, parseYNABCSV now csvText = inr res <->
        rows <> [] /\ fmt = Some (format res)
        /\ aggregate (format res) rows = inr (accounts res)
        /\ accounts res <> [] /\ parseDate res = now)
  /\ parseYNABCSV now csvText <> inl InvalidRegister.
Proof.
  intros rows fmt structural.
  rewrite parseYNABCSV_cascade. cbv zeta. fold rows. fold fmt.
  pose proof (register_columns_present rows) as Hreg. fold fmt in Hreg.
  assert (Hagg : forall f, aggregate f rows
                 = if (2 <=? length rows)%nat && missingColumns f rows
                   then inl (missingColumnsError f)
                   else inr (match aggregate f rows with inr a => a | inl _ => [] end))
    by (intros f; apply aggregate_cases).
  assert (Hstr : forall f, structural f <->
                           (2 <=? length rows)%nat && missingColumns f rows = true).
  { intros f. unfold structural. rewrite andb_true_iff, Nat.leb_le. reflexivity. }
  clearbody rows. destruct rows as [|h rows'].
  { cascade_case. }
  clearbody fmt. destruct fmt as [f0|].
  2:{ cascade_case. }
  specialize (Hagg f0). pose proof (Hstr f0) as Hstr0.
  destruct ((2 <=? length (h :: rows'))%nat && missingColumns f0 (h :: rows')) eqn:Hs.
  - assert (S0 : structural f0) by now apply Hstr0.
    assert (Hn : f0 = networth).
    { destruct f0; [|reflexivity]. rewrite (Hreg eq_refl), andb_false_r in Hs.
      discriminate. }
    subst f0. clear Hreg Hstr Hstr0. cascade_case.
  - assert (S0 : ~ structural f0) by (rewrite Hstr0; congruence).
    clear Hreg Hstr Hstr0.
    destruct (aggregate f0 (h :: rows')) as [e|[|acc accs]] eqn:Ha; [discriminate| |].
    + cascade_case.
    + cascade_case.
Qed.

(** C8, amended. Outside quotes a line feed, and a carriage return
    followed by a line feed, each end exactly one row: the rows are those of
    the text before the break followed by those of the text after it.  A
    carriage return not followed by a line feed is discarded outside
    quotes: it is neither a row break nor part of the field, and the scan
    goes on from the state it had reached; the text parses as it does
    without the carriage return, unless removing it would bring a closing
    quote next to an opening one. *)
Theorem parseCSV_row_breaks_and_bare_CR (s1 s2 : jsstring) :
  CSV.inQuotes (CSV.loop CSV.init s1) = false ->
  parseCSV (s1 ++ [LF] ++ s2) = parseCSV s1 ++ parseCSV s2
  /\ parseCSV (s1 ++ [CR; LF] ++ s2) = parseCSV s1 ++ parseCSV s2
  /\ (hd_error s2 <> Some LF ->
      parseCSV (s1 ++ [CR] ++ s2) = CSV.finish (CSV.loop (CSV.loop CSV.init s1) s2))
  /\ (hd_error s2 <> Some LF -> hd_error s2 <> Some QUOTE ->
      parseCSV (s1 ++ [CR] ++ s2) = parseCSV (s1 ++ s2)).
Proof.
  intros Hq. split; [|split; [|split]].
  - now apply parseCSV_LF.
  - now apply parseCSV_CRLF.
  - intros HL. unfold parseCSV. cbn [app]. now rewrite loop_CR_inside.
  - intros HL HQ. now apply parseCSV_bare_CR.
Qed.

(** C9. A net-worth export whose Account Type cell reads "Cash": the
    account comes back with [ynabType] "Cash", which is neither "Asset" nor
    "Liability"; the cast of the cell is not checked. *)
Theorem parseYNABCSV_ynabType_unchecked (Date : Type) (now : Date) :
  parseYNABCSV now (str "Month,Account,Account Type,Balance" ++ [LF]
                    ++ str "2024-01,Wallet,Cash,50")
  = inr (mkResult networth
           [mkAccount (str "Wallet") (round_decimal false 50 0) (Some (str "Cash"))
                      current_asset liquid]
           now)
  /\ str "Cash" <> str "Asset" /\ str "Cash" <> str "Liability".
Proof. split; [now vm_compute | split; discriminate]. Qed.

(** The loop bodies read a row only through the cells of their columns. *)
Lemma registerStep_ext accountIdx inflowIdx outflowIdx m (row row' : list jsstring) :
  cell row accountIdx = cell row' accountIdx ->
  parseCurrencyValue (cell row inflowIdx) = parseCurrencyValue (cell row' inflowIdx) ->
  parseCurrencyValue (cell row outflowIdx) = parseCurrencyValue (cell row' outflowIdx) ->
  registerStep accountIdx inflowIdx outflowIdx m row
  = registerStep accountIdx inflowIdx outflowIdx m row'.
Proof. intros Ha Hi Ho. unfold registerStep. now rewrite Ha, Hi, Ho. Qed.

Lemma registerStep_skip accountIdx inflowIdx outflowIdx m (row : list jsstring) :
  blankName (cell row accountIdx) = true ->
  registerStep accountIdx inflowIdx outflowIdx m row = m.
Proof.
  intros Hb. unfold registerStep.
  destruct (cell row accountIdx) as [a|]; [now rewrite Hb | reflexivity].
Qed.

Lemma netWorthStep_ext accountIdx typeIdx balanceIdx monthIdx mostRecentMonth m
    (row row' : list jsstring) :
  cell row accountIdx = cell row' accountIdx ->
  cell row monthIdx = cell row' monthIdx ->
  cell row typeIdx = cell row' typeIdx ->
  parseCurrencyValue (cell row balanceIdx) = parseCurrencyValue (cell row' balanceIdx) ->
  netWorthStep accountIdx typeIdx balanceIdx monthIdx mostRecentMonth m row
  = netWorthStep accountIdx typeIdx balanceIdx monthIdx mostRecentMonth m row'.
Proof.
  intros Ha Hm Ht Hb. unfold netWorthStep, monthSelected. now rewrite Ha, Hm, Ht, Hb.
Qed.

Lemma netWorthStep_skip accountIdx typeIdx balanceIdx monthIdx mostRecentMonth m
    (row : list jsstring) :
  blankName (cell row accountIdx) = true ->
  netWorthStep accountIdx typeIdx balanceIdx monthIdx mostRecentMonth m row = m.
Proof.
  intros Hb. unfold netWorthStep.
  destruct (monthSelected monthIdx mostRecentMonth row); [|reflexivity]. cbn [negb].
  destruct (cell row accountIdx) as [a|]; [now rewrite Hb | reflexivity].
Qed.

Lemma mostRecentMonthOf_ext monthIdx (pre post : list (list jsstring))
    (row row' : list jsstring) :
  cell row monthIdx = cell row' monthIdx ->
  mostRecentMonthOf monthIdx (pre ++ row :: post)
  = mostRecentMonthOf monthIdx (pre ++ row' :: post).
Proof.
  intros Hm. unfold mostRecentMonthOf. rewrite !fold_left_app. cbn [fold_left].
  now rewrite Hm.
Qed.

Lemma length_with_row (A : Type) (h : A) (pre post : list A) (row : A) :
  (length (h :: pre ++ row :: post) <? 2)%nat = false.
Proof.
  apply Nat.ltb_ge. cbn [length]. rewrite length_app. cbn [length]. lia.
Qed.

(** Replacing a data row by one with the same account cell and the same
    amounts leaves the register as it is. *)
Lemma parseRegister_replace_row (h : list jsstring) (pre post : list (list jsstring))
    (row row' : list jsstring) :
  let rows := h :: pre ++ row :: post in
  cell row (accountIdxOf rows) = cell row' (accountIdxOf rows) ->
  parseCurrencyValue (cell row (inflowIdxOf rows))
  = parseCurrencyValue (cell row' (inflowIdxOf rows)) ->
  parseCurrencyValue (cell row (outflowIdxOf rows))
  = parseCurrencyValue (cell row' (outflowIdxOf rows)) ->
  parseRegister rows = parseRegister (h :: pre ++ row' :: post).
Proof.
  cbv zeta. unfold accountIdxOf, inflowIdxOf, outflowIdxOf, parseRegister, normalizedHeaders.
  cbn [hd tl]. intros Ha Hi Ho. rewrite !length_with_row.
  destruct (_ || _); [reflexivity|]. do 2 f_equal.
  rewrite !fold_left_app. cbn [fold_left]. f_equal. now apply registerStep_ext.
Qed.

(** A data row without an account name can be left out of a register. *)
Lemma parseRegister_remove_row (h : list jsstring) (pre post : list (list jsstring))
    (row : list jsstring) :
  let rows := h :: pre ++ row :: post in
  accountIdxOf rows <> (-1)%Z -> inflowIdxOf rows <> (-1)%Z ->
  outflowIdxOf rows <> (-1)%Z ->
  blankName (cell row (accountIdxOf rows)) = true ->
  parseRegister rows = parseRegister (h :: pre ++ post).
Proof.
  cbv zeta. unfold accountIdxOf, inflowIdxOf, outflowIdxOf, parseRegister, normalizedHeaders.
  cbn [hd tl]. intros Ha Hi Ho Hb. rewrite length_with_row.
  apply Z.eqb_neq in Ha, Hi, Ho. rewrite Ha, Hi, Ho. cbn [orb].
  rewrite fold_left_app. cbn [fold_left]. rewrite registerStep_skip by exact Hb.
  rewrite <- fold_left_app.
  destruct (length (h :: pre ++ post) <? 2)%nat eqn:Hlen; [|reflexivity].
  apply Nat.ltb_lt in Hlen. cbn [length] in Hlen.
  destruct (pre ++ post); [reflexivity | cbn [length] in Hlen; lia].
Qed.

Lemma parseNetWorthReport_replace_row (h : list jsstring) (pre post : list (list jsstring))
    (row row' : list jsstring) :
  let rows := h :: pre ++ row :: post in
  cell row (accountIdxOf rows) = cell row' (accountIdxOf rows) ->
  cell row (monthIdxOf rows) = cell row' (monthIdxOf rows) ->
  cell row (typeIdxOf rows) = cell row' (typeIdxOf rows) ->
  parseCurrencyValue (cell row (balanceIdxOf rows))
  = parseCurrencyValue (cell row' (balanceIdxOf rows)) ->
  parseNetWorthReport rows = parseNetWorthReport (h :: pre ++ row' :: post).
Proof.
  cbv zeta.
  unfold accountIdxOf, monthIdxOf, typeIdxOf, balanceIdxOf, parseNetWorthReport,
    normalizedHeaders.
  cbn [hd tl]. intros Ha Hm Ht Hb. rewrite !length_with_row.
  destruct (_ || _); [reflexivity|]. do 2 f_equal.
  rewrite (@mostRecentMonthOf_ext _ pre post row row' Hm).
  rewrite !fold_left_app. cbn [fold_left]. f_equal. now apply netWorthStep_ext.
Qed.

(** A data row without an account name can be left out of a net worth
    report when the latest month is the same without it. *)
Lemma parseNetWorthReport_remove_row (h : list jsstring) (pre post : list (list jsstring))
    (row : list jsstring) :
  let rows := h :: pre ++ row :: post in
  accountIdxOf rows <> (-1)%Z -> balanceIdxOf rows <> (-1)%Z ->
  blankName (cell row (accountIdxOf rows)) = true ->
  mostRecentMonthOf (monthIdxOf rows) (pre ++ row :: post)
  = mostRecentMonthOf (monthIdxOf rows) (pre ++ post) ->
  parseNetWorthReport rows = parseNetWorthReport (h :: pre ++ post).
Proof.
  cbv zeta.
  unfold accountIdxOf, monthIdxOf, typeIdxOf, balanceIdxOf, parseNetWorthReport,
    normalizedHeaders.
  cbn [hd tl]. intros Ha Hbal Hb Hm. rewrite length_with_row.
  apply Z.eqb_neq in Ha, Hbal. rewrite Ha, Hbal. cbn [orb]. rewrite Hm.
  rewrite fold_left_app. cbn [fold_left]. rewrite netWorthStep_skip by exact Hb.
  rewrite <- fold_left_app.
  destruct (length (h :: pre ++ post) <? 2)%nat eqn:Hlen; [|reflexivity].
  apply Nat.ltb_lt in Hlen. cbn [length] in Hlen.
  destruct (pre ++ post); [reflexivity | cbn [length] in Hlen; lia].
Qed.

(** C10. Rows shorter than the header never make an aggregator fail.
    With the columns in the header both aggregators return accounts
    whatever the data rows, and what they return is fixed row by row: the
    accounts are those of the rows whose account cell is there and not
    blank, the balance of a register account is the running total of
    inflow - outflow over its rows, that of a net worth account the
    balance of its last included row, every amount being
    [parseCurrencyValue] of the cell, a missing one ([undefined])
    included.  A cell beyond the end of a row is missing, counts as a
    blank account name and as the amount 0.  A row without an account name
    leaves the map as it is and can be left out of the input; a row can be
    replaced by any row with the same account cell and the same amounts,
    so a missing amount is read like a written 0.  [parseCurrencyValue]
    gives 0 on an absent, an empty or blank, and a non-numeric argument. *)
Theorem aggregators_tolerate_short_rows :
  (forall rows, accountIdxOf rows <> (-1)%Z -> balanceIdxOf rows <> (-1)%Z ->
                exists accs, parseNetWorthReport rows = inr accs)
  /\ (forall rows, accountIdxOf rows <> (-1)%Z -> inflowIdxOf rows <> (-1)%Z ->
                   outflowIdxOf rows <> (-1)%Z ->
                   exists accs, parseRegister rows = inr accs)
  /\ (forall rows accs,
        parseRegister rows = inr accs ->
        (forall n, In n (map name accs) <->
                   exists row, In row (tl rows)
                               /\ cell row (accountIdxOf rows) = Some n
                               /\ blankName (Some n) = false)
        /\ (forall acc, In acc accs ->
              balance acc
              = ledgerTotal
                  (map (fun row =>
                          num_sub (parseCurrencyValue (cell row (inflowIdxOf rows)))
                                  (parseCurrencyValue (cell row (outflowIdxOf rows))))
                       (rowsOfAccount (accountIdxOf rows) (name acc) (tl rows)))))
  /\ (forall rows accs,
        parseNetWorthReport rows = inr accs ->
        (forall n, In n (map name accs) <->
                   exists row, In row (tl rows)
                               /\ includedRow (monthIdxOf rows) (tl rows) row
                               /\ cell row (accountIdxOf rows) = Some n
                               /\ blankName (Some n) = false)
        /\ (forall acc, In acc accs ->
              exists pre row post,
                tl rows = pre ++ row :: post
                /\ includedRow (monthIdxOf rows) (tl rows) row
                /\ cell row (accountIdxOf rows) = Some (name acc)
                /\ balance acc = parseCurrencyValue (cell row (balanceIdxOf rows))
                /\ forall row', In row' post ->
                                includedRow (monthIdxOf rows) (tl rows) row' ->
                                cell row' (accountIdxOf rows) <> Some (name acc)))
  /\ (forall (row : list jsstring) idx,
        (Z.of_nat (length row) <= idx)%Z ->
        cell row idx = None /\ blankName (cell row idx) = true
        /\ parseCurrencyValue (cell row idx) = num_zero)
  /\ (forall accountIdx typeIdx balanceIdx monthIdx mostRecentMonth m row,
        blankName (cell row accountIdx) = true ->
        netWorthStep accountIdx typeIdx balanceIdx monthIdx mostRecentMonth m row = m)
  /\ (forall accountIdx inflowIdx outflowIdx m row,
        blankName (cell row accountIdx) = true ->
        registerStep accountIdx inflowIdx outflowIdx m row = m)
  /\ (forall h pre row post,
        let rows := h :: pre ++ row :: post in
        accountIdxOf rows <> (-1)%Z -> inflowIdxOf rows <> (-1)%Z ->
        outflowIdxOf rows <> (-1)%Z ->
        blankName (cell row (accountIdxOf rows)) = true ->
        parseRegister rows = parseRegister (h :: pre ++ post))
  /\ (forall h pre row post,
        let rows := h :: pre ++ row :: post in
        accountIdxOf rows <> (-1)%Z -> balanceIdxOf rows <> (-1)%Z ->
        blankName (cell row (accountIdxOf rows)) = true ->
        mostRecentMonthOf (monthIdxOf rows) (pre ++ row :: post)
        = mostRecentMonthOf (monthIdxOf rows) (pre ++ post) ->
        parseNetWorthReport rows = parseNetWorthReport (h :: pre ++ post))
  /\ (forall h pre row row' post,
        let rows := h :: pre ++ row :: post in
        cell row (accountIdxOf rows) = cell row' (accountIdxOf rows) ->
        parseCurrencyValue (cell row (inflowIdxOf rows))
        = parseCurrencyValue (cell row' (inflowIdxOf rows)) ->
        parseCurrencyValue (cell row (outflowIdxOf rows))
        = parseCurrencyValue (cell row' (outflowIdxOf rows)) ->
        parseRegister rows = parseRegister (h :: pre ++ row' :: post))
  /\ (forall h pre row row' post,
        let rows := h :: pre ++ row :: post in
        cell row (accountIdxOf rows) = cell row' (accountIdxOf rows) ->
        cell row (monthIdxOf rows) = cell row' (monthIdxOf rows) ->
        cell row (typeIdxOf rows) = cell row' (typeIdxOf rows) ->
        parseCurrencyValue (cell row (balanceIdxOf rows))
        = parseCurrencyValue (cell row' (balanceIdxOf rows)) ->
        parseNetWorthReport rows = parseNetWorthReport (h :: pre ++ row' :: post))
  /\ (forall accountIdx typeIdx balanceIdx monthIdx mostRecentMonth m row a,
        monthSelected monthIdx mostRecentMonth row = true ->
        cell row accountIdx = Some a -> blankName (Some a) = false ->
        cell row balanceIdx = None ->
        netWorthStep accountIdx typeIdx balanceIdx monthIdx mostRecentMonth m row
        = JsMap.set a (num_zero, if (0 <=? typeIdx)%Z then cell row typeIdx else None) m)
  /\ (forall accountIdx inflowIdx outflowIdx m row a,
        cell row accountIdx = Some a -> blankName (Some a) = false ->
        (cell row inflowIdx = None ->
         registerStep accountIdx inflowIdx outflowIdx m row
         = JsMap.set a
             (num_add (match JsMap.get a m with
                       | Some b => num_or_zero b
                       | None => num_zero
                       end)
                      (num_sub num_zero (parseCurrencyValue (cell row outflowIdx)))) m)
        /\ (cell row outflowIdx = None ->
            registerStep accountIdx inflowIdx outflowIdx m row
            = JsMap.set a
                (num_add (match JsMap.get a m with
                          | Some b => num_or_zero b
                          | None => num_zero
                          end)
                         (num_sub (parseCurrencyValue (cell row inflowIdx)) num_zero)) m))
  /\ (forall inflowIdx outflowIdx row,
        (cell row inflowIdx = None ->
         registerNet inflowIdx outflowIdx row
         = num_sub num_zero (parseCurrencyValue (cell row outflowIdx)))
        /\ (cell row outflowIdx = None ->
            registerNet inflowIdx outflowIdx row
            = num_sub (parseCurrencyValue (cell row inflowIdx)) num_zero))
  /\ parseCurrencyValue None = num_zero
  /\ (forall v, is_empty (trim v) = true -> parseCurrencyValue (Some v) = num_zero)
  /\ (forall v, isNaN (parseFloat (normalizeSeparators (clean v))) = true ->
                parseCurrencyValue (Some v) = num_zero)
  /\ (forall v c rest,
        normalizeSeparators (clean v) = c :: rest ->
        is_space c = false -> is_digit c = false ->
        c <> 43%N -> c <> 45%N -> c <> DOT -> c <> 73%N ->
        parseCurrencyValue (Some v) = num_zero)
  /\ parseCurrencyValue (Some (str "abc")) = num_zero.
Proof.
  split; [exact parseNetWorthReport_ok|]. split; [exact parseRegister_ok|].
  split.
  { intros rows accs H. destruct (register_accounts rows H) as (_ & Hn & Hb).
    split; [exact Hn|]. intros acc Hacc. exact (proj1 (Hb acc Hacc)). }
  split.
  { intros rows accs H. destruct (netWorth_accounts rows H) as (_ & Hn & Hb).
    split; [exact Hn|]. intros acc Hacc.
    destruct (Hb acc Hacc) as (pre & row & post & E & Hinc & Hc & Hbal & _ & Hlast).
    exists pre, row, post. repeat split; assumption. }
  split.
  { intros row idx H. rewrite (cell_short row H). now repeat split. }
  split; [intros; now apply netWorthStep_skip|].
  split; [intros; now apply registerStep_skip|].
  split; [intros h pre row post; exact (@parseRegister_remove_row h pre post row)|].
  split; [intros h pre row post; exact (@parseNetWorthReport_remove_row h pre post row)|].
  split; [intros h pre row row' post; exact (@parseRegister_replace_row h pre post row row')|].
  split; [intros h pre row row' post;
          exact (@parseNetWorthReport_replace_row h pre post row row')|].
  split.
  { intros ai ti bi mi mrm m row a Hsel Ha Hb Hbal. unfold netWorthStep.
    now rewrite Hsel, Ha, Hb, Hbal. }
  split.
  { intros ai ii oi m row a Ha Hb. unfold registerStep. rewrite Ha, Hb.
    split; now intros ->. }
  split.
  { intros ii oi row. unfold registerNet. split; now intros ->. }
  split; [reflexivity|]. split.
  { intros v Hv. unfold parseCurrencyValue. rewrite Hv. now rewrite orb_true_r. }
  assert (HNaN : forall v, isNaN (parseFloat (normalizeSeparators (clean v))) = true ->
                           parseCurrencyValue (Some v) = num_zero).
  { intros v Hv. unfold parseCurrencyValue.
    destruct (is_empty v || is_empty (trim v)); [reflexivity|]. now rewrite Hv. }
  split; [exact HNaN|]. split; [|now vm_compute].
  intros v c rest E Hsp Hd Hplus Hminus Hdot HI. apply HNaN.
  now rewrite E, parseFloat_not_numeric.
Qed.

(** * Further properties of the classifier and the aggregators *)

(** ** The liability pattern is a substring search *)

Lemma strip_prefix_starts_with (p s : jsstring) :
  match strip_prefix p s with Some _ => true | None => false end = starts_with p s.
Proof.
  revert s. induction p as [|a p IH]; intros s; [reflexivity|].
  destruct s as [|b s]; [reflexivity|]. cbn [strip_prefix starts_with].
  destruct (a =? b)%N; [apply IH | reflexivity].
Qed.

Lemma test_Lit (p s : jsstring) : test (Lit p) s = includes s p.
Proof.
  induction s as [|c s IH].
  - cbn [test match_at includes]. rewrite <- strip_prefix_starts_with.
    now destruct (strip_prefix p []).
  - cbn [test includes]. fold (test (Lit p) s). rewrite IH. f_equal.
    cbn [match_at]. rewrite <- strip_prefix_starts_with.
    now destruct (strip_prefix p (c :: s)).
Qed.

Lemma test_Alt (r1 r2 : regex) (s : jsstring) :
  test (Alt r1 r2) s = test r1 s || test r2 s.
Proof.
  induction s as [|c s IH].
  - cbn [test match_at]. now rewrite !orb_false_r.
  - cbn [test]. fold (test (Alt r1 r2) s) (test r1 s) (test r2 s). rewrite IH.
    cbn [match_at].
    destruct (match_at r1 (c :: s) (fun _ => true)), (match_at r2 (c :: s) (fun _ => true)),
             (test r1 s), (test r2 s); reflexivity.
Qed.

Lemma test_re_liability (s : jsstring) :
  test re_liability s = existsb (fun w => includes s (str w)) liabilityCues.
Proof.
  unfold re_liability, liabilityCues, word. cbn [alts existsb].
  rewrite !test_Alt, !test_Lit. now rewrite orb_false_r, !orb_assoc.
Qed.

(** X11. The type hint counts only when it is Liability: any other hint, Asset
    included, gives what no hint gives. *)
Theorem suggestAccountType_hint_only_liability (name : jsstring) (ty : option jsstring) :
  opt_is ty "Liability" = false ->
  suggestAccountType name ty = suggestAccountType name None.
Proof.
  intros H. unfold suggestAccountType. rewrite H. cbn [opt_is orb].
  now destruct (opt_is ty "Asset").
Qed.

(** X12. An account is put under the liabilities exactly when the hint is
    Liability or its lower-cased name contains one of the nine cues,
    anywhere, also inside a longer word. *)
Theorem suggestAccountType_liability_by_substring (name : jsstring) (ty : option jsstring) :
  is_liability (fst (suggestAccountType name ty)) = true
  <-> opt_is ty "Liability" = true
      \/ exists w, In w liabilityCues /\ includes (toLowerCase name) (str w) = true.
Proof.
  assert (E : (exists w, In w liabilityCues /\ includes (toLowerCase name) (str w) = true)
              <-> test re_liability (toLowerCase name) = true).
  { rewrite test_re_liability, existsb_exists. tauto. }
  rewrite E. unfold suggestAccountType.
  destruct (opt_is ty "Liability"); cbn [orb].
  - split; [now left|]. intros _. now destruct (test re_long_term _).
  - destruct (test re_liability _).
    + split; [now right|]. intros _. now destruct (test re_long_term _).
    + split; [|intros [|]; discriminate].
      repeat match goal with
             | |- context [if ?c then _ else _] => destruct c
             end; discriminate.
Qed.

(** ** Balances of a net worth report *)

Lemma parseCurrencyValue_not_nan (v : option jsstring) : isNaN (parseCurrencyValue v) = false.
Proof.
  unfold parseCurrencyValue. destruct v as [v|]; [|reflexivity].
  destruct (is_empty v || is_empty (trim v)); [reflexivity|].
  now destruct (isNaN (parseFloat (normalizeSeparators (clean v)))) eqn:E.
Qed.

(** X14. No account of a net worth report has NaN for a balance, whatever the
    cells hold. *)
Theorem parseNetWorthReport_balance_not_nan (rows : list (list jsstring))
    (accs : list YNABParsedAccount) (acc : YNABParsedAccount) :
  parseNetWorthReport rows = inr accs -> In acc accs -> isNaN (balance acc) = false.
Proof.
  intros H Hin. destruct (netWorth_accounts rows H) as (_ & _ & Hacc).
  destruct (Hacc acc Hin) as (pre & row & post & _ & _ & _ & -> & _).
  apply parseCurrencyValue_not_nan.
Qed.

(** ** Order of the accounts *)

Lemma map_keys_set_order (V : Type) (k : jsstring) (v : V) (m : JsMap.t V) :
  map fst (JsMap.set k v m)
  = if existsb (jsstring_eqb k) (map fst m) then map fst m else map fst m ++ [k].
Proof.
  induction m as [|[k' v'] m IH]; [reflexivity|].
  cbn [JsMap.set map fst existsb]. destruct (jsstring_eqb k k'); [reflexivity|].
  cbn [map fst orb]. rewrite IH. now destruct (existsb (jsstring_eqb k) (map fst m)).
Qed.

Lemma filter_filter (A : Type) (p q : A -> bool) (l : list A) :
  filter p (filter q l) = filter (fun x => q x && p x) l.
Proof.
  induction l as [|x l IH]; [reflexivity|]. cbn [filter].
  destruct (q x); cbn [filter andb]; [destruct (p x)|]; now rewrite IH.
Qed.

(** The keys of a scan, in order: those of the start, then the new ones in
    the order of their first occurrence. *)
Lemma fold_keys_order (R V : Type) (upd : R -> option (jsstring * (option V -> V)))
    (data : list R) : forall m : JsMap.t V,
  map fst (fold_left (map_step upd) data m)
  = map fst m
    ++ filter (fun k => negb (existsb (jsstring_eqb k) (map fst m)))
              (firstOccurrences
                 (flat_map (fun r => match upd r with Some (k, _) => [k] | None => [] end)
                           data)).
Proof.
  induction data as [|r data IH]; intros m.
  - cbn. now rewrite app_nil_r.
  - cbn [fold_left flat_map]. rewrite IH.
    replace (map_step upd m r)
      with (match upd r with
            | Some (k, f) => JsMap.set k (f (JsMap.get k m)) m
            | None => m
            end) by reflexivity.
    destruct (upd r) as [[k f]|]; [|reflexivity].
    cbn [app firstOccurrences filter]. rewrite map_keys_set_order.
    set (X := firstOccurrences _).
    destruct (existsb (jsstring_eqb k) (map fst m)) eqn:Hk; cbn [negb].
    + f_equal. rewrite filter_filter. apply filter_ext_in. intros x _.
      destruct (jsstring_eqb_spec x k) as [->|]; [now rewrite Hk | reflexivity].
    + rewrite <- app_assoc. cbn [app]. do 2 f_equal.
      rewrite filter_filter. apply filter_ext_in. intros x _.
      rewrite existsb_app. cbn [existsb]. rewrite orb_false_r.
      now destruct (jsstring_eqb x k), (existsb (jsstring_eqb x) (map fst m)).
Qed.

Lemma filter_true (A : Type) (l : list A) : filter (fun _ => true) l = l.
Proof. induction l as [|x l IH]; [reflexivity|]. cbn. now rewrite IH. Qed.

Lemma flat_map_filter (A B : Type) (p : A -> bool) (f : A -> list B) (l : list A) :
  flat_map f (filter p l) = flat_map (fun x => if p x then f x else []) l.
Proof.
  induction l as [|x l IH]; [reflexivity|]. cbn [filter flat_map].
  destruct (p x); cbn [flat_map app]; now rewrite IH.
Qed.

(** X13. The accounts come out in the order in which their names first appear
    in the data rows, each name once and no blank name: of all rows for a
    register, of the rows of the latest month for a net worth report. *)
Theorem accounts_in_order_of_first_appearance (rows : list (list jsstring))
    (accs : list YNABParsedAccount) :
  (parseRegister rows = inr accs ->
   map name accs = firstOccurrences (accountNames (accountIdxOf rows) (tl rows)))
  /\ (parseNetWorthReport rows = inr accs ->
      map name accs
      = firstOccurrences
          (accountNames (accountIdxOf rows)
             (filter (monthSelected (monthIdxOf rows)
                                    (mostRecentMonthOf (monthIdxOf rows) (tl rows)))
                     (tl rows)))).
Proof.
  split.
  - unfold parseRegister.
    fold (accountIdxOf rows) (inflowIdxOf rows) (outflowIdxOf rows).
    destruct (length rows <? 2)%nat eqn:Hlen.
    { intros [= <-]. now rewrite (short_rows_no_data _ Hlen). }
    destruct ((accountIdxOf rows =? -1)%Z || (inflowIdxOf rows =? -1)%Z
              || (outflowIdxOf rows =? -1)%Z); [discriminate|].
    intros [= <-].
    rewrite (fold_left_ext_eq _ (map_step (registerUpdate (accountIdxOf rows)
                                             (inflowIdxOf rows) (outflowIdxOf rows)))
               (tl rows) [] (registerStep_map_step _ _ _)).
    rewrite names_registerAccount, fold_keys_order. cbn [map fst app existsb negb].
    rewrite filter_true. f_equal. unfold accountNames. apply flat_map_ext. intros row.
    unfold registerUpdate. destruct (cell row (accountIdxOf rows)) as [a|]; [|reflexivity].
    now destruct (blankName (Some a)).
  - unfold parseNetWorthReport.
    fold (accountIdxOf rows) (typeIdxOf rows) (balanceIdxOf rows) (monthIdxOf rows).
    destruct (length rows <? 2)%nat eqn:Hlen.
    { intros [= <-]. now rewrite (short_rows_no_data _ Hlen). }
    destruct ((accountIdxOf rows =? -1)%Z || (balanceIdxOf rows =? -1)%Z); [discriminate|].
    intros [= <-].
    set (mrm := mostRecentMonthOf (monthIdxOf rows) (tl rows)).
    set (contrib := netWorthContribution (accountIdxOf rows) (typeIdxOf rows)
                      (balanceIdxOf rows) (monthIdxOf rows) mrm).
    set (upd := fun r => match contrib r with
                         | Some (k, v) => Some (k, fun _ : option netWorthEntry => v)
                         | None => None
                         end).
    rewrite (fold_left_ext_eq _ (map_step upd) (tl rows) []
               (netWorthStep_map_step _ _ _ _ mrm)).
    rewrite names_netWorthAccount, fold_keys_order. cbn [map fst app existsb negb].
    rewrite filter_true. f_equal. unfold accountNames. rewrite flat_map_filter.
    apply flat_map_ext. intros row. subst upd contrib. cbv beta.
    unfold netWorthContribution.
    destruct (monthSelected (monthIdxOf rows) mrm row); [|reflexivity].
    destruct (cell row (accountIdxOf rows)) as [a|]; [|reflexivity].
    now destruct (blankName (Some a)).
Qed.

(** ** The edit distance of the similarity score *)

Lemma levRec_upper a b : forall i j, levRec a b i j <= Nat.max i j.
Proof.
  induction i as [|i IHi]; intros j; [cbn [levRec]; lia|].
  induction j as [|j IHj]; [rewrite levRec_0_r; lia|].
  rewrite levRec_S_S. pose proof (IHi j). pose proof (IHi (S j)).
  destruct (nth i b 0 =? nth j a 0)%N; lia.
Qed.

Lemma levRec_lower a b : forall i j, Nat.max i j - Nat.min i j <= levRec a b i j.
Proof.
  induction i as [|i IHi]; intros j; [cbn [levRec]; lia|].
  induction j as [|j IHj]; [rewrite levRec_0_r; lia|].
  rewrite levRec_S_S. pose proof (IHi j). pose proof (IHi (S j)).
  destruct (nth i b 0 =? nth j a 0)%N; lia.
Qed.

Lemma levRec_zero a b : forall i j,
  levRec a b i j = 0 <-> i = j /\ forall k, k < i -> nth k b 0%N = nth k a 0%N.
Proof.
  induction i as [|i IHi]; intros j.
  - cbn [levRec]. split.
    + intros ->. split; [reflexivity | intros; lia].
    + intros [-> _]. reflexivity.
  - destruct j as [|j]; [rewrite levRec_0_r; split; [discriminate | intros [[=] _]]|].
    rewrite levRec_S_S. destruct (N.eqb_spec (nth i b 0%N) (nth j a 0%N)) as [E|E].
    + rewrite IHi. split.
      * intros [-> H]. split; [reflexivity|]. intros k Hk.
        destruct (Nat.eq_dec k j) as [->|]; [exact E | apply H; lia].
      * intros [[= ->] H]. split; [reflexivity|]. intros k Hk. apply H. lia.
    + split; [lia|]. intros [[= ->] H]. exfalso. apply E, H. lia.
Qed.

(** X16. The number the three loops leave in the last cell of the table lies
    between the difference of the two lengths and the greater length, and
    is zero only for equal strings. *)
Theorem levMatrix_distance_bounds (a b : jsstring) :
  let distance := mat_get (levMatrix a b) (length b) (length a) in
  Nat.max (length a) (length b) - Nat.min (length a) (length b) <= distance
  /\ distance <= Nat.max (length a) (length b)
  /\ (distance = 0 <-> a = b).
Proof.
  cbv zeta. rewrite levMatrix_distance.
  pose proof (levRec_upper a b (length b) (length a)).
  pose proof (levRec_lower a b (length b) (length a)).
  split; [lia|]. split; [lia|]. rewrite levRec_zero. split.
  - intros [Hlen Hnth]. symmetry. apply (nth_ext b a 0%N 0%N); [exact Hlen | exact Hnth].
  - intros ->. split; reflexivity.
Qed.

(** * Properties of the reconciler *)

Lemma find_first (A : Type) (f : A -> bool) (l : list A) (x : A) :
  find f l = Some x ->
  exists pre post, l = pre ++ x :: post /\ f x = true /\ forall a, In a pre -> f a = false.
Proof.
  induction l as [|y l IH]; [discriminate|]. cbn [find].
  destruct (f y) eqn:E.
  - intros [= ->]. exists [], l. repeat split; [exact E | intros ? []].
  - intros H. destruct (IH H) as (pre & post & -> & Hx & Hpre).
    exists (y :: pre), post. repeat split; [exact Hx|].
    intros a [<-|Ha]; [exact E | now apply Hpre].
Qed.

Lemma insertSorted_Permutation (A : Type) (comparefn : A -> A -> number) (x : A)
    (l : list A) : Permutation (insertSorted comparefn x l) (x :: l).
Proof.
  induction l as [|y l IH]; [reflexivity|]. cbn [insertSorted].
  destruct (num_positive (comparefn x y)); [|reflexivity].
  rewrite IH. apply perm_swap.
Qed.

Lemma sort_Permutation (A : Type) (comparefn : A -> A -> number) (l : list A) :
  Permutation (sort comparefn l) l.
Proof.
  induction l as [|x l IH]; [reflexivity|]. unfold sort. cbn [fold_right].
  fold (sort comparefn l). rewrite insertSorted_Permutation. now constructor.
Qed.

(** The candidates of a parsed account, as [initialMappings] computes them. *)
Lemma fuzzy_candidates (existingAccounts : list Account) (y : YNABParsedAccount) :
  Permutation
    (sort (fun a b => num_sub (snd b) (snd a))
          (filter (fun m => num_geb (snd m) FUZZY_THRESHOLD)
                  (map (fun acc => (acc, stringSimilarity (name y) (accountName acc)))
                       existingAccounts)))
    (map (scored y) (filter (candidate y) existingAccounts)).
Proof.
  rewrite sort_Permutation.
  induction existingAccounts as [|a l IH]; [reflexivity|].
  cbn [map filter]. unfold candidate at 1. cbn [snd].
  destruct (num_geb _ _); [cbn [map]; now constructor | exact IH].
Qed.

Lemma sameName_similarity (acc : Account) (y : YNABParsedAccount) :
  sameName acc y = true ->
  stringSimilarity (name y) (accountName acc) = round_decimal false 1 0.
Proof.
  unfold sameName, stringSimilarity. intros H.
  now rewrite jsstring_eqb_sym, H.
Qed.

(** The three shapes of a mapping of [initialMappings]. *)
Lemma initialMapping_cases (existingAccounts : list Account) (defaultCurrency : Currency)
    (y : YNABParsedAccount) :
  let candidates :=
    sort (fun a b => num_sub (snd b) (snd a))
         (filter (fun m => num_geb (snd m) FUZZY_THRESHOLD)
                 (map (fun acc => (acc, stringSimilarity (name y) (accountName acc)))
                      existingAccounts)) in
  (exists acc,
      find (fun acc => sameName acc y) existingAccounts = Some acc
      /\ initialMapping existingAccounts defaultCurrency y
         = mkMapping y Exact (Some acc) None (Some (accountId acc)) true
                     (accountCategory acc) (accountAccessType acc) (accountCurrency acc))
  \/ (find (fun acc => sameName acc y) existingAccounts = None
      /\ candidates <> []
      /\ initialMapping existingAccounts defaultCurrency y
         = mkMapping y Fuzzy None (Some candidates) None true
                     (suggestedCategory y) (suggestedAccessType y) defaultCurrency)
  \/ (find (fun acc => sameName acc y) existingAccounts = None
      /\ candidates = []
      /\ initialMapping existingAccounts defaultCurrency y
         = mkMapping y New None None None true
                     (suggestedCategory y) (suggestedAccessType y) defaultCurrency).
Proof.
  intros candidates. unfold initialMapping. fold candidates.
  change (fun acc => jsstring_eqb (trim (toLowerCase (accountName acc)))
                                  (trim (toLowerCase (name y))))
    with (fun acc => sameName acc y).
  destruct (find (fun acc => sameName acc y) existingAccounts) as [acc|].
  - left. now exists acc.
  - right. destruct candidates as [|c cs].
    + right. auto.
    + left. repeat split. discriminate.
Qed.

(** X17. There is one mapping per parsed account, in order, each included.  A
    mapping is exact when some existing account has the same name up to
    case and surrounding white space; it then refers to the first such
    account, whose category, access type and currency it takes, and whose
    similarity to the parsed name is 1. *)
Theorem initialMappings_exact_match (parsedAccounts : list YNABParsedAccount)
    (existingAccounts : list Account) (defaultCurrency : Currency) :
  let mappings := initialMappings parsedAccounts existingAccounts defaultCurrency in
  map ynabAccount mappings = parsedAccounts
  /\ (forall m, In m mappings -> include m = true)
  /\ (forall m, In m mappings ->
        (matchType m = Exact <->
         exists acc, In acc existingAccounts /\ sameName acc (ynabAccount m) = true)
        /\ (matchType m = Exact ->
            exists pre acc post,
              existingAccounts = pre ++ acc :: post
              /\ sameName acc (ynabAccount m) = true
              /\ (forall a, In a pre -> sameName a (ynabAccount m) = false)
              /\ stringSimilarity (name (ynabAccount m)) (accountName acc)
                 = round_decimal false 1 0
              /\ matchedAccount m = Some acc
              /\ selectedMatchId m = Some (accountId acc)
              /\ fuzzyMatches m = None
              /\ category m = accountCategory acc
              /\ accessType m = accountAccessType acc
              /\ currency m = accountCurrency acc)).
Proof.
  cbv zeta. unfold initialMappings. split; [|split].
  - rewrite map_map. rewrite <- (map_id parsedAccounts) at 2. apply map_ext.
    intros y.
    destruct (initialMapping_cases existingAccounts defaultCurrency y)
      as [(acc & _ & ->)|[(_ & _ & ->)|(_ & _ & ->)]]; reflexivity.
  - intros m Hm. apply in_map_iff in Hm as (y & <- & _).
    destruct (initialMapping_cases existingAccounts defaultCurrency y)
      as [(acc & _ & ->)|[(_ & _ & ->)|(_ & _ & ->)]]; reflexivity.
  - intros m Hm. apply in_map_iff in Hm as (y & <- & _).
    destruct (initialMapping_cases existingAccounts defaultCurrency y)
      as [(acc & F & ->)|[(F & _ & ->)|(F & _ & ->)]];
      cbn [matchType ynabAccount matchedAccount selectedMatchId fuzzyMatches category
           accessType currency].
    + destruct (find_first _ _ F) as (pre & post & E & Hacc & Hpre).
      split.
      * split; [intros _ | reflexivity]. exists acc. split; [|exact Hacc].
        rewrite E. apply in_elt.
      * intros _. exists pre, acc, post. repeat split; auto.
        now apply sameName_similarity.
    + pose proof (find_none _ _ F) as Hnone. cbv beta in Hnone.
      split; [|discriminate]. split; [discriminate|].
      intros (acc & Hin & Hacc). rewrite (Hnone acc Hin) in Hacc. discriminate.
    + pose proof (find_none _ _ F) as Hnone. cbv beta in Hnone.
      split; [|discriminate]. split; [discriminate|].
      intros (acc & Hin & Hacc). rewrite (Hnone acc Hin) in Hacc. discriminate.
Qed.

(** X18. A mapping that is not exact takes its category and access type from
    the classifier and the default currency, and nothing is selected.  It
    is fuzzy exactly when some existing account reaches the threshold; its
    candidates are then those accounts with their scores, none left out
    and none below the threshold; otherwise it is new, without candidates. *)
Theorem initialMappings_fuzzy_or_new (parsedAccounts : list YNABParsedAccount)
    (existingAccounts : list Account) (defaultCurrency : Currency) (m : AccountMapping) :
  In m (initialMappings parsedAccounts existingAccounts defaultCurrency) ->
  matchType m <> Exact ->
  matchedAccount m = None
  /\ selectedMatchId m = None
  /\ category m = suggestedCategory (ynabAccount m)
  /\ accessType m = suggestedAccessType (ynabAccount m)
  /\ currency m = defaultCurrency
  /\ (matchType m = Fuzzy <->
      exists acc, In acc existingAccounts /\ candidate (ynabAccount m) acc = true)
  /\ (matchType m = Fuzzy ->
      exists l, fuzzyMatches m = Some l
                /\ Permutation l (map (scored (ynabAccount m))
                                      (filter (candidate (ynabAccount m)) existingAccounts)))
  /\ (matchType m = New -> fuzzyMatches m = None).
Proof.
  intros Hm Hne. unfold initialMappings in Hm. apply in_map_iff in Hm as (y & <- & _).
  pose proof (fuzzy_candidates existingAccounts y) as P.
  destruct (initialMapping_cases existingAccounts defaultCurrency y)
    as [(acc & _ & E)|[(_ & Hc & E)|(_ & Hc & E)]]; rewrite E in *;
    cbn [matchType ynabAccount matchedAccount selectedMatchId fuzzyMatches category
         accessType currency] in *.
  - congruence.
  - repeat split; try discriminate; eauto.
    intros _.
    destruct (filter (candidate y) existingAccounts) as [|acc l] eqn:F.
    + apply Permutation_sym, Permutation_nil in P. congruence.
    + exists acc. apply filter_In. rewrite F. now left.
  - repeat split; try discriminate.
    intros (acc & Hin & Hcand). rewrite Hc in P.
    assert (Hf : In acc (filter (candidate y) existingAccounts))
      by (apply filter_In; auto).
    apply (in_map (scored y)) in Hf.
    apply Permutation_sym in P. apply (Permutation_in _ P) in Hf. destruct Hf.
Qed.

(** ** Summary *)

Lemma categoryName_asset (c : AccountCategory) :
  includes (categoryName c) (str "asset") = negb (is_liability c)
  /\ includes (categoryName c) (str "liability") = is_liability c.
Proof. destruct c; split; vm_compute; reflexivity. Qed.

Lemma matchType_partition (m : AccountMapping) :
  count (matchType_is Exact m) + count (matchType_is Fuzzy m && hasSelection m)
  + count (matchType_is Fuzzy m && negb (hasSelection m)) + count (matchType_is New m) = 1.
Proof.
  unfold matchType_is. destruct (matchType m), (hasSelection m); reflexivity.
Qed.

Lemma length_filter_count (A : Type) (p : A -> bool) (l : list A) :
  length (filter p l) = list_sum (map (fun x => count (p x)) l).
Proof.
  induction l as [|x l IH]; [reflexivity|]. simpl.
  destruct (p x); simpl; lia.
Qed.

Lemma unconfirmed_count (mappings : list AccountMapping) :
  length (filter (fun m => matchType_is Fuzzy m && negb (hasSelection m))
                 (filter include mappings))
  = length (filter unconfirmed mappings).
Proof.
  rewrite filter_filter. f_equal. apply filter_ext. intros m.
  unfold unconfirmed. now rewrite andb_assoc.
Qed.

Lemma canImport_spec (mappings : list AccountMapping) :
  canImport (summary mappings) = true
  <-> filter include mappings <> [] /\ forall m, In m mappings -> unconfirmed m = false.
Proof.
  unfold summary. cbn [canImport].
  rewrite unconfirmed_count, andb_true_iff, Nat.eqb_eq, Nat.ltb_lt. split.
  - intros [H0 Hpos]. split; [intros E; rewrite E in Hpos; cbn in Hpos; lia|].
    intros m Hm. destruct (unconfirmed m) eqn:E; [|reflexivity].
    assert (Hin : In m (filter unconfirmed mappings)) by (apply filter_In; auto).
    destruct (filter unconfirmed mappings); [destruct Hin | discriminate].
  - intros [Hne Hall]. split.
    + destruct (filter unconfirmed mappings) as [|m l] eqn:E; [reflexivity|].
      assert (Hin : In m (filter unconfirmed mappings)) by (rewrite E; now left).
      apply filter_In in Hin as [Hin Hm]. rewrite (Hall m Hin) in Hm. discriminate.
    + destruct (filter include mappings); [congruence | cbn; lia].
Qed.

(** X20. The counters of the summary split the included mappings: each is
    exact, confirmed, unconfirmed or new, and enters the total of the
    assets or that of the liabilities, never both.  Importing is allowed
    exactly when some mapping is included and none awaits confirmation;
    what is imported is then the included mappings. *)
Theorem summary_counts (mappings : list AccountMapping) :
  let s := summary mappings in
  total s = length (handleImport mappings)
  /\ exact s + fuzzyConfirmed s + fuzzyUnconfirmed s + newAccounts s = total s
  /\ fuzzyUnconfirmed s = length (filter unconfirmed mappings)
  /\ (canImport s = true <->
      handleImport mappings <> [] /\ forall m, In m mappings -> unconfirmed m = false)
  /\ totalAssets s
     = fold_left (fun sum m => num_add sum (balance (ynabAccount m)))
                 (filter (fun m => negb (is_liability (category m))) (handleImport mappings))
                 num_zero
  /\ totalLiabilities s
     = fold_left (fun sum m => num_add sum (balance (ynabAccount m)))
                 (filter (fun m => is_liability (category m)) (handleImport mappings))
                 num_zero.
Proof.
  cbv zeta. split; [reflexivity|]. split; [|split; [|split; [|split]]].
  - unfold summary. cbn [total exact fuzzyConfirmed fuzzyUnconfirmed newAccounts].
    generalize (filter include mappings). intros included.
    rewrite !length_filter_count.
    induction included as [|m l IH]; [reflexivity|].
    simpl map. simpl list_sum. simpl length.
    pose proof (matchType_partition m). lia.
  - apply unconfirmed_count.
  - apply canImport_spec.
  - unfold summary, handleImport. cbn [totalAssets].
    f_equal. apply filter_ext. intros m. apply categoryName_asset.
  - unfold summary, handleImport. cbn [totalLiabilities].
    f_equal. apply filter_ext. intros m. apply categoryName_asset.
Qed.

(** X19. Right after the matching, importing is allowed exactly when there is a
    parsed account and each one either has an exact match or no existing
    account near its name. *)
Theorem initialMappings_canImport (parsedAccounts : list YNABParsedAccount)
    (existingAccounts : list Account) (defaultCurrency : Currency) :
  canImport (summary (initialMappings parsedAccounts existingAccounts defaultCurrency)) = true
  <-> parsedAccounts <> []
      /\ forall y, In y parsedAccounts ->
           (exists acc, In acc existingAccounts /\ sameName acc y = true)
           \/ (forall acc, In acc existingAccounts -> candidate y acc = false).
Proof.
  assert (Hun : forall y,
            unconfirmed (initialMapping existingAccounts defaultCurrency y) = false
            <-> (exists acc, In acc existingAccounts /\ sameName acc y = true)
                \/ (forall acc, In acc existingAccounts -> candidate y acc = false)).
  { intros y. pose proof (fuzzy_candidates existingAccounts y) as P.
    destruct (initialMapping_cases existingAccounts defaultCurrency y)
      as [(acc & F & ->)|[(F & Hc & ->)|(F & Hc & ->)]].
    - split; [intros _ | reflexivity]. left. exists acc.
      apply find_some in F. exact F.
    - split; [discriminate|]. intros [(acc & Hin & Hacc)|Hnone]; exfalso.
      + rewrite (find_none _ _ F acc Hin) in Hacc. discriminate.
      + apply Hc. apply Permutation_nil. apply Permutation_sym.
        replace (filter (candidate y) existingAccounts) with (@nil Account) in P;
          [exact P|].
        symmetry. destruct (filter (candidate y) existingAccounts) as [|a l] eqn:E;
          [reflexivity|].
        assert (Hin : In a (filter (candidate y) existingAccounts)) by (rewrite E; now left).
        apply filter_In in Hin as [Hin Ha]. rewrite (Hnone a Hin) in Ha. discriminate.
    - split; [intros _ | reflexivity]. right. intros acc Hin.
      destruct (candidate y acc) eqn:E; [|reflexivity]. rewrite Hc in P.
      assert (Hf : In acc (filter (candidate y) existingAccounts))
        by (apply filter_In; auto).
      apply (in_map (scored y)) in Hf.
      apply Permutation_sym in P. apply (Permutation_in _ P) in Hf. destruct Hf. }
  assert (Hinc : handleImport (initialMappings parsedAccounts existingAccounts
                                 defaultCurrency)
                 = initialMappings parsedAccounts existingAccounts defaultCurrency).
  { unfold handleImport, initialMappings. apply forallb_filter_id, forallb_forall.
    intros m Hm. apply in_map_iff in Hm as (y & <- & _).
    destruct (initialMapping_cases existingAccounts defaultCurrency y)
      as [(acc & _ & ->)|[(_ & _ & ->)|(_ & _ & ->)]]; reflexivity. }
  rewrite canImport_spec. fold (handleImport (initialMappings parsedAccounts
                                               existingAccounts defaultCurrency)).
  rewrite Hinc. unfold initialMappings. split.
  - intros [Hne Hall]. split; [intros ->; now apply Hne|].
    intros y Hy. apply Hun, Hall. now apply in_map.
  - intros [Hne Hall]. split; [destruct parsedAccounts; [congruence | discriminate]|].
    intros m Hm. apply in_map_iff in Hm as (y & <- & Hy). now apply Hun, Hall.
Qed.

(** ** Editing the mappings *)

Lemma updateMapping_split (i : nat) (f : AccountMapping -> AccountMapping)
    (ms : list AccountMapping) (m : AccountMapping) :
  nth_error ms i = Some m ->
  exists pre post, ms = pre ++ m :: post /\ length pre = i
                   /\ updateMapping i f ms = pre ++ f m :: post.
Proof.
  revert i. induction ms as [|x ms IH]; intros [|i] H; try discriminate.
  - injection H as ->. now exists [], ms.
  - cbn [nth_error] in H. destruct (IH i H) as (pre & post & -> & Hlen & E).
    exists (x :: pre), post. cbn [updateMapping length app]. rewrite E. auto.
Qed.

Lemma updateMapping_out_of_range (i : nat) (f : AccountMapping -> AccountMapping)
    (ms : list AccountMapping) :
  nth_error ms i = None -> updateMapping i f ms = ms.
Proof.
  revert i. induction ms as [|x ms IH]; intros [|i] H; try reflexivity; try discriminate.
  cbn [updateMapping]. now rewrite IH.
Qed.

Lemma count_update (p : AccountMapping -> bool) (i : nat)
    (f : AccountMapping -> AccountMapping) (ms : list AccountMapping) (m : AccountMapping) :
  nth_error ms i = Some m ->
  length (filter p (updateMapping i f ms)) + count (p m)
  = length (filter p ms) + count (p (f m)).
Proof.
  intros H. destruct (@updateMapping_split i f _ _ H) as (pre & post & -> & _ & ->).
  rewrite !filter_app, !length_app. cbn [filter].
  destruct (p m), (p (f m)); cbn [length count]; lia.
Qed.

(** What an update of one mapping does to the counters of the summary. *)
Lemma summary_update (i : nat) (f : AccountMapping -> AccountMapping)
    (ms : list AccountMapping) (m : AccountMapping) :
  nth_error ms i = Some m ->
  let s := summary ms in
  let s' := summary (updateMapping i f ms) in
  total s' + count (include m) = total s + count (include (f m))
  /\ exact s' + count (include m && matchType_is Exact m)
     = exact s + count (include (f m) && matchType_is Exact (f m))
  /\ fuzzyConfirmed s' + count (include m && (matchType_is Fuzzy m && hasSelection m))
     = fuzzyConfirmed s
       + count (include (f m) && (matchType_is Fuzzy (f m) && hasSelection (f m)))
  /\ fuzzyUnconfirmed s'
     + count (include m && (matchType_is Fuzzy m && negb (hasSelection m)))
     = fuzzyUnconfirmed s
       + count (include (f m) && (matchType_is Fuzzy (f m) && negb (hasSelection (f m))))
  /\ newAccounts s' + count (include m && matchType_is New m)
     = newAccounts s + count (include (f m) && matchType_is New (f m)).
Proof.
  intros H. cbv zeta. unfold summary.
  cbn [total exact fuzzyConfirmed fuzzyUnconfirmed newAccounts].
  rewrite !filter_filter. repeat split;
    match goal with
    | |- context [filter ?p (updateMapping i f ms)] => exact (@count_update p i f ms m H)
    end.
Qed.

(** Every selection other than new, for a mapping that is there, is one
    update that keeps the parsed account, the inclusion and the match type,
    stores the identifier and the account found under it, if any. *)
Lemma handleSelectMatch_update (existingAccounts : list Account) (i : nat)
    (selectedId : jsstring) (ms : list AccountMapping) (m : AccountMapping) :
  nth_error ms i = Some m -> selectedId <> str "new" ->
  exists f, handleSelectMatch existingAccounts i selectedId ms = Some (updateMapping i f ms)
            /\ forall x, ynabAccount (f x) = ynabAccount x
                         /\ include (f x) = include x
                         /\ matchType (f x) = matchType x
                         /\ selectedMatchId (f x) = Some selectedId
                         /\ matchedAccount (f x)
                            = find (fun a => jsstring_eqb (accountId a) selectedId)
                                   existingAccounts.
Proof.
  intros H Hnew. unfold handleSelectMatch. rewrite H.
  destruct (jsstring_eqb_spec selectedId (str "new")) as [E|_]; [congruence|].
  destruct (find _ existingAccounts) as [a|].
  - destruct (str_truthy (accountCurrency a)); eexists; (split; [reflexivity|]);
      intros x; repeat split.
  - eexists. split; [reflexivity|]. intros x. repeat split.
Qed.

(** X21. An included fuzzy mapping that awaits confirmation is resolved by each
    of three edits, which take it out of the unconfirmed count: leaving it
    out, making it a new account, or selecting an account.  A selection
    counts as a confirmation whenever its identifier is not empty, also
    when no existing account bears it. *)
Theorem resolving_a_fuzzy_mapping (existingAccounts : list Account) (i : nat)
    (ms : list AccountMapping) (m : AccountMapping) :
  nth_error ms i = Some m -> unconfirmed m = true ->
  let s := summary ms in
  (let s' := summary (updateMapping i (setInclude false) ms) in
   fuzzyUnconfirmed s' + 1 = fuzzyUnconfirmed s /\ total s' + 1 = total s
   /\ exact s' = exact s /\ fuzzyConfirmed s' = fuzzyConfirmed s
   /\ newAccounts s' = newAccounts s)
  /\ (exists ms', handleSelectMatch existingAccounts i (str "new") ms = Some ms'
        /\ let s' := summary ms' in
           fuzzyUnconfirmed s' + 1 = fuzzyUnconfirmed s /\ total s' = total s
           /\ exact s' = exact s /\ fuzzyConfirmed s' = fuzzyConfirmed s
           /\ newAccounts s' = newAccounts s + 1)
  /\ (forall selectedId, selectedId <> str "new" -> selectedId <> [] ->
        exists ms', handleSelectMatch existingAccounts i selectedId ms = Some ms'
          /\ (let s' := summary ms' in
              fuzzyUnconfirmed s' + 1 = fuzzyUnconfirmed s /\ total s' = total s
              /\ exact s' = exact s /\ fuzzyConfirmed s' = fuzzyConfirmed s + 1
              /\ newAccounts s' = newAccounts s)
          /\ exists m', nth_error ms' i = Some m'
               /\ matchType m' = Fuzzy
               /\ selectedMatchId m' = Some selectedId
               /\ matchedAccount m'
                  = find (fun a => jsstring_eqb (accountId a) selectedId) existingAccounts).
Proof.
  intros H Hun. cbv zeta.
  unfold unconfirmed in Hun. apply andb_true_iff in Hun as [Hun Hsel].
  apply andb_true_iff in Hun as [Hinc Hfz]. apply negb_true_iff in Hsel.
  assert (Hmt : matchType m = Fuzzy)
    by (unfold matchType_is in Hfz; destruct (matchType m); congruence).
  assert (Hex : matchType_is Exact m = false) by (unfold matchType_is; now rewrite Hmt).
  assert (Hnw : matchType_is New m = false) by (unfold matchType_is; now rewrite Hmt).
  split; [|split].
  - destruct (@summary_update i (setInclude false) ms m H) as (Ht & He & Hc & Hu & Hn).
    cbn [setInclude include andb] in *.
    rewrite Hinc, Hfz, Hsel, ?Hex, ?Hnw in *. cbn [andb negb count] in *. lia.
  - eexists. split; [unfold handleSelectMatch; now rewrite jsstring_eqb_refl|].
    match goal with
    | |- context [updateMapping i ?f ms] =>
        destruct (@summary_update i f ms m H) as (Ht & He & Hc & Hu & Hn)
    end.
    cbv zeta. cbn [include matchType matchType_is hasSelection selectedMatchId] in *.
    rewrite Hinc, Hfz, Hsel, ?Hex, ?Hnw in *. cbn [andb negb count] in *. lia.
  - intros selectedId Hnew Hne.
    destruct (@handleSelectMatch_update existingAccounts i selectedId ms m H Hnew)
      as (f & -> & Hf).
    destruct (Hf m) as (_ & Hfi & Hft & Hfs & Hfm).
    exists (updateMapping i f ms). split; [reflexivity|]. split.
    + destruct (@summary_update i f ms m H) as (Ht & He & Hc & Hu & Hn).
      assert (Hsel' : hasSelection (f m) = true).
      { unfold hasSelection. rewrite Hfs. now destruct selectedId. }
      unfold matchType_is in *. rewrite Hfi, Hft, Hsel', Hmt, Hinc, Hsel in *.
      cbn [andb negb count] in *. lia.
    + exists (f m). split; [|repeat split; congruence].
      destruct (@updateMapping_split i f _ _ H) as (pre & post & _ & Hlen & ->).
      rewrite nth_error_app2 by lia. now rewrite Hlen, Nat.sub_diag.
Qed.

(** X22. A selection for a mapping of the list never fails, keeps the number of
    mappings and the parsed account of each, and leaves every other mapping
    as it was. *)
Theorem handleSelectMatch_touches_one_mapping (existingAccounts : list Account) (i : nat)
    (selectedId : jsstring) (ms : list AccountMapping) :
  i < length ms ->
  exists ms', handleSelectMatch existingAccounts i selectedId ms = Some ms'
              /\ length ms' = length ms
              /\ map ynabAccount ms' = map ynabAccount ms
              /\ forall j, j <> i -> nth_error ms' j = nth_error ms j.
Proof.
  intros Hi. destruct (nth_error ms i) as [m|] eqn:H;
    [|apply nth_error_None in H; lia].
  assert (G : forall f, (forall x, ynabAccount (f x) = ynabAccount x) ->
                length (updateMapping i f ms) = length ms
                /\ map ynabAccount (updateMapping i f ms) = map ynabAccount ms
                /\ forall j, j <> i -> nth_error (updateMapping i f ms) j = nth_error ms j).
  { intros f Hf. destruct (@updateMapping_split i f _ _ H) as (pre & post & -> & Hlen & ->).
    split; [now rewrite !length_app|]. split.
    - rewrite !map_app. cbn [map]. now rewrite Hf.
    - intros j Hj. destruct (Nat.lt_ge_cases j (length pre)) as [Hlt|Hge].
      + now rewrite !nth_error_app1.
      + rewrite !nth_error_app2 by exact Hge.
        destruct (j - length pre) as [|k] eqn:E; [lia | reflexivity]. }
  destruct (jsstring_eqb_spec selectedId (str "new")) as [->|Hnew].
  - eexists. split; [unfold handleSelectMatch; now rewrite jsstring_eqb_refl|].
    apply G. reflexivity.
  - destruct (@handleSelectMatch_update existingAccounts i selectedId ms m H Hnew)
      as (f & -> & Hf).
    eexists. split; [reflexivity|]. apply G. intros x. apply Hf.
Qed.

(** * Properties of the format detection *)

Lemma has_header (s : jsstring) (headerSet : list jsstring) :
  existsb (jsstring_eqb s) headerSet = true <-> In s headerSet.
Proof.
  rewrite existsb_exists. split.
  - intros (x & Hin & E). destruct (jsstring_eqb_spec s x); [now subst | discriminate].
  - intros Hin. exists s. split; [exact Hin | apply jsstring_eqb_refl].
Qed.

Lemma has_header_ext (s : jsstring) (l l' : list jsstring) :
  (forall h, In h l <-> In h l') ->
  existsb (jsstring_eqb s) l = existsb (jsstring_eqb s) l'.
Proof.
  intros H. apply eq_true_iff_eq. now rewrite !has_header.
Qed.

(** X10. The format depends on the header row only through the set of its
    lower-cased, trimmed names: order, repetition, case and surrounding
    white space of the headers play no part.  A net worth report is
    recognised by month and account type, also when the register columns
    are all there; a register by inflow, outflow and account otherwise. *)
Theorem detectYNABFormat_by_header_set (headers headers' : list jsstring) :
  let headerSet := map (fun h => trim (toLowerCase h)) headers in
  let headerSet' := map (fun h => trim (toLowerCase h)) headers' in
  ((forall h, In h headerSet <-> In h headerSet') ->
   detectYNABFormat headers = detectYNABFormat headers')
  /\ (detectYNABFormat headers = Some networth
      <-> In (str "month") headerSet /\ In (str "account type") headerSet)
  /\ (detectYNABFormat headers = Some register
      <-> ~ (In (str "month") headerSet /\ In (str "account type") headerSet)
          /\ In (str "inflow") headerSet /\ In (str "outflow") headerSet
          /\ In (str "account") headerSet).
Proof.
  cbv zeta. unfold detectYNABFormat. split; [|split].
  - intros H. now rewrite !(@has_header_ext _ _ _ H).
  - rewrite <- !has_header.
    destruct (existsb (jsstring_eqb (str "month")) _),
             (existsb (jsstring_eqb (str "account type")) _); cbn [andb];
      try (split; [reflexivity | intros [? ?]; discriminate]);
      try (split; [tauto | reflexivity]);
      (split; [|intros [? ?]; discriminate]);
      destruct (_ && _); discriminate.
  - rewrite <- !has_header.
    destruct (existsb (jsstring_eqb (str "month")) _),
             (existsb (jsstring_eqb (str "account type")) _),
             (existsb (jsstring_eqb (str "inflow")) _),
             (existsb (jsstring_eqb (str "outflow")) _),
             (existsb (jsstring_eqb (str "account")) _); cbn [andb];
      split; try discriminate; try tauto;
      try (intros (_ & ? & ? & ?); discriminate);
      try (intros _; repeat split; try reflexivity; intros [? ?]; discriminate).
Qed.

(** * The accounts of a successful import *)

Lemma register_suggestions (rows : list (list jsstring)) (accs : list YNABParsedAccount)
    (acc : YNABParsedAccount) :
  parseRegister rows = inr accs -> In acc accs ->
  ynabType acc = None
  /\ (suggestedCategory acc, suggestedAccessType acc) = suggestAccountType (name acc) None.
Proof.
  unfold parseRegister. destruct (length rows <? 2)%nat; [intros [= <-] []|].
  destruct (_ || _); [discriminate|]. intros [= <-] Hin.
  apply in_map_iff in Hin as ([k b] & <- & _). cbn.
  now destruct (suggestAccountType k None).
Qed.

Lemma netWorth_suggestions (rows : list (list jsstring)) (accs : list YNABParsedAccount)
    (acc : YNABParsedAccount) :
  parseNetWorthReport rows = inr accs -> In acc accs ->
  (suggestedCategory acc, suggestedAccessType acc)
  = suggestAccountType (name acc) (ynabType acc).
Proof.
  unfold parseNetWorthReport. destruct (length rows <? 2)%nat; [intros [= <-] []|].
  destruct (_ || _); [discriminate|]. intros [= <-] Hin.
  apply in_map_iff in Hin as ([k [b t]] & <- & _). cbn.
  now destruct (suggestAccountType k t).
Qed.

Lemma in_tl (A : Type) (x : A) (l : list A) : In x (tl l) -> In x l.
Proof. destruct l; [intros [] | now right]. Qed.

(** X15. In the result of an import the names of the accounts are pairwise
    different, not empty and trimmed; the suggested category and access
    type of each account are those of the classifier on its name and type
    hint, and an account of a register has no type hint. *)
Theorem parseYNABCSV_accounts_well_formed (Date : Type) (now : Date) (csvText : jsstring)
    (res : YNABParseResult Date) :
  parseYNABCSV now csvText = inr res ->
  NoDup (map name (accounts res))
  /\ forall acc, In acc (accounts res) ->
       name acc <> [] /\ trim (name acc) = name acc
       /\ (suggestedCategory acc, suggestedAccessType acc)
          = suggestAccountType (name acc) (ynabType acc)
       /\ (format res = register -> ynabType acc = None).
Proof.
  rewrite parseYNABCSV_cascade. cbv zeta.
  destruct (parseCSV csvText) as [|r0 rs] eqn:Erows; [discriminate|].
  destruct (detectYNABFormat (hd [] (r0 :: rs))) as [fmt|]; [|discriminate].
  destruct ((2 <=? length (r0 :: rs))%nat && missingColumns fmt (r0 :: rs)); [discriminate|].
  destruct (aggregate fmt (r0 :: rs)) as [e|[|a accs]] eqn:Eagg; try discriminate.
  intros [= <-]. cbn [accounts format].
  assert (Hcell : forall row n idx, In row (tl (r0 :: rs)) -> cell row idx = Some n ->
                    trim n = n).
  { intros row n idx Hrow Hc. apply (@parseCSV_cell_trimmed csvText row idx n); [|exact Hc].
    rewrite Erows. now apply in_tl. }
  destruct fmt; cbn [aggregate] in Eagg.
  - destruct (register_accounts _ Eagg) as (Hnd & Hnames & _).
    split; [exact Hnd|]. intros acc Hacc.
    destruct (proj1 (Hnames (name acc)) (in_map name _ _ Hacc)) as (row & Hrow & Hc & Hb).
    destruct (@register_suggestions _ _ acc Eagg Hacc) as [Hty Hsug].
    repeat split.
    + intros E. rewrite E in Hb. discriminate.
    + exact (Hcell _ _ _ Hrow Hc).
    + now rewrite Hty.
    + intros _. exact Hty.
  - destruct (netWorth_accounts _ Eagg) as (Hnd & Hnames & _).
    split; [exact Hnd|]. intros acc Hacc.
    destruct (proj1 (Hnames (name acc)) (in_map name _ _ Hacc))
      as (row & Hrow & _ & Hc & Hb).
    repeat split.
    + intros E. rewrite E in Hb. discriminate.
    + exact (Hcell _ _ _ Hrow Hc).
    + exact (@netWorth_suggestions _ _ acc Eagg Hacc).
    + discriminate.
Qed.

End Parser.

(** * Instances and counterexamples *)

(** Net-worth aggregation of the specification: the earlier month is left
    out and the last row of the latest month wins. *)
Example netWorthExample_result :
  parseNetWorthReport noUnicode netWorthExample
  = inr [mkAccount (str "Savings") (round_decimal false 30 0) (Some (str "Asset"))
                   current_asset liquid].
Proof. now vm_compute. Qed.

(** The theorem on the net-worth example. *)
Lemma parseNetWorthReport_latest_month_last_row_witness :
  accountIdxOf noUnicode netWorthExample <> (-1)%Z
  /\ balanceIdxOf noUnicode netWorthExample <> (-1)%Z
  /\ exists accs, parseNetWorthReport noUnicode netWorthExample = inr accs
                  /\ NoDup (map name accs).
Proof.
  assert (Ha : accountIdxOf noUnicode netWorthExample <> (-1)%Z)
    by (vm_compute; discriminate).
  assert (Hb : balanceIdxOf noUnicode netWorthExample <> (-1)%Z)
    by (vm_compute; discriminate).
  split; [exact Ha|]. split; [exact Hb|].
  destruct (@parseNetWorthReport_latest_month_last_row noUnicode netWorthExample Ha Hb)
    as (_ & _ & accs & E & Hnd & _).
  exists accs. split; [exact E | exact Hnd].
Defined.

(** Register aggregation of the specification: (100, 0) and (0, 40) on
    "Checking" give 60. *)
Example registerExample_result :
  parseRegister noUnicode (parseCSV registerExample)
  = inr [mkAccount (str "Checking") (round_decimal false 60 0) None
                   current_asset liquid].
Proof. now vm_compute. Qed.

(** The register characterisation on the example. *)
Lemma parseRegister_ledger_totals_witness :
  exists accs,
    parseRegister noUnicode (parseCSV registerExample) = inr accs
    /\ forall acc, In acc accs -> trim (name acc) = name acc.
Proof.
  destruct (@parseRegister_ledger_totals noUnicode registerExample)
    as (accs & E & _ & _ & H); try (vm_compute; discriminate).
  exists accs. split; [exact E|]. intros acc Hacc. exact (proj1 (H acc Hacc)).
Defined.

(** C2. The balance of an account is meant to be the sum of inflow -
    outflow over its rows.  Account A has the rows (Infinity, Infinity) and
    (5, 0): the sum of the net amounts is NaN, yet the balance returned is
    5, because the stored total is read back as [get(name) || 0] and NaN is
    falsy. *)
Theorem parseRegister_nan_total_restarts :
  let rows := parseCSV registerNaN in
  let nets := map (registerNet (inflowIdxOf noUnicode rows) (outflowIdxOf noUnicode rows))
                  (rowsOfAccount (accountIdxOf noUnicode rows) (str "A") (tl rows)) in
  parseRegister noUnicode rows
  = inr [mkAccount (str "A") (round_decimal false 5 0) None current_asset liquid]
  /\ sumInOrder nets = S754_nan
  /\ round_decimal false 5 0 <> sumInOrder nets.
Proof. split; [now vm_compute | split; [now vm_compute | vm_compute; discriminate]]. Qed.

(** The single-comma case on "12,50". *)
Lemma parseCurrencyValue_comma_only_witness :
  parseCurrencyValue (Some (str "12,50"))
  = orZeroIfNaN (parseFloat (str "12.50")).
Proof.
  apply (proj2 (proj1 parseCurrencyValue_comma_only (str "12,50") (str "12") (str "50")
                      eq_refl eq_refl eq_refl)).
  reflexivity.
Defined.

(** A content without white space at its ends comes back as it is. *)
Lemma parseCSV_quoted_field_trimmed_witness :
  parseCSV (quoteField (str "a,b")) = [[str "a,b"]].
Proof.
  apply (proj2 parseCSV_quoted_field_trimmed (str "a,b")); [discriminate | reflexivity].
Defined.

(** C4, counterexample. The content " a,b" has a comma; quoted and parsed
    back it has lost its leading space. *)
Lemma parseCSV_quoted_field_not_exact :
  includes_char COMMA (str " a,b") = true
  /\ parseCSV (quoteField (str " a,b")) = [[str "a,b"]]
  /\ parseCSV (quoteField (str " a,b")) <> [[str " a,b"]].
Proof. split; [reflexivity | split; [reflexivity | discriminate]]. Qed.

(** The long-term liability rule on "Home Mortgage". *)
Lemma suggestAccountType_first_match_witness :
  suggestAccountType noUnicode (str "Home Mortgage") None
  = (non_current_liability, illiquid).
Proof.
  apply (proj1 (proj1 (proj2 (@suggestAccountType_first_match noUnicode))
                      (str "Home Mortgage") None)); reflexivity.
Defined.

(** A header of neither format. *)
Lemma parseYNABCSV_failure_conditions_witness :
  parseYNABCSV noUnicode tt (str "Foo,Bar") = inl UnrecognizedFormat.
Proof.
  apply (proj1 (proj2 (proj2 (@parseYNABCSV_failure_conditions noUnicode unit tt
                                 (str "Foo,Bar"))))).
  split; [discriminate | reflexivity].
Defined.

(** A line feed and a bare carriage return after "a,b". *)
Lemma parseCSV_row_breaks_and_bare_CR_witness :
  parseCSV (str "a,b" ++ [LF] ++ str "c") = parseCSV (str "a,b") ++ parseCSV (str "c")
  /\ parseCSV (str "a,b" ++ [CR] ++ str "c") = parseCSV (str "a,b" ++ str "c").
Proof.
  destruct (@parseCSV_row_breaks_and_bare_CR (str "a,b") (str "c") eq_refl)
    as (H1 & _ & _ & H2).
  split; [exact H1|]. apply H2; discriminate.
Defined.

(** C8, counterexample. The carriage return between "a" and "b" is not in
    the field that comes back; a tab in its place is. *)
Lemma parseCSV_bare_CR_dropped :
  parseCSV (str "a" ++ [CR] ++ str "b") = [[str "ab"]]
  /\ parseCSV (str "a" ++ [CR] ++ str "b") <> [[str "a" ++ [CR] ++ str "b"]]
  /\ parseCSV (str "a" ++ [9%N] ++ str "b") = [[str "a" ++ [9%N] ++ str "b"]].
Proof. split; [reflexivity | split; [discriminate | reflexivity]]. Qed.

(** A register with a row that stops before the outflow column: the row
    counts with outflow 0, as if the 0 were written, and a further row
    without an account name changes nothing. *)
Lemma aggregators_tolerate_short_rows_witness :
  parseRegister noUnicode [registerHeader; shortRow]
  = inr [mkAccount (str "Cash") (round_decimal false 7 0) None current_asset liquid]
  /\ parseRegister noUnicode [registerHeader; shortRow]
     = parseRegister noUnicode [registerHeader; paddedRow]
  /\ parseRegister noUnicode [registerHeader; shortRow; namelessRow]
     = parseRegister noUnicode [registerHeader; shortRow]
  /\ cell shortRow 2 = None
  /\ parseCurrencyValue (cell shortRow 2) = num_zero.
Proof.
  destruct (@aggregators_tolerate_short_rows noUnicode)
    as (_ & _ & _ & _ & Hcell & _ & _ & Hremove & _ & Hreplace & _).
  split; [vm_compute; reflexivity|]. split; [|split].
  - apply (Hreplace registerHeader [] shortRow paddedRow []); vm_compute; reflexivity.
  - apply (Hremove registerHeader [shortRow] namelessRow []);
      vm_compute; (reflexivity || discriminate).
  - destruct (Hcell shortRow 2%Z) as (H1 & _ & H2); [vm_compute; discriminate|].
    split; [exact H1 | exact H2].
Defined.

(** ** The remaining examples of the specification *)

Example parseCurrencyValue_examples :
  parseCurrencyValue (Some (8364%N :: str "1,234.56")) = round_decimal false 123456 (-2)
  /\ parseCurrencyValue (Some (str "1.234,56")) = round_decimal false 123456 (-2)
  /\ parseCurrencyValue (Some (str "1,234,56")) = round_decimal false 1234 (-3)
  /\ parseCurrencyValue (Some []) = num_zero
  /\ parseCurrencyValue (Some (str "abc")) = num_zero.
Proof. repeat split; reflexivity. Qed.

Example detectYNABFormat_examples :
  detectYNABFormat noUnicode
    [str "Month"; str "Account"; str "Account Type"; str "Balance"] = Some networth
  /\ detectYNABFormat noUnicode [str "Account"; str "Inflow"; str "Outflow"]
     = Some register
  /\ detectYNABFormat noUnicode [str "Foo"; str "Bar"] = None.
Proof. repeat split; reflexivity. Qed.

Example stringSimilarity_examples :
  stringSimilarity noUnicode (str "Chase Checking") (str "chase checking")
  = round_decimal false 1 0
  /\ stringSimilarity noUnicode [] (str "x") = num_zero
  /\ SFleb (round_decimal false 7 (-1))
           (stringSimilarity noUnicode (str "Chase") (str "Chase Checking")) = true
  /\ SFleb (round_decimal false 6 (-1))
           (stringSimilarity noUnicode (str "Chase Checkng") (str "Chase Checking")) = true.
Proof. repeat split; now vm_compute. Qed.

(** Lenient input: a blank line, an unterminated quote and an amount that
    is no number still parse. *)
Example parseYNABCSV_lenient :
  parseYNABCSV noUnicode tt
    (str "Account,Inflow,Outflow" ++ [LF; LF] ++ str "Cash,abc,5" ++ [LF]
     ++ [QUOTE] ++ str "Visa,1,2")
  = inr (mkResult register
           [mkAccount (str "Cash") (round_decimal true 5 0) None current_asset liquid;
            mkAccount (str "Visa,1,2") num_zero None current_liability liquid]
           tt).
Proof. now vm_compute. Qed.

(** * Undo and redo history *)

Section UndoRedoFacts.
Variable T : Type.
Variable stringify : T -> option jsstring.

Lemma slice_last_kept (m : Z) (l : list T) (x : T) :
  (1 <= m)%Z -> exists l', UndoRedo.slice (- m) (l ++ [x]) = l' ++ [x]
                           /\ (length l' < Z.to_nat m)%nat
                           /\ exists dropped, l = dropped ++ l'.
Proof.
  intros Hm. unfold UndoRedo.slice.
  destruct (Z.ltb_spec (- m) 0) as [_|]; [|lia].
  rewrite length_app. cbn [length].
  set (n := Z.to_nat (Z.max (Z.of_nat (length l + 1) + - m) 0)).
  assert (Hn : (n <= length l)%nat) by (subst n; lia).
  rewrite skipn_app. replace (n - length l)%nat with 0%nat by lia. cbn [skipn].
  exists (skipn n l). split; [reflexivity|]. split.
  - rewrite length_skipn. subst n. lia.
  - exists (firstn n l). now rewrite firstn_skipn.
Qed.


(** X23. Undo and redo only move the current position: the states visited stay
    the same, in the same order. *)
Theorem undo_redo_keep_timeline (h : UndoRedo.history T) :
  UndoRedo.timeline (UndoRedo.undo h) = UndoRedo.timeline h
  /\ UndoRedo.timeline (UndoRedo.redo h) = UndoRedo.timeline h.
Proof.
  destruct h as [s p f]. unfold UndoRedo.timeline, UndoRedo.undo, UndoRedo.redo.
  cbn [UndoRedo.state UndoRedo.past UndoRedo.future]. split.
  - destruct p as [|x p]; [reflexivity|].
    cbn [UndoRedo.state UndoRedo.past UndoRedo.future].
    rewrite (app_removelast_last s (l := x :: p)) at 3 by discriminate.
    now rewrite <- app_assoc.
  - destruct f as [|n f]; [reflexivity|].
    cbn [UndoRedo.state UndoRedo.past UndoRedo.future].
    now rewrite <- app_assoc.
Qed.

(** X24. When each call is made in an event of its own and rendered before
    the next, redo cancels an undo that had something to undo, and undo
    cancels a redo that had something to redo; with nothing to undo or
    redo the call changes nothing.  Nothing is said of an undo and a redo
    made together in one event. *)
Theorem undo_redo_inverse (maxHistory : Z) (h : UndoRedo.history T) :
  (UndoRedo.past h <> [] ->
   UndoRedo.events stringify maxHistory [UndoRedo.Undo T; UndoRedo.Redo T] h = h)
  /\ (UndoRedo.future h <> [] ->
      UndoRedo.events stringify maxHistory [UndoRedo.Redo T; UndoRedo.Undo T] h = h)
  /\ (UndoRedo.past h = [] -> UndoRedo.commit stringify maxHistory (UndoRedo.Undo T) h = h)
  /\ (UndoRedo.future h = [] ->
      UndoRedo.commit stringify maxHistory (UndoRedo.Redo T) h = h).
Proof.
  unfold UndoRedo.events. cbn [fold_left UndoRedo.commit].
  destruct h as [s p f]. cbn [UndoRedo.state UndoRedo.past UndoRedo.future].
  split; [|split; [|split]].
  - intros Hp. unfold UndoRedo.undo. cbn [UndoRedo.past].
    destruct p as [|x p]; [congruence|]. unfold UndoRedo.redo.
    cbn [UndoRedo.state UndoRedo.past UndoRedo.future].
    now rewrite <- (app_removelast_last s (l := x :: p)) by discriminate.
  - intros Hf. unfold UndoRedo.redo. cbn [UndoRedo.future].
    destruct f as [|n f]; [congruence|]. unfold UndoRedo.undo.
    cbn [UndoRedo.state UndoRedo.past UndoRedo.future].
    destruct (p ++ [s]) eqn:E; [now destruct p|]. rewrite <- E.
    now rewrite last_last, removelast_last.
  - now intros ->.
  - now intros ->.
Qed.

(** X25. A call of [setState] that changes the serialised state can be
    undone by an undo made in a later event, after the call was rendered:
    with a limit of at least one entry, the undo brings back the state
    before the call and leaves the new state as the only one to redo; the
    past is the one before the call, or its most recent entries when the
    limit was reached.  Any redoable states are lost by the call.  Nothing
    is said of an undo made in the same event as the call. *)
Theorem undo_after_setState (maxHistory : Z) (u : UndoRedo.update T)
    (h : UndoRedo.history T) :
  let resolved := match u with
                  | UndoRedo.Updater f => f (UndoRedo.state h)
                  | UndoRedo.Value v => v
                  end in
  (1 <= maxHistory)%Z ->
  UndoRedo.differs stringify resolved (UndoRedo.state h) = true ->
  let h1 := UndoRedo.commit stringify maxHistory (UndoRedo.SetState u) h in
  let h' := UndoRedo.events stringify maxHistory
              [UndoRedo.SetState u; UndoRedo.Undo T] h in
  UndoRedo.state h1 = resolved
  /\ UndoRedo.future h1 = []
  /\ UndoRedo.state h' = UndoRedo.state h
  /\ UndoRedo.future h' = [resolved]
  /\ (exists dropped, UndoRedo.past h = dropped ++ UndoRedo.past h')
  /\ ((Z.of_nat (length (UndoRedo.past h)) < maxHistory)%Z ->
      UndoRedo.past h' = UndoRedo.past h).
Proof.
  intros resolved Hm Hd h1 h'. subst h1 h'.
  unfold UndoRedo.events. cbn [fold_left UndoRedo.commit].
  unfold UndoRedo.setState.
  fold resolved. rewrite Hd. destruct h as [s p f].
  cbn [UndoRedo.state UndoRedo.past UndoRedo.future] in *.
  split; [reflexivity|]. split; [reflexivity|].
  assert (E : exists l', (if (maxHistory <? Z.of_nat (length (p ++ [s])))%Z
                          then UndoRedo.slice (- maxHistory) (p ++ [s]) else p ++ [s])
                         = l' ++ [s]
                         /\ (exists dropped, p = dropped ++ l')
                         /\ ((Z.of_nat (length p) < maxHistory)%Z -> l' = p)).
  { destruct (Z.ltb_spec maxHistory (Z.of_nat (length (p ++ [s])))) as [Hlt|Hge].
    - destruct (slice_last_kept p s Hm) as (l' & E1 & _ & E3).
      exists l'. split; [exact E1|]. split; [exact E3|].
      rewrite length_app in Hlt. cbn [length] in Hlt. lia.
    - exists p. split; [reflexivity|]. split; [now exists [] | reflexivity]. }
  destruct E as (l' & -> & Hdrop & Hsame).
  unfold UndoRedo.undo. cbn [UndoRedo.state UndoRedo.past UndoRedo.future].
  destruct (l' ++ [s]) eqn:E; [now destruct l'|]. rewrite <- E.
  cbn [UndoRedo.state UndoRedo.past UndoRedo.future].
  rewrite last_last, removelast_last. repeat split; assumption.
Qed.

(** X26. With a limit of at least one entry, the undoable and the redoable
    states together never exceed the limit once they are within it: every
    callback of the hook keeps the bound. *)
Theorem history_bounded (maxHistory : Z) (h : UndoRedo.history T) :
  (1 <= maxHistory)%Z ->
  (Z.of_nat (length (UndoRedo.past h) + length (UndoRedo.future h)) <= maxHistory)%Z ->
  forall h',
    (h' = UndoRedo.undo h \/ h' = UndoRedo.redo h \/ h' = UndoRedo.clearHistory h
     \/ (exists u, h' = UndoRedo.setState stringify maxHistory u h)
     \/ (exists i, h' = UndoRedo.sync stringify i h)) ->
    (Z.of_nat (length (UndoRedo.past h') + length (UndoRedo.future h')) <= maxHistory)%Z.
Proof.
  intros Hm Hb h' Hh'. destruct h as [s p f].
  cbn [UndoRedo.state UndoRedo.past UndoRedo.future] in *.
  destruct Hh' as [->|[->|[->|[[u ->]|[i ->]]]]].
  - unfold UndoRedo.undo. cbn [UndoRedo.past].
    destruct p as [|x p]; [exact Hb|].
    cbn [UndoRedo.state UndoRedo.past UndoRedo.future].
    pose proof (app_removelast_last s (l := x :: p) ltac:(discriminate)) as E.
    apply (f_equal (@length T)) in E. rewrite length_app in E.
    cbn [length] in *. lia.
  - unfold UndoRedo.redo. cbn [UndoRedo.future].
    destruct f as [|n f]; [exact Hb|].
    cbn [UndoRedo.state UndoRedo.past UndoRedo.future].
    rewrite length_app. cbn [length] in *. lia.
  - cbn. lia.
  - unfold UndoRedo.setState. cbn [UndoRedo.state UndoRedo.past UndoRedo.future].
    destruct (UndoRedo.differs stringify _ s); [|exact Hb].
    cbn [UndoRedo.state UndoRedo.past UndoRedo.future length]. rewrite Nat.add_0_r.
    destruct (Z.ltb_spec maxHistory (Z.of_nat (length (p ++ [s])))) as [Hlt|Hge]; [|lia].
    destruct (slice_last_kept p s Hm) as (l' & -> & Hl' & _).
    rewrite length_app. cbn [length]. lia.
  - unfold UndoRedo.sync. cbn [UndoRedo.state].
    destruct (UndoRedo.differs stringify s i); exact Hb.
Qed.

(** X27. What [setState] leaves alone and what the limit 0 does: a call that
    does not change the serialised state keeps the past and the future;
    with [maxHistory] 0 a call that changes it appends to the past without
    any limit, since [slice(-0)] keeps the whole array. *)
Theorem setState_unchanged_and_zero_limit (maxHistory : Z) (u : UndoRedo.update T)
    (h : UndoRedo.history T) :
  let resolved := match u with
                  | UndoRedo.Updater f => f (UndoRedo.state h)
                  | UndoRedo.Value v => v
                  end in
  (UndoRedo.differs stringify resolved (UndoRedo.state h) = false ->
   UndoRedo.setState stringify maxHistory u h
   = UndoRedo.mkHistory resolved (UndoRedo.past h) (UndoRedo.future h))
  /\ (UndoRedo.differs stringify resolved (UndoRedo.state h) = true ->
      UndoRedo.setState stringify 0 u h
      = UndoRedo.mkHistory resolved (UndoRedo.past h ++ [UndoRedo.state h]) []).
Proof.
  intros resolved. unfold UndoRedo.setState. fold resolved. split; intros ->.
  - reflexivity.
  - f_equal. destruct (0 <? _)%Z; [|reflexivity].
    unfold UndoRedo.slice. cbn [Z.opp Z.ltb Z.compare].
    now rewrite Z.min_l by lia.
Qed.

End UndoRedoFacts.

(** * Further properties of the tokenizer *)

Lemma trim_spaces (s : jsstring) : forallb is_space s = true -> trim s = [].
Proof.
  intros H. unfold trim.
  assert (E : trimStart s = []).
  { induction s as [|c s IH]; [reflexivity|]. simpl in *.
    apply andb_true_iff in H as [Hc Hs]. rewrite Hc. now apply IH. }
  now rewrite E.
Qed.

(** Outside quotes a character other than a quote and a carriage return is
    handled without looking at the next one and leaves the scanner outside
    quotes. *)
Lemma step_plain (st : CSV.state) (c : N) (nx : option N) :
  CSV.inQuotes st = false -> c <> QUOTE -> c <> CR ->
  CSV.step st c nx = (fst (CSV.step st c None), false)
  /\ CSV.inQuotes (fst (CSV.step st c None)) = false.
Proof.
  destruct st as [ls line field q]. cbn [CSV.inQuotes]. intros -> HQ HC.
  unfold CSV.step. apply N.eqb_neq in HQ, HC. rewrite HQ, HC. cbn [andb negb].
  destruct ((c =? COMMA)%N || (c =? SEMICOLON)%N); [now split|].
  rewrite !orb_false_r. destruct (c =? LF)%N; now split.
Qed.

Lemma loop_plain_char (st : CSV.state) (c : N) (t : jsstring) :
  CSV.inQuotes st = false -> c <> QUOTE -> c <> CR ->
  CSV.loop st (c :: t) = CSV.loop (fst (CSV.step st c None)) t.
Proof.
  intros Hq HQ HC. cbn [CSV.loop].
  now rewrite (proj1 (step_plain st (hd_error t) Hq HQ HC)).
Qed.

Lemma loop_without_quotes_CR (t : jsstring) : forall st,
  includes_char QUOTE t = false -> CSV.inQuotes st = false ->
  CSV.loop st t = CSV.loop st (remove_all CR t)
  /\ CSV.inQuotes (CSV.loop st t) = false.
Proof.
  induction t as [t IH] using length_induction. intros st Ht Hq.
  destruct t as [|c rest]; [now split|].
  assert (Hc : c <> QUOTE /\ includes_char QUOTE rest = false).
  { unfold includes_char in *. cbn [existsb] in Ht.
    apply orb_false_iff in Ht as [H1 H2]. split; [|exact H2].
    apply N.eqb_neq in H1. congruence. }
  destruct Hc as [HQ Hrest].
  destruct (N.eq_dec c CR) as [->|HC].
  - change (remove_all CR (CR :: rest)) with (remove_all CR rest).
    destruct rest as [|n r'].
    + rewrite loop_CR by (exact Hq || discriminate). now split.
    + destruct (N.eq_dec n LF) as [->|Hn].
      * assert (Hr' : includes_char QUOTE r' = false).
        { unfold includes_char in *. cbn [existsb] in Hrest.
          now apply orb_false_iff in Hrest as [_ H2]. }
        assert (E : CSV.loop st (CR :: LF :: r') = CSV.loop (break st) r').
        { destruct st as [ls line field q]. cbn [CSV.inQuotes] in Hq. now subst q. }
        change (remove_all CR (LF :: r')) with (LF :: remove_all CR r').
        rewrite E, loop_LF by exact Hq. apply IH; [simpl; lia | exact Hr' | reflexivity].
      * rewrite loop_CR by (exact Hq || (cbn; congruence)).
        apply IH; [simpl; lia | exact Hrest | exact Hq].
  - replace (remove_all CR (c :: rest)) with (c :: remove_all CR rest)
      by (unfold remove_all; cbn [filter]; apply N.eqb_neq in HC; now rewrite HC).
    rewrite !loop_plain_char by assumption.
    apply IH; [simpl; lia | exact Hrest|].
    exact (proj2 (step_plain st None Hq HQ HC)).
Qed.

Lemma includes_char_remove_all (c d : N) (t : jsstring) :
  includes_char c t = false -> includes_char c (remove_all d t) = false.
Proof.
  intros H. destruct (includes_char c (remove_all d t)) eqn:E; [|reflexivity].
  apply includes_char_In in E. unfold remove_all in E. apply filter_In in E as [E _].
  apply includes_char_In in E. congruence.
Qed.

Lemma remove_all_absent (c : N) (t : jsstring) : includes_char c (remove_all c t) = false.
Proof.
  destruct (includes_char c (remove_all c t)) eqn:E; [|reflexivity].
  apply includes_char_In in E. unfold remove_all in E. apply filter_In in E as [_ E].
  now rewrite N.eqb_refl in E.
Qed.

Lemma pushLine_filter (ls : list (list jsstring)) (line : list jsstring) (field : jsstring) :
  CSV.pushLine ls line field = ls ++ filter hasContent [line ++ [trim field]].
Proof.
  unfold CSV.pushLine. cbn [filter]. fold (hasContent (line ++ [trim field])).
  destruct (hasContent (line ++ [trim field])); [reflexivity | now rewrite app_nil_r].
Qed.

(** The scan of a text without quotes and carriage returns, from any state
    outside quotes. *)
Lemma loop_plain_rows (t : jsstring) : forall ls line field,
  includes_char QUOTE t = false -> includes_char CR t = false ->
  exists l0 rest f0 fs,
    splitBy (N.eqb LF) t = l0 :: rest
    /\ splitBy is_delimiter l0 = f0 :: fs
    /\ CSV.finish (CSV.loop (CSV.mkState ls line field false) t)
       = ls ++ filter hasContent ((line ++ map trim ((field ++ f0) :: fs))
                                  :: map fieldsOfLine rest).
Proof.
  induction t as [|c t IH]; intros ls line field HQ HC.
  - exists [], [], [], []. repeat split. cbn [CSV.loop]. unfold CSV.finish.
    cbn [CSV.lines CSV.currentLine CSV.currentField map].
    now rewrite app_nil_r, pushLine_filter.
  - unfold includes_char in HQ, HC. cbn [existsb] in HQ, HC.
    apply orb_false_iff in HQ as [HQc HQ], HC as [HCc HC].
    apply N.eqb_neq in HQc, HCc.
    rewrite loop_plain_char by (reflexivity || congruence).
    unfold CSV.step. replace (c =? QUOTE)%N with false by (symmetry; apply N.eqb_neq; congruence).
    replace (c =? CR)%N with false by (symmetry; apply N.eqb_neq; congruence).
    cbn [andb negb fst]. fold (is_delimiter c).
    cbn [splitBy]. rewrite (N.eqb_sym LF c).
    destruct (is_delimiter c) eqn:Hd.
    + assert (HL : (c =? LF)%N = false).
      { unfold is_delimiter in Hd. destruct (N.eqb_spec c LF) as [->|]; [discriminate Hd | reflexivity]. }
      cbn [fst]. rewrite HL.
      destruct (IH ls (line ++ [trim field]) [] HQ HC) as (l0 & rest & f0 & fs & E1 & E2 & E3).
      rewrite E1. exists (c :: l0), rest, [], (f0 :: fs). split; [reflexivity|].
      split; [cbn [splitBy]; now rewrite Hd, E2|].
      rewrite E3. cbn [map app]. rewrite app_nil_r, <- app_assoc. reflexivity.
    + rewrite orb_false_r. destruct (c =? LF)%N eqn:HL.
      * cbn [fst].
        destruct (IH (CSV.pushLine ls line field) [] [] HQ HC)
          as (l0 & rest & f0 & fs & E1 & E2 & E3).
        rewrite E1. exists [], (l0 :: rest), [], []. split; [reflexivity|].
        split; [reflexivity|].
        rewrite E3, pushLine_filter. cbn [app map].
        unfold fieldsOfLine at 2. rewrite E2, app_nil_r, <- app_assoc.
        cbn [filter]. destruct (hasContent (line ++ [trim field])); reflexivity.
      * cbn [fst].
        destruct (IH ls line (field ++ [c]) HQ HC) as (l0 & rest & f0 & fs & E1 & E2 & E3).
        rewrite E1. exists (c :: l0), rest, (c :: f0), fs. split; [reflexivity|].
        split; [cbn [splitBy]; now rewrite Hd, E2|].
        rewrite E3, <- app_assoc. reflexivity.
Qed.

(** X5. Every field the tokenizer returns is trimmed, and every row it returns
    has a field that is not empty. *)
Theorem parseCSV_rows_trimmed_with_content (text : jsstring) (row : list jsstring) :
  In row (parseCSV text) ->
  (forall f, In f row -> trim f = f) /\ (exists f, In f row /\ f <> []).
Proof.
  intros Hrow. split.
  - pose proof (parseCSV_trimmed text) as H. unfold trimmedRows in H.
    rewrite Forall_forall in H. specialize (H _ Hrow). now rewrite Forall_forall in H.
  - pose proof (parseCSV_rows_nonempty text row Hrow) as H.
    apply existsb_exists in H as (f & Hf & Hne). exists f. split; [exact Hf|].
    now destruct f.
Qed.

(** X4. Outside quotes a line feed at the end of the text changes nothing, and
    a line made of white space and delimiters only gives no row. *)
Theorem parseCSV_blank_lines (s1 blank s2 : jsstring) :
  CSV.inQuotes (CSV.loop CSV.init s1) = false ->
  blankText blank = true ->
  parseCSV (s1 ++ [LF]) = parseCSV s1
  /\ parseCSV blank = []
  /\ parseCSV (s1 ++ LF :: blank ++ LF :: s2) = parseCSV (s1 ++ LF :: s2).
Proof.
  intros Hq Hb.
  assert (Hblank : parseCSV blank = [] /\ CSV.inQuotes (CSV.loop CSV.init blank) = false).
  { enough (G : forall t st,
                blankText t = true ->
                CSV.lines st = [] -> hasContent (CSV.currentLine st) = false ->
                forallb is_space (CSV.currentField st) = true -> CSV.inQuotes st = false ->
                CSV.finish (CSV.loop st t) = [] /\ CSV.inQuotes (CSV.loop st t) = false).
    { now apply (G blank CSV.init). }
    assert (P : forall line field,
               hasContent line = false -> forallb is_space field = true ->
               hasContent (line ++ [trim field]) = false).
    { intros line field H1 H2. unfold hasContent in *. rewrite existsb_app, H1.
      now rewrite (trim_spaces _ H2). }
    induction t as [t IH] using length_induction. intros st Ht H1 H2 H3 H4.
    destruct st as [ls line field q].
    cbn [CSV.lines CSV.currentLine CSV.currentField CSV.inQuotes] in *. subst ls q.
    destruct t as [|c rest].
    { cbn [CSV.loop]. split; [|reflexivity]. unfold CSV.finish.
      cbn [CSV.lines CSV.currentLine CSV.currentField].
      rewrite pushLine_filter. cbn [filter app]. now rewrite (P line field H2 H3). }
    unfold blankText in Ht. cbn [forallb] in Ht. apply andb_true_iff in Ht as [Hc Hrest].
    fold (blankText rest) in Hrest.
    assert (HcQ : (c =? QUOTE)%N = false).
    { destruct (N.eqb_spec c QUOTE) as [->|]; [discriminate Hc | reflexivity]. }
    assert (Hpush : CSV.pushLine [] line field = []).
    { rewrite pushLine_filter. cbn [filter app]. now rewrite (P line field H2 H3). }
    cbn [CSV.loop]. unfold CSV.step. rewrite HcQ. fold (is_delimiter c).
    destruct (is_delimiter c) eqn:Hd.
    { apply IH; cbn [CSV.lines CSV.currentLine CSV.currentField CSV.inQuotes];
        try reflexivity; [simpl; lia | exact Hrest | now apply P]. }
    rewrite orb_false_r in Hc.
    destruct ((c =? LF)%N || (c =? CR)%N && _) eqn:Hbrk.
    { rewrite Hpush. destruct (c =? CR)%N.
      - destruct rest as [|n r']; [now split|].
        cbn [blankText forallb] in Hrest. unfold blankText in Hrest. cbn [forallb] in Hrest.
        apply andb_true_iff in Hrest as [_ Hr'].
        apply IH; cbn [CSV.lines CSV.currentLine CSV.currentField CSV.inQuotes];
          try reflexivity; [simpl; lia | exact Hr'].
      - apply IH; cbn [CSV.lines CSV.currentLine CSV.currentField CSV.inQuotes];
          try reflexivity; [simpl; lia | exact Hrest]. }
    destruct (c =? CR)%N; cbn [negb].
    - apply IH; cbn [CSV.lines CSV.currentLine CSV.currentField CSV.inQuotes];
        try reflexivity; try assumption. simpl; lia.
    - apply IH; cbn [CSV.lines CSV.currentLine CSV.currentField CSV.inQuotes];
        try reflexivity; try assumption; [simpl; lia|].
      rewrite forallb_app, H3. cbn [forallb]. now rewrite Hc. }
  destruct Hblank as [Hb1 Hb2].
  split; [|split; [exact Hb1|]].
  - rewrite (parseCSV_LF s1 [] Hq). change (parseCSV []) with (@nil (list jsstring)).
    apply app_nil_r.
  - rewrite (parseCSV_LF s1 (blank ++ LF :: s2) Hq), (parseCSV_LF blank s2 Hb2), Hb1.
    now rewrite (parseCSV_LF s1 s2 Hq).
Qed.

(** X3. In a text without quotes the carriage returns play no part. *)
Theorem parseCSV_ignores_CR_without_quotes (text : jsstring) :
  includes_char QUOTE text = false ->
  parseCSV text = parseCSV (remove_all CR text).
Proof.
  intros H. unfold parseCSV.
  now rewrite (proj1 (loop_without_quotes_CR text CSV.init H eq_refl)).
Qed.

(** X2. A text without quotes is read line by line: its rows are the lines
    between line feeds, carriage returns removed, each cut into fields at
    commas and semicolons, each field trimmed, and the rows that have only
    empty fields left out. *)
Theorem parseCSV_without_quotes (text : jsstring) :
  includes_char QUOTE text = false -> parseCSV text = plainRows text.
Proof.
  intros H. unfold parseCSV.
  rewrite (proj1 (loop_without_quotes_CR text CSV.init H eq_refl)).
  unfold plainRows, CSV.init.
  destruct (loop_plain_rows (remove_all CR text) [] [] []
              (includes_char_remove_all QUOTE CR text H) (remove_all_absent CR text))
    as (l0 & rest & f0 & fs & E1 & E2 & E3).
  rewrite E3, E1. cbn [app map]. unfold fieldsOfLine at 2. now rewrite E2.
Qed.

(** * Further properties of the value normaliser *)

Lemma clean_no_space (v : jsstring) (c : N) : In c (clean v) -> is_space c = false.
Proof.
  unfold clean. rewrite filter_In. intros [_ H].
  unfold is_currency_or_space in H. apply negb_true_iff, orb_false_iff in H. tauto.
Qed.

Lemma clean_idempotent (v : jsstring) : clean (clean v) = clean v.
Proof. unfold clean. apply forallb_filter_id, forallb_filter. Qed.

Lemma clean_spaces (v : jsstring) : forallb is_space v = true -> clean v = [].
Proof.
  intros H. induction v as [|c v IH]; [reflexivity|].
  cbn [forallb] in H. apply andb_true_iff in H as [Hc Hv].
  unfold clean. cbn [filter]. unfold is_currency_or_space. rewrite Hc, orb_true_r.
  cbn [negb]. now apply IH.
Qed.

(** X6. Currency symbols and white space play no part, wherever they stand. *)
Theorem parseCurrencyValue_ignores_symbols (v : jsstring) :
  parseCurrencyValue (Some v) = parseCurrencyValue (Some (clean v)).
Proof.
  unfold parseCurrencyValue.
  destruct (is_empty v || is_empty (trim v)) eqn:Hblank.
  - assert (Hsp : forallb is_space v = true).
    { apply orb_true_iff in Hblank as [H|H].
      - now destruct v.
      - apply trim_nil. now destruct (trim v). }
    now rewrite (clean_spaces v Hsp).
  - destruct (clean v) as [|c w] eqn:E; [reflexivity|].
    cbn [is_empty orb].
    destruct (trim (c :: w)) eqn:Et.
    + apply trim_nil in Et. cbn [forallb] in Et. apply andb_true_iff in Et as [Hc _].
      rewrite (clean_no_space v c) in Hc; [discriminate|]. rewrite E. now left.
    + cbn [is_empty]. rewrite <- E. now rewrite clean_idempotent.
Qed.

Lemma lastIndexOf_fold (c : N) (s : jsstring) : forall i found,
  fold_left (fun '(i, found) x => ((i + 1)%Z, if (x =? c)%N then i else found)) s (i, found)
  = ((i + Z.of_nat (length s))%Z,
     snd (fold_left (fun '(i, found) x => ((i + 1)%Z, if (x =? c)%N then i else found))
                    s (i, found))).
Proof.
  induction s as [|x s IH]; intros i found.
  - cbn. f_equal. lia.
  - cbn [fold_left length]. rewrite IH. cbn [snd fst]. f_equal. lia.
Qed.

Lemma lastIndexOf_absent_fold (c : N) (s : jsstring) : forall i found,
  includes_char c s = false ->
  snd (fold_left (fun '(i, found) x => ((i + 1)%Z, if (x =? c)%N then i else found))
                 s (i, found)) = found.
Proof.
  induction s as [|x s IH]; intros i found H; [reflexivity|].
  unfold includes_char in H. cbn [existsb] in H. apply orb_false_iff in H as [Hx Hs].
  cbn [fold_left]. rewrite N.eqb_sym, Hx. now apply IH.
Qed.

Lemma lastIndexOf_last (c : N) (l r : jsstring) :
  includes_char c r = false -> lastIndexOf c (l ++ c :: r) = Z.of_nat (length l).
Proof.
  intros Hr. unfold lastIndexOf. rewrite fold_left_app, lastIndexOf_fold.
  cbn [fold_left]. rewrite N.eqb_refl. now rewrite lastIndexOf_absent_fold.
Qed.

Lemma lastIndexOf_app_absent (c : N) (l r : jsstring) :
  includes_char c r = false -> lastIndexOf c (l ++ r) = lastIndexOf c l.
Proof.
  intros Hr. unfold lastIndexOf. rewrite fold_left_app.
  rewrite (lastIndexOf_fold c l). now rewrite lastIndexOf_absent_fold.
Qed.

Lemma lastIndexOf_lt (c : N) (s : jsstring) : (lastIndexOf c s < Z.of_nat (length s))%Z.
Proof.
  unfold lastIndexOf.
  enough (G : forall i found, (found < i)%Z ->
              (snd (fold_left (fun '(i, found) x =>
                                 ((i + 1)%Z, if (x =? c)%N then i else found)) s (i, found))
               < i + Z.of_nat (length s))%Z) by (apply (G 0%Z (-1)%Z); lia).
  induction s as [|x s IH]; intros i found H; cbn [fold_left length snd]; [lia|].
  destruct (x =? c)%N.
  - specialize (IH (i + 1)%Z i ltac:(lia)). lia.
  - specialize (IH (i + 1)%Z found ltac:(lia)). lia.
Qed.

Lemma digitOrSep_kept (sep c : N) :
  (sep = DOT \/ sep = COMMA) -> digitOrSep sep c = true ->
  negb (is_currency_or_space c) = true.
Proof.
  unfold digitOrSep. intros Hsep H. apply orb_true_iff in H as [H|H].
  - now apply digit_kept.
  - apply N.eqb_eq in H. subst c. now destruct Hsep as [->| ->].
Qed.

Lemma remove_sep_digits (sep : N) (s : jsstring) :
  is_digit sep = false -> forallb (digitOrSep sep) s = true ->
  forallb is_digit (remove_all sep s) = true.
Proof.
  intros Hsep H. apply forallb_forall. intros x Hx.
  unfold remove_all in Hx. apply filter_In in Hx as [Hin Hne].
  rewrite forallb_forall in H. specialize (H x Hin). unfold digitOrSep in H.
  apply negb_true_iff in Hne. rewrite Hne in H. now rewrite orb_false_r in H.
Qed.

Lemma digitOrSep_no_other (sep other : N) (s : jsstring) :
  is_digit other = false -> other <> sep -> forallb (digitOrSep sep) s = true ->
  includes_char other s = false.
Proof.
  intros Hd Hne H. destruct (includes_char other s) eqn:E; [|reflexivity].
  apply includes_char_In in E. rewrite forallb_forall in H. specialize (H _ E).
  unfold digitOrSep in H. rewrite Hd in H. cbn [orb] in H. apply N.eqb_eq in H. congruence.
Qed.

Lemma remove_all_app (c : N) (l r : jsstring) :
  remove_all c (l ++ r) = remove_all c l ++ remove_all c r.
Proof. unfold remove_all. apply filter_app. Qed.

Lemma remove_all_id (c : N) (s : jsstring) :
  includes_char c s = false -> remove_all c s = s.
Proof.
  intros H. unfold remove_all. apply forallb_filter_id, forallb_forall. intros x Hx.
  destruct (N.eqb_spec x c) as [->|]; [|reflexivity].
  apply includes_char_In in Hx. congruence.
Qed.

(** X7. An amount with both separators, grouped integer part [d :: s] and
    decimals [c]: the separator that comes last is the decimal point, the
    other one is dropped, in the European and in the US notation alike. *)
Theorem parseCurrencyValue_both_separators (d : N) (s c : jsstring) :
  is_digit d = true -> forallb is_digit c = true ->
  (forallb (digitOrSep DOT) s = true -> includes_char DOT s = true ->
   parseCurrencyValue (Some (d :: s ++ COMMA :: c))
   = round_decimal false (digits_value (remove_all DOT (d :: s) ++ c))
                   (- Z.of_nat (length c)))
  /\ (forallb (digitOrSep COMMA) s = true -> includes_char COMMA s = true ->
      parseCurrencyValue (Some (d :: s ++ DOT :: c))
      = round_decimal false (digits_value (remove_all COMMA (d :: s) ++ c))
                      (- Z.of_nat (length c))).
Proof.
  intros Hd Hc.
  assert (Hcom : includes_char COMMA c = false)
    by (apply digits_no_char; [reflexivity | exact Hc]).
  assert (Hdot : includes_char DOT c = false)
    by (apply digits_no_char; [reflexivity | exact Hc]).
  assert (Rem : forall sep, (sep = DOT \/ sep = COMMA) -> forallb (digitOrSep sep) s = true ->
                  remove_all sep (d :: s) = d :: remove_all sep s
                  /\ forallb is_digit (d :: remove_all sep s) = true).
  { intros sep Hsep Hs. split.
    - unfold remove_all. cbn [filter].
      replace (d =? sep)%N with false; [reflexivity|].
      symmetry. apply N.eqb_neq. intros ->. destruct Hsep as [->| ->]; discriminate Hd.
    - cbn [forallb]. rewrite Hd. apply remove_sep_digits; [|exact Hs].
      now destruct Hsep as [->| ->]. }
  split; intros Hs Hin.
  - (* European: dots group, the comma is the decimal point *)
    set (v := d :: s ++ COMMA :: c).
    assert (Hclean : clean v = v).
    { unfold clean. apply forallb_filter_id. subst v. cbn [forallb].
      rewrite (digit_kept d Hd). cbn [andb]. rewrite forallb_app. cbn [forallb].
      apply andb_true_iff. split; [|apply andb_true_iff; split; [reflexivity|]].
      - rewrite forallb_forall in *. intros x Hx.
        apply (@digitOrSep_kept DOT); [now left | now apply Hs].
      - rewrite forallb_forall in *. intros x Hx. now apply digit_kept, Hc. }
    assert (Hnb : is_empty v || is_empty (trim v) = false).
    { apply comma_not_blank. rewrite Hclean. apply includes_char_In. subst v.
      right. apply in_elt. }
    unfold parseCurrencyValue. rewrite Hnb, Hclean. unfold normalizeSeparators.
    assert (HC : includes_char COMMA v = true)
      by (apply includes_char_In; subst v; right; apply in_elt).
    assert (HD : includes_char DOT v = true).
    { apply includes_char_In. subst v. right. apply in_or_app. left.
      now apply includes_char_In. }
    rewrite HC, HD. cbn [andb].
    change v with ((d :: s) ++ COMMA :: c).
    rewrite (lastIndexOf_last COMMA (d :: s) c Hcom).
    rewrite (lastIndexOf_app_absent DOT (d :: s) (COMMA :: c))
      by (unfold includes_char; cbn [existsb]; exact Hdot).
    pose proof (lastIndexOf_lt DOT (d :: s)) as Hlt.
    destruct (Z.ltb_spec (lastIndexOf DOT (d :: s)) (Z.of_nat (length (d :: s)))); [|lia].
    rewrite remove_all_app.
    replace (remove_all DOT (COMMA :: c)) with (COMMA :: c)
      by (symmetry; apply remove_all_id; unfold includes_char; cbn [existsb]; exact Hdot).
    destruct (Rem DOT (or_introl eq_refl) Hs) as [E1 E2]. rewrite E1.
    rewrite (replace_first_single COMMA DOT (d :: remove_all DOT s) c)
      by (apply digits_no_char; [reflexivity | exact E2]).
    rewrite parseFloat_decimal by (discriminate || assumption).
    apply orZeroIfNaN_round_decimal.
  - (* US: commas group, the dot is the decimal point *)
    set (v := d :: s ++ DOT :: c).
    assert (Hclean : clean v = v).
    { unfold clean. apply forallb_filter_id. subst v. cbn [forallb].
      rewrite (digit_kept d Hd). cbn [andb]. rewrite forallb_app. cbn [forallb].
      apply andb_true_iff. split; [|apply andb_true_iff; split; [reflexivity|]].
      - rewrite forallb_forall in *. intros x Hx.
        apply (@digitOrSep_kept COMMA); [now right | now apply Hs].
      - rewrite forallb_forall in *. intros x Hx. now apply digit_kept, Hc. }
    assert (HC : includes_char COMMA v = true).
    { apply includes_char_In. subst v. right. apply in_or_app. left.
      now apply includes_char_In. }
    assert (Hnb : is_empty v || is_empty (trim v) = false).
    { apply comma_not_blank. now rewrite Hclean. }
    unfold parseCurrencyValue. rewrite Hnb, Hclean. unfold normalizeSeparators.
    assert (HD : includes_char DOT v = true)
      by (apply includes_char_In; subst v; right; apply in_elt).
    rewrite HC, HD. cbn [andb].
    change v with ((d :: s) ++ DOT :: c).
    rewrite (lastIndexOf_last DOT (d :: s) c Hdot).
    rewrite (lastIndexOf_app_absent COMMA (d :: s) (DOT :: c))
      by (unfold includes_char; cbn [existsb]; exact Hcom).
    pose proof (lastIndexOf_lt COMMA (d :: s)) as Hlt.
    destruct (Z.ltb_spec (Z.of_nat (length (d :: s))) (lastIndexOf COMMA (d :: s))); [lia|].
    rewrite remove_all_app.
    replace (remove_all COMMA (DOT :: c)) with (DOT :: c)
      by (symmetry; apply remove_all_id; unfold includes_char; cbn [existsb]; exact Hcom).
    destruct (Rem COMMA (or_intror eq_refl) Hs) as [E1 E2]. rewrite E1.
    rewrite parseFloat_decimal by (discriminate || assumption).
    apply orZeroIfNaN_round_decimal.
Qed.

Lemma not_blank (v : jsstring) (c : N) :
  In c v -> is_space c = false -> is_empty v || is_empty (trim v) = false.
Proof.
  intros Hin Hc. destruct v as [|x v]; [destruct Hin|]. cbn [is_empty orb].
  destruct (trim (x :: v)) eqn:E; [|reflexivity].
  apply trim_nil in E. rewrite forallb_forall in E. apply E in Hin. congruence.
Qed.

(** [parseFloat] on an optional minus sign followed by a digit. *)
Lemma parseFloat_signed (neg : bool) (d : N) (rest : jsstring) :
  is_digit d = true ->
  parseFloat (minusSign neg ++ d :: rest)
  = let '(ip, r1) := span_digits (d :: rest) in
    let '(fp, r2) :=
      match r1 with
      | c :: r => if (c =? DOT)%N then span_digits r else ([], r1)
      | [] => ([], r1)
      end in
    if is_empty ip && is_empty fp then S754_nan
    else round_decimal neg (digits_value (ip ++ fp))
                       (exponent_part r2 - Z.of_nat (length fp)).
Proof.
  intros Hd. destruct (@parseFloat_starts_with_digit d rest Hd) as (E1 & E2 & E3).
  unfold parseFloat. destruct neg; cbn [minusSign app].
  - change (trimStart (45%N :: d :: rest)) with (45%N :: d :: rest).
    change (take_sign (45%N :: d :: rest)) with (true, d :: rest).
    cbv beta iota. now rewrite E3.
  - now rewrite E1, E2, E3.
Qed.

Lemma normalizeSeparators_no_comma (s : jsstring) :
  includes_char COMMA s = false -> normalizeSeparators s = s.
Proof. intros H. unfold normalizeSeparators. now rewrite H. Qed.

Lemma clean_id (s : jsstring) :
  forallb (fun c => negb (is_currency_or_space c)) s = true -> clean s = s.
Proof. intros H. unfold clean. now apply forallb_filter_id. Qed.

Lemma digits_kept (s : jsstring) :
  forallb is_digit s = true -> forallb (fun c => negb (is_currency_or_space c)) s = true.
Proof.
  rewrite !forallb_forall. intros H x Hx. now apply digit_kept, H.
Qed.

Lemma minusSign_kept (neg : bool) :
  forallb (fun c => negb (is_currency_or_space c)) (minusSign neg) = true.
Proof. now destruct neg. Qed.

Lemma minusSign_no_comma (neg : bool) : includes_char COMMA (minusSign neg) = false.
Proof. now destruct neg. Qed.

Lemma includes_char_app (c : N) (s t : jsstring) :
  includes_char c (s ++ t) = includes_char c s || includes_char c t.
Proof. unfold includes_char. apply existsb_app. Qed.

(** X8. A plain amount, with or without a minus sign and a decimal point, is
    the number it writes: no separator analysis applies without a comma. *)
Theorem parseCurrencyValue_signed_decimal (neg : bool) (ip fp : jsstring) :
  ip <> [] -> forallb is_digit ip = true -> forallb is_digit fp = true ->
  parseCurrencyValue (Some (minusSign neg ++ ip ++ DOT :: fp))
  = round_decimal neg (digits_value (ip ++ fp)) (- Z.of_nat (length fp))
  /\ parseCurrencyValue (Some (minusSign neg ++ ip))
     = round_decimal neg (digits_value ip) 0.
Proof.
  intros Hne Hip Hfp. destruct ip as [|d ip]; [congruence|].
  pose proof Hip as Hd. cbn [forallb] in Hd. apply andb_true_iff in Hd as [Hd _].
  assert (Hdsp : is_space d = false).
  { pose proof (digit_kept d Hd) as K. unfold is_currency_or_space in K.
    now apply negb_true_iff, orb_false_iff in K. }
  split.
  - set (v := minusSign neg ++ (d :: ip) ++ DOT :: fp).
    assert (Hnb : is_empty v || is_empty (trim v) = false).
    { apply (@not_blank v d); [|exact Hdsp]. subst v.
      apply in_or_app. right. now left. }
    assert (Hclean : clean v = v).
    { apply clean_id. subst v. rewrite !forallb_app.
      rewrite minusSign_kept, (digits_kept _ Hip). cbn [forallb andb].
      now rewrite (digits_kept _ Hfp). }
    assert (Hcom : includes_char COMMA v = false).
    { subst v. rewrite !includes_char_app, minusSign_no_comma.
      rewrite (digits_no_char COMMA (d :: ip)) by (reflexivity || assumption).
      unfold includes_char at 1. cbn [existsb orb].
      apply digits_no_char; [reflexivity | exact Hfp]. }
    unfold parseCurrencyValue. rewrite Hnb, Hclean, (normalizeSeparators_no_comma _ Hcom).
    subst v. cbn [app]. rewrite (@parseFloat_signed neg d _ Hd).
    change (d :: ip ++ DOT :: fp) with ((d :: ip) ++ DOT :: fp).
    rewrite (span_digits_app (d :: ip) (DOT :: fp) Hip) by reflexivity.
    rewrite N.eqb_refl.
    assert (Efp : span_digits fp = (fp, [])).
    { rewrite <- (app_nil_r fp) at 1. exact (span_digits_app fp [] Hfp I). }
    rewrite Efp. cbn [is_empty andb exponent_part]. rewrite Z.sub_0_l.
    now rewrite round_decimal_not_nan.
  - set (v := minusSign neg ++ d :: ip).
    assert (Hnb : is_empty v || is_empty (trim v) = false).
    { apply (@not_blank v d); [|exact Hdsp]. subst v.
      apply in_or_app. right. now left. }
    assert (Hclean : clean v = v).
    { apply clean_id. subst v. rewrite !forallb_app.
      now rewrite minusSign_kept, (digits_kept _ Hip). }
    assert (Hcom : includes_char COMMA v = false).
    { subst v. rewrite !includes_char_app, minusSign_no_comma.
      apply digits_no_char; [reflexivity | exact Hip]. }
    unfold parseCurrencyValue. rewrite Hnb, Hclean, (normalizeSeparators_no_comma _ Hcom).
    subst v. rewrite (@parseFloat_signed neg d _ Hd).
    assert (Eip : span_digits (d :: ip) = (d :: ip, [])).
    { rewrite <- (app_nil_r (d :: ip)) at 1. exact (span_digits_app (d :: ip) [] Hip I). }
    rewrite Eip. cbn [is_empty andb exponent_part length]. rewrite app_nil_r.
    cbn [Z.sub Z.opp Z.add Z.of_nat]. now rewrite round_decimal_not_nan.
Qed.

Lemma remove_all_head (c x : N) (s : jsstring) :
  x <> c -> remove_all c (x :: s) = x :: remove_all c s.
Proof.
  intros H. unfold remove_all. cbn [filter].
  now destruct (N.eqb_spec x c).
Qed.

Lemma replace_first_head (c d x : N) (s : jsstring) :
  x <> c -> replace_first c d (x :: s) = x :: replace_first c d s.
Proof. intros H. cbn [replace_first]. now destruct (N.eqb_spec x c). Qed.

(** The separator analysis leaves a first character alone that is neither
    a comma nor a point. *)
Lemma normalizeSeparators_head (c : N) (rest : jsstring) :
  c <> COMMA -> c <> DOT ->
  exists rest', normalizeSeparators (c :: rest) = c :: rest'.
Proof.
  intros Hc Hd. unfold normalizeSeparators.
  repeat match goal with
         | |- context [if ?b then _ else _] => destruct b
         end;
    rewrite ?remove_all_head, ?replace_first_head by assumption;
    try rewrite replace_first_head by assumption; eauto.
Qed.

(** X9. Text that is no numeral counts as zero: when the first character left
    after the symbols is none of a digit, a sign, a point, a comma or the
    letter I, the value is 0.  An amount in parentheses is such a text. *)
Theorem parseCurrencyValue_not_a_number (v : jsstring) (c : N) (rest : jsstring) :
  clean v = c :: rest ->
  is_digit c = false -> c <> 43%N -> c <> 45%N -> c <> DOT -> c <> COMMA -> c <> 73%N ->
  parseCurrencyValue (Some v) = num_zero.
Proof.
  intros Hclean Hd Hplus Hminus Hdot Hcomma HI.
  assert (Hsp : is_space c = false).
  { apply (clean_no_space v). rewrite Hclean. now left. }
  unfold parseCurrencyValue.
  destruct (is_empty v || is_empty (trim v)); [reflexivity|].
  rewrite Hclean.
  destruct (normalizeSeparators_head rest Hcomma Hdot) as [rest' ->].
  now rewrite parseFloat_not_numeric.
Qed.

(** * Reading back a quoted table *)

(** No quote at the head. *)
Lemma loop_quoted_then (content rest : jsstring) (ls : list (list jsstring))
    (line : list jsstring) : forall field,
  hd_error rest <> Some QUOTE ->
  CSV.loop (CSV.mkState ls line field true)
    (flat_map (fun c => if (c =? QUOTE)%N then [QUOTE; QUOTE] else [c]) content
     ++ QUOTE :: rest)
  = CSV.loop (CSV.mkState ls line (field ++ content) false) rest.
Proof.
  induction content as [|c content IH]; intros field Hrest.
  - cbn [flat_map app CSV.loop CSV.step]. rewrite N.eqb_refl.
    assert (E : match hd_error rest with Some n => (n =? QUOTE)%N | None => false end = false).
    { destruct rest as [|x rest]; [reflexivity|]. cbn [hd_error] in *.
      apply N.eqb_neq. congruence. }
    rewrite E. cbn [andb]. now rewrite app_nil_r.
  - cbn [flat_map]. destruct (N.eqb_spec c QUOTE) as [->|Hc].
    + cbn [app CSV.loop CSV.step hd_error]. rewrite N.eqb_refl. cbn [andb].
      rewrite (IH _ Hrest). now rewrite <- app_assoc.
    + cbn [app CSV.loop CSV.step]. apply N.eqb_neq in Hc. rewrite Hc. cbn [andb].
      rewrite (IH _ Hrest). now rewrite <- app_assoc.
Qed.

Lemma loop_quoteField_then (content rest : jsstring) (ls : list (list jsstring))
    (line : list jsstring) (field : jsstring) :
  hd_error rest <> Some QUOTE ->
  CSV.loop (CSV.mkState ls line field false) (quoteField content ++ rest)
  = CSV.loop (CSV.mkState ls line (field ++ content) false) rest.
Proof.
  intros Hrest. unfold quoteField. cbn [app CSV.loop CSV.step].
  rewrite N.eqb_refl. rewrite <- app_assoc. cbn [app].
  now apply loop_quoted_then.
Qed.

Lemma joinWith_cons (sep : N) (p q : jsstring) (ps : list jsstring) :
  joinWith sep (p :: q :: ps) = p ++ sep :: joinWith sep (q :: ps).
Proof. reflexivity. Qed.

Lemma quotedRow_cons (f g : jsstring) (fs : list jsstring) :
  quotedRow (f :: g :: fs) = quoteField f ++ COMMA :: quotedRow (g :: fs).
Proof. reflexivity. Qed.

Lemma quotedTable_cons (r r' : list jsstring) (rows : list (list jsstring)) :
  quotedTable (r :: r' :: rows) = quotedRow r ++ LF :: quotedTable (r' :: rows).
Proof. reflexivity. Qed.

Lemma loop_quotedRow_then (rest : jsstring) (ls : list (list jsstring)) :
  hd_error rest <> Some QUOTE ->
  forall fs f line,
    CSV.loop (CSV.mkState ls line [] false) (quotedRow (f :: fs) ++ rest)
    = CSV.loop (CSV.mkState ls (line ++ map trim (removelast (f :: fs)))
                            (last (f :: fs) []) false) rest.
Proof.
  intros Hrest. induction fs as [|g fs IH]; intros f line.
  - unfold quotedRow. cbn [map joinWith removelast last]. rewrite app_nil_r.
    now rewrite loop_quoteField_then.
  - rewrite quotedRow_cons.
    rewrite <- app_assoc. rewrite loop_quoteField_then by (cbn; discriminate).
    cbn [app CSV.loop CSV.step].
    change (COMMA =? QUOTE)%N with false. change (COMMA =? COMMA)%N with true.
    cbn [orb hd_error]. rewrite IH.
    change (removelast (f :: g :: fs)) with (f :: removelast (g :: fs)).
    change (last (f :: g :: fs) []) with (last (g :: fs) []).
    cbn [map]. now rewrite <- app_assoc.
Qed.

Lemma pushLine_row (ls : list (list jsstring)) (f : jsstring) (fs : list jsstring) :
  CSV.pushLine ls (map trim (removelast (f :: fs))) (last (f :: fs) [])
  = ls ++ filter hasContent [map trim (f :: fs)].
Proof.
  unfold CSV.pushLine.
  assert (E : map trim (removelast (f :: fs)) ++ [trim (last (f :: fs) [])]
              = map trim (f :: fs)).
  { rewrite (app_removelast_last (l := f :: fs) []) at 3 by discriminate.
    now rewrite map_app. }
  rewrite E. cbn [filter]. unfold hasContent.
  destruct (existsb _ (map trim (f :: fs))); [reflexivity | now rewrite app_nil_r].
Qed.

Lemma finish_loop_quotedTable (rows : list (list jsstring)) :
  forall ls,
    CSV.finish (CSV.loop (CSV.mkState ls [] [] false) (quotedTable rows))
    = ls ++ filter hasContent (map (map trim) rows).
Proof.
  induction rows as [|r rows IH]; intros ls.
  - cbn. now rewrite app_nil_r.
  - destruct rows as [|r' rows].
    + unfold quotedTable. cbn [map joinWith]. destruct r as [|f fs].
      * cbn. now rewrite app_nil_r.
      * rewrite <- (app_nil_r (quotedRow (f :: fs))).
        rewrite loop_quotedRow_then by discriminate.
        cbn [CSV.loop app]. unfold CSV.finish.
        cbn [CSV.lines CSV.currentLine CSV.currentField].
        apply pushLine_row.
    + rewrite quotedTable_cons.
      destruct r as [|f fs].
      * cbn [quotedRow map joinWith app CSV.loop CSV.step].
        change (LF =? QUOTE)%N with false. change (LF =? COMMA)%N with false.
        change (LF =? SEMICOLON)%N with false. change (LF =? LF)%N with true.
        change (LF =? CR)%N with false. cbn [orb].
        replace (CSV.pushLine ls [] []) with ls by reflexivity.
        rewrite IH. reflexivity.
      * rewrite loop_quotedRow_then by (cbn; discriminate).
        cbn [app CSV.loop CSV.step].
        change (LF =? QUOTE)%N with false. change (LF =? COMMA)%N with false.
        change (LF =? SEMICOLON)%N with false. change (LF =? LF)%N with true.
        change (LF =? CR)%N with false. cbn [orb].
        rewrite pushLine_row, IH.
        change (map (map trim) ((f :: fs) :: r' :: rows))
          with ([map trim (f :: fs)] ++ map (map trim) (r' :: rows)).
        now rewrite filter_app, app_assoc.
Qed.

(** X1. A table written with every field in quotes, the quotes of a content
    doubled, commas between the fields and line feeds between the rows, is
    read back as it was up to the trimming of the fields, whatever the
    fields contain (quotes, delimiters, line breaks); rows whose fields are
    all blank are left out. *)
Theorem parseCSV_quoted_table (rows : list (list jsstring)) :
  parseCSV (quotedTable rows) = filter hasContent (map (map trim) rows).
Proof.
  unfold parseCSV, CSV.init. now rewrite finish_loop_quotedTable.
Qed.

(** * Instances of the further properties *)

(** ** Undo and redo *)

Lemma undo_redo_inverse_witness :
  UndoRedo.events stringifyText 50 [UndoRedo.Undo jsstring; UndoRedo.Redo jsstring]
                  (UndoRedo.mkHistory (str "b") [str "a"] [])
  = UndoRedo.mkHistory (str "b") [str "a"] [].
Proof.
  apply (proj1 (@undo_redo_inverse jsstring stringifyText 50
                  (UndoRedo.mkHistory (str "b") [str "a"] []))).
  discriminate.
Defined.

Lemma undo_after_setState_witness :
  UndoRedo.state
    (UndoRedo.events stringifyText 50
       [UndoRedo.SetState (UndoRedo.Value (str "b")); UndoRedo.Undo jsstring]
       (UndoRedo.mkHistory (str "a") [] []))
  = str "a".
Proof.
  apply (@undo_after_setState jsstring stringifyText 50 (UndoRedo.Value (str "b"))
           (UndoRedo.mkHistory (str "a") [] [])).
  - lia.
  - reflexivity.
Defined.

Lemma history_bounded_witness :
  (Z.of_nat
     (length (UndoRedo.past
                (UndoRedo.setState stringifyText 1 (UndoRedo.Value (str "c"))
                                   (UndoRedo.mkHistory (str "b") [str "a"] [])))
      + length (UndoRedo.future
                  (UndoRedo.setState stringifyText 1 (UndoRedo.Value (str "c"))
                                     (UndoRedo.mkHistory (str "b") [str "a"] []))))
   <= 1)%Z.
Proof.
  apply (@history_bounded jsstring stringifyText 1
           (UndoRedo.mkHistory (str "b") [str "a"] [])).
  - lia.
  - cbn. lia.
  - right. right. right. left. now exists (UndoRedo.Value (str "c")).
Defined.

Lemma setState_unchanged_and_zero_limit_witness :
  UndoRedo.setState stringifyText 0 (UndoRedo.Value (str "b"))
                    (UndoRedo.mkHistory (str "a") [] [])
  = UndoRedo.mkHistory (str "b") [str "a"] [].
Proof.
  apply (proj2 (@setState_unchanged_and_zero_limit jsstring stringifyText 0
                  (UndoRedo.Value (str "b")) (UndoRedo.mkHistory (str "a") [] []))).
  reflexivity.
Defined.

(** ** Tokenizer *)

Lemma parseCSV_rows_trimmed_with_content_witness :
  (forall f, In f [str "a"; str "b"] -> trim f = f)
  /\ (exists f, In f [str "a"; str "b"] /\ f <> []).
Proof.
  apply (@parseCSV_rows_trimmed_with_content (str " a , b ") [str "a"; str "b"]).
  left. reflexivity.
Defined.

Lemma parseCSV_blank_lines_witness :
  parseCSV (str "a,b" ++ [LF]) = parseCSV (str "a,b")
  /\ parseCSV (str " , ") = []
  /\ parseCSV (str "a,b" ++ LF :: str " , " ++ LF :: str "c")
     = parseCSV (str "a,b" ++ LF :: str "c").
Proof.
  apply (@parseCSV_blank_lines (str "a,b") (str " , ") (str "c")); reflexivity.
Defined.

Lemma parseCSV_ignores_CR_without_quotes_witness :
  parseCSV (str "a" ++ CR :: str "b") = parseCSV (str "ab").
Proof.
  apply (@parseCSV_ignores_CR_without_quotes (str "a" ++ CR :: str "b")). reflexivity.
Defined.

Lemma parseCSV_without_quotes_witness :
  parseCSV (str "a,b" ++ LF :: str "c;d") = plainRows (str "a,b" ++ LF :: str "c;d").
Proof.
  apply (@parseCSV_without_quotes (str "a,b" ++ LF :: str "c;d")). reflexivity.
Defined.

(** ** Value normaliser *)

Lemma parseCurrencyValue_both_separators_witness :
  parseCurrencyValue (Some (str "1.234,56")) = round_decimal false 123456 (-2)
  /\ parseCurrencyValue (Some (str "1,234.56")) = round_decimal false 123456 (-2).
Proof.
  split.
  - exact (proj1 (@parseCurrencyValue_both_separators 49 (str ".234") (str "56")
                    eq_refl eq_refl) eq_refl eq_refl).
  - exact (proj2 (@parseCurrencyValue_both_separators 49 (str ",234") (str "56")
                    eq_refl eq_refl) eq_refl eq_refl).
Defined.

Lemma parseCurrencyValue_signed_decimal_witness :
  parseCurrencyValue (Some (str "-12.5")) = round_decimal true 125 (-1).
Proof.
  refine (proj1 (@parseCurrencyValue_signed_decimal true (str "12") (str "5") _
                   eq_refl eq_refl)).
  discriminate.
Defined.

Lemma parseCurrencyValue_not_a_number_witness :
  parseCurrencyValue (Some (str "(500)")) = num_zero.
Proof.
  apply (@parseCurrencyValue_not_a_number (str "(500)") 40 (str "500)"));
    (reflexivity || discriminate).
Defined.

(** ** Classifier, detection and aggregators *)

Lemma parseNetWorthReport_balance_not_nan_witness :
  isNaN (round_decimal false 30 0) = false.
Proof.
  refine (@parseNetWorthReport_balance_not_nan noUnicode netWorthExample
            [mkAccount (str "Savings") (round_decimal false 30 0) (Some (str "Asset"))
                       current_asset liquid]
            (mkAccount (str "Savings") (round_decimal false 30 0) (Some (str "Asset"))
                       current_asset liquid) _ _).
  - vm_compute. reflexivity.
  - left. reflexivity.
Defined.

Lemma suggestAccountType_hint_only_liability_witness :
  suggestAccountType noUnicode (str "Savings") (Some (str "Asset"))
  = suggestAccountType noUnicode (str "Savings") None.
Proof.
  apply (@suggestAccountType_hint_only_liability noUnicode). reflexivity.
Defined.

Lemma accounts_in_order_of_first_appearance_witness :
  map name [mkAccount (str "Checking") (round_decimal false 60 0) None current_asset liquid]
  = firstOccurrences (accountNames (accountIdxOf noUnicode (parseCSV registerExample))
                                   (tl (parseCSV registerExample))).
Proof.
  apply (proj1 (@accounts_in_order_of_first_appearance noUnicode (parseCSV registerExample)
                  [mkAccount (str "Checking") (round_decimal false 60 0) None
                             current_asset liquid])).
  vm_compute. reflexivity.
Defined.

Lemma detectYNABFormat_by_header_set_witness :
  detectYNABFormat noUnicode [str "Account"; str "Inflow"; str "Outflow"]
  = detectYNABFormat noUnicode [str " OUTFLOW"; str "inflow"; str "Account"; str "inflow"].
Proof.
  apply (proj1 (@detectYNABFormat_by_header_set noUnicode
                  [str "Account"; str "Inflow"; str "Outflow"]
                  [str " OUTFLOW"; str "inflow"; str "Account"; str "inflow"])).
  intros h. vm_compute. tauto.
Defined.

Lemma parseYNABCSV_accounts_well_formed_witness :
  NoDup (map name [mkAccount (str "Checking") (round_decimal false 60 0) None
                             current_asset liquid]).
Proof.
  refine (proj1 (@parseYNABCSV_accounts_well_formed noUnicode unit tt registerExample
                   (mkResult register
                             [mkAccount (str "Checking") (round_decimal false 60 0) None
                                        current_asset liquid] tt) _)).
  vm_compute. reflexivity.
Defined.

(** ** Reconciler *)

Lemma initialMappings_exact_match_witness :
  map ynabAccount (initialMappings noUnicode [parsedTypo] [chaseChecking] (str "EUR"))
  = [parsedTypo].
Proof.
  apply (@initialMappings_exact_match noUnicode [parsedTypo] [chaseChecking] (str "EUR")).
Defined.

Lemma initialMappings_fuzzy_or_new_witness :
  currency (initialMapping noUnicode [chaseChecking] (str "EUR") parsedTypo) = str "EUR".
Proof.
  apply (@initialMappings_fuzzy_or_new noUnicode [parsedTypo] [chaseChecking] (str "EUR")
           (initialMapping noUnicode [chaseChecking] (str "EUR") parsedTypo)).
  - left. reflexivity.
  - vm_compute. discriminate.
Defined.

Lemma resolving_a_fuzzy_mapping_witness :
  fuzzyUnconfirmed
    (summary (updateMapping 0 (setInclude false)
                (initialMappings noUnicode [parsedTypo] [chaseChecking] (str "EUR"))))
  + 1
  = fuzzyUnconfirmed
      (summary (initialMappings noUnicode [parsedTypo] [chaseChecking] (str "EUR"))).
Proof.
  apply (@resolving_a_fuzzy_mapping [chaseChecking] 0
           (initialMappings noUnicode [parsedTypo] [chaseChecking] (str "EUR"))
           (initialMapping noUnicode [chaseChecking] (str "EUR") parsedTypo)).
  - reflexivity.
  - vm_compute. reflexivity.
Defined.

Lemma handleSelectMatch_touches_one_mapping_witness :
  exists ms',
    handleSelectMatch [chaseChecking] 0 (str "acc-1")
      (initialMappings noUnicode [parsedTypo] [chaseChecking] (str "EUR")) = Some ms'
    /\ length ms' = 1.
Proof.
  destruct (@handleSelectMatch_touches_one_mapping [chaseChecking] 0 (str "acc-1")
              (initialMappings noUnicode [parsedTypo] [chaseChecking] (str "EUR")))
    as (ms' & E & Hlen & _).
  - cbn. lia.
  - exists ms'. split; [exact E | exact Hlen].
Defined.
